(** * JobSpy (Go port): orchestrator, Indeed adapter and helpers

    A shallow embedding of the Go package [jobspy] (models.go, utils.go,
    indeed_scraper.go and the orchestrator file holding [ScrapeJobs]) and
    of the first lines of its command-line front end, followed by the
    properties that its design document states about it and by further
    properties of the code.

    Conventions of the embedding
    - a Go [string] is a Rocq [string], read as its sequence of bytes;
      the functions of Go's [strings] package are modelled on ASCII
      bytes (bytes above 0x7F are neither letters nor spaces and are
      never changed);
    - a Go [int] is a [Z] with the 64-bit wrap-around written out;
    - a nullable pointer [*T] is an [option T]; a slice whose nil-ness
      matters is an [option (list T)] ([None] is the nil slice);
    - a [map[string]bool] is a [gmap string bool], a missing key reading
      as [false];
    - a function that can panic returns an [option] ([None] is the
      panic), a function with an [error] result returns a sum. *)

From Stdlib Require Import ZArith QArith Ascii String List Lia DecimalString.
From stdpp Require Import gmap strings list.

Local Open Scope string_scope.
Local Open Scope Z_scope.

(** ** Go's [strings] package, on ASCII bytes *)

Module strings.

Definition code (c : ascii) : nat := nat_of_ascii c.

Definition between (lo hi : nat) (c : ascii) : bool :=
  (Nat.leb lo (code c)) && (Nat.leb (code c) hi).

Definition isUpper (c : ascii) : bool := between 65 90 c.
Definition isLower (c : ascii) : bool := between 97 122 c.
Definition isDigit (c : ascii) : bool := between 48 57 c.
Definition isLetter (c : ascii) : bool := isUpper c || isLower c.

(** [unicode.IsSpace] on ASCII: tab, newline, vertical tab, form feed,
    carriage return and space. *)
Definition isSpace (c : ascii) : bool :=
  between 9 13 c || Nat.eqb (code c) 32.

Definition lowerByte (c : ascii) : ascii :=
  if isUpper c then ascii_of_nat (code c + 32) else c.

Definition upperByte (c : ascii) : ascii :=
  if isLower c then ascii_of_nat (code c - 32) else c.

Fixpoint mapBytes (f : ascii -> ascii) (s : string) : string :=
  match s with
  | EmptyString => EmptyString
  | String c r => String (f c) (mapBytes f r)
  end.

Definition ToLower : string -> string := mapBytes lowerByte.
Definition ToUpper : string -> string := mapBytes upperByte.

(** [isSeparator] of strings.go: ASCII letters, digits and the
    underscore are not separators, every other ASCII byte is. *)
Definition isSeparator (c : ascii) : bool :=
  if Nat.ltb 127 (code c) then false
  else negb (isDigit c || isLetter c || Nat.eqb (code c) 95).

(** [strings.Title]: the byte after a separator is title-cased; the
    walk starts as if a space came before the first byte. *)
Fixpoint titleFrom (prev : ascii) (s : string) : string :=
  match s with
  | EmptyString => EmptyString
  | String c r =>
      String (if isSeparator prev then upperByte c else c) (titleFrom c r)
  end.

Definition Title (s : string) : string := titleFrom " "%char s.

Fixpoint Join (parts : list string) (sep : string) : string :=
  match parts with
  | [] => ""
  | [p] => p
  | p :: rest => p ++ sep ++ Join rest sep
  end.

Fixpoint HasPrefix (s p : string) : bool :=
  match p, s with
  | EmptyString, _ => true
  | String _ _, EmptyString => false
  | String a p', String b s' => if Ascii.eqb a b then HasPrefix s' p' else false
  end.

Fixpoint Contains (s sub : string) : bool :=
  HasPrefix s sub ||
  match s with
  | EmptyString => false
  | String _ r => Contains r sub
  end.

Fixpoint trimLeft (s : string) : string :=
  match s with
  | String c r => if isSpace c then trimLeft r else s
  | EmptyString => EmptyString
  end.

Fixpoint trimRight (s : string) : string :=
  match s with
  | EmptyString => EmptyString
  | String c r =>
      match trimRight r with
      | EmptyString => if isSpace c then EmptyString else String c EmptyString
      | r' => String c r'
      end
  end.

Definition TrimSpace (s : string) : string := trimRight (trimLeft s).

(** [strings.Replace(s, old, "", -1)] for a one-byte [old]. *)
Fixpoint removeByte (b : ascii) (s : string) : string :=
  match s with
  | EmptyString => EmptyString
  | String c r => if Ascii.eqb c b then removeByte b r else String c (removeByte b r)
  end.

(** [strings.Split(s, sep)] for a one-byte separator: always at least
    one field. *)
Fixpoint splitByte (b : ascii) (cur : string) (s : string) : list string :=
  match s with
  | EmptyString => [cur]
  | String c r =>
      if Ascii.eqb c b then cur :: splitByte b "" r
      else splitByte b (cur ++ String c "") r
  end.

Definition Split (s : string) (b : ascii) : list string := splitByte b "" s.

End strings.

(** ** models.go *)

Abbreviation JobType := string.
Definition JobTypeFullTime : JobType := "fulltime".
Definition JobTypePartTime : JobType := "parttime".
Definition JobTypeContract : JobType := "contract".
Definition JobTypeTemporary : JobType := "temporary".
Definition JobTypeInternship : JobType := "internship".

Abbreviation Site := string.
Definition SiteLinkedIn : Site := "linkedin".
Definition SiteIndeed : Site := "indeed".
Definition SiteZipRecruiter : Site := "zip_recruiter".
Definition SiteGlassdoor : Site := "glassdoor".
Definition SiteGoogle : Site := "google".
Definition SiteBayt : Site := "bayt".
Definition SiteNaukri : Site := "naukri".
Definition SiteBDJobs : Site := "bdjobs".

Abbreviation Country := string.
Definition CountryUSA : Country := "usa".
Definition CountryCanada : Country := "canada".
Definition CountryUK : Country := "uk".
Definition CountryGermany : Country := "germany".
Definition CountryFrance : Country := "france".

Inductive CompensationInterval :=
  IntervalYearly | IntervalMonthly | IntervalWeekly | IntervalDaily | IntervalHourly.

Record Location := mkLocation {
  City : option string;
  State : option string;
  Country_ : option Country
}.

(** [(l *Location) String()]: the parts are appended in the order city,
    state, country, then joined. *)
Definition Location_String (l : Location) : string :=
  let parts : list string := [] in
  let parts := match City l with Some c => (parts ++ [c])%list | None => parts end in
  let parts := match State l with Some s => (parts ++ [s])%list | None => parts end in
  let parts :=
    match Country_ l with
    | Some c =>
        let countryStr :=
          if String.eqb c "usa" || String.eqb c "uk"
          then strings.ToUpper c else strings.Title c in
        (parts ++ [countryStr])%list
    | None => parts
    end in
  strings.Join parts ", ".

(** [locationString] of the command-line front end: the guard against a
    nil location lives in the caller, [String] itself dereferences. *)
Definition locationString (loc : option Location) : string :=
  match loc with
  | None => ""
  | Some l => Location_String l
  end.

Record Compensation := mkCompensation {
  Interval : option CompensationInterval;
  MinAmount : option Q;
  MaxAmount : option Q;
  Currency : option string
}.

Inductive DescriptionFormat := FormatMarkdown | FormatHTML | FormatPlain.

(** [JobPost], with the fields that the Indeed adapter fills; the other
    fields of the Go struct stay nil in every posting it builds.  The two
    slices are kept with their nil-ness. *)
Record JobPost := mkJobPost {
  ID : option string;
  Title : string;
  CompanyName : option string;
  JobURL : string;
  Location_ : option Location;
  Description : option string;
  JobType_ : option (list JobType);
  Compensation_ : option Compensation;
  Emails : option (list string);
  IsRemote : option bool
}.

Record JobResponse := mkJobResponse { Jobs : list JobPost }.

Record ScraperInput := mkScraperInput {
  SiteType : list Site;
  SearchTerm : option string;
  GoogleSearchTerm : option string;
  Location_in : option string;
  Country_in : option Country;
  Distance : option Z;
  IsRemote_in : bool;
  JobType_in : option JobType;
  EasyApply : option bool;
  Offset : Z;
  LinkedInFetchDescription : bool;
  LinkedInCompanyIDs : list Z;
  DescriptionFormat_in : option DescriptionFormat;
  RequestTimeout : Z;
  ResultsWanted : Z;
  HoursOld : option Z
}.

(** [JobTypeFromString]: the first case of the switch that holds wins. *)
Definition JobTypeFromString (s : string) : option JobType :=
  let s := strings.ToLower s in
  if strings.Contains s "fulltime" || strings.Contains s "full-time"
     || strings.Contains s "períodointegral" then Some JobTypeFullTime
  else if strings.Contains s "parttime" || strings.Contains s "part-time"
     || strings.Contains s "teilzeit" then Some JobTypePartTime
  else if strings.Contains s "contract" || strings.Contains s "contractor"
     then Some JobTypeContract
  else if strings.Contains s "temporary" then Some JobTypeTemporary
  else if strings.Contains s "internship" || strings.Contains s "prácticas"
     then Some JobTypeInternship
  else None.

(** ** Go slices and ints *)

(** [append(s, x)] on a slice that may be nil: the result is never nil. *)
Definition goAppend {A} (s : option (list A)) (x : A) : option (list A) :=
  Some (match s with None => [x] | Some l => (l ++ [x])%list end).

(** [len(s)], zero on the nil slice. *)
Definition goLen {A} (s : option (list A)) : nat :=
  match s with None => 0%nat | Some l => length l end.

(** The value of a Go [int] (64 bits, two's complement) after an
    arithmetic operation whose mathematical result is [z]. *)
Definition wrap64 (z : Z) : Z :=
  (z + 2 ^ 63) mod 2 ^ 64 - 2 ^ 63.

(** [s[lo:hi]] on a slice of length and capacity [length s]: it panics
    unless [0 <= lo <= hi <= len]. *)
Definition goSlice {A} (s : list A) (lo hi : Z) : option (list A) :=
  if (0 <=? lo) && (lo <=? hi) && (hi <=? Z.of_nat (length s))
  then Some (firstn (Z.to_nat (hi - lo)) (skipn (Z.to_nat lo) s))
  else None.

(** ** Go's [regexp], for the patterns of the package

    A pattern is a syntax tree; it is matched as the package [regexp]
    matches it: the match found at a position is the one that a
    backtracking search finds first (the left branch of an alternative
    before the right one, one more turn of a star before none).  The
    patterns of the package have at most one capturing group, and none
    of them matches the empty string. *)

Module regexp.

Inductive Regexp :=
  | Empty                        (* the empty string *)
  | Class (p : ascii -> bool)    (* one byte of a class *)
  | Seq (r1 r2 : Regexp)
  | Alt (r1 r2 : Regexp)
  | Star (r : Regexp)
  | Group (r : Regexp).          (* the capturing group 1 *)

Definition Byte (b : ascii) : Regexp := Class (fun c => Ascii.eqb c b).
Definition Plus (r : Regexp) : Regexp := Seq r (Star r).
Definition Opt (r : Regexp) : Regexp := Alt r Empty.

(** The class [\s] of the pattern syntax (no vertical tab) and the
    class of [.] (no newline). *)
Definition perlSpace (c : ascii) : bool :=
  strings.isSpace c && negb (Nat.eqb (strings.code c) 11).

Definition notNewline (c : ascii) : bool := negb (Nat.eqb (strings.code c) 10).

Fixpoint take (n : nat) (s : string) : string :=
  match n, s with
  | S k, String c r => String c (take k r)
  | _, _ => EmptyString
  end.

(** What has been read of [s] when [s'] is left of it. *)
Definition consumed (s s' : string) : string :=
  take (String.length s - String.length s') s.

Record Found := mkFound { rest : string; group1 : option string }.

(** The backtracking search: [k] is what remains to be matched after
    [r].  A turn of a star that reads nothing is not taken. *)
Fixpoint run (r : Regexp) (s : string) (g : option string)
    (k : string -> option string -> option Found) {struct r} : option Found :=
  match r with
  | Empty => k s g
  | Class p =>
      match s with
      | String c s' => if p c then k s' g else None
      | EmptyString => None
      end
  | Seq r1 r2 => run r1 s g (fun s' g' => run r2 s' g' k)
  | Alt r1 r2 =>
      match run r1 s g k with
      | Some m => Some m
      | None => run r2 s g k
      end
  | Star r1 =>
      (fix star (n : nat) (s : string) (g : option string) : option Found :=
         match n with
         | O => k s g
         | S n' =>
             match run r1 s g
                     (fun s' g' =>
                        if Nat.ltb (String.length s') (String.length s)
                        then star n' s' g' else None) with
             | Some m => Some m
             | None => k s g
             end
         end) (String.length s) s g
  | Group r1 => run r1 s g (fun s' _ => k s' (Some (consumed s s')))
  end.

(** The match at the start of [s]: its length, the match and the
    group 1 (empty when the group took no part). *)
Definition matchAt (r : Regexp) (s : string) : option (nat * list string) :=
  match run r s None (fun s' g => Some (mkFound s' g)) with
  | Some m =>
      Some ((String.length s - String.length (rest m))%nat,
            [consumed s (rest m); default "" (group1 m)])
  | None => None
  end.

(** All the matches, from left to right: a match is reported and the
    search resumes right after it; where there is none the search moves
    one byte on. *)
Fixpoint findFrom (r : Regexp) (skip : nat) (s : string) : list (list string) :=
  match s with
  | EmptyString => []
  | String _ s' =>
      match skip with
      | S k => findFrom r k s'
      | O =>
          match matchAt r s with
          | Some (n, m) => m :: findFrom r (Nat.pred n) s'
          | None => findFrom r 0 s'
          end
      end
  end.

(** [re.FindAllStringSubmatch(s, -1)]. *)
Definition FindAllStringSubmatch (r : Regexp) (s : string) : list (list string) :=
  findFrom r 0 s.

(** [re.FindAllString(s, -1)]: nil when there is no match. *)
Definition FindAllString (r : Regexp) (s : string) : option (list string) :=
  match FindAllStringSubmatch r s with
  | [] => None
  | found => Some (map (fun m => hd "" m) found)
  end.

(** [re.ReplaceAllString(s, repl)], for a [repl] without group
    references. *)
Fixpoint replaceFrom (r : Regexp) (repl : string) (skip : nat) (s : string) : string :=
  match s with
  | EmptyString => EmptyString
  | String c s' =>
      match skip with
      | S k => replaceFrom r repl k s'
      | O =>
          match matchAt r s with
          | Some (n, _) => repl ++ replaceFrom r repl (Nat.pred n) s'
          | None => String c (replaceFrom r repl 0 s')
          end
      end
  end.

Definition ReplaceAllString (r : Regexp) (s repl : string) : string :=
  replaceFrom r repl 0 s.

End regexp.

(** ** utils.go *)

(** *** Proxy rotation *)

Record ProxyRotator := mkProxyRotator {
  proxies : list string;
  current : Z
}.

Definition NewProxyRotator (proxies : list string) : ProxyRotator :=
  {| proxies := proxies; current := 0 |}.

(** [(pr *ProxyRotator) Next()]: the proxy read and the rotator after
    the call; [None] when the index expression panics.  [current + 1]
    cannot overflow: [current] is below the length of a slice. *)
Definition ProxyRotator_Next (pr : ProxyRotator) : option (string * ProxyRotator) :=
  if Nat.eqb (length (proxies pr)) 0 then Some ("", pr)
  else
    if current pr <? 0 then None
    else
      match proxies pr !! Z.to_nat (current pr) with
      | None => None
      | Some proxy =>
          Some (proxy,
                {| proxies := proxies pr;
                   current := Z.rem (current pr + 1) (Z.of_nat (length (proxies pr))) |})
      end.

(** [Next] has no lock and no atomic operation: run by a goroutine it
    is two statements, each touching the shared field [current].  The
    statements are the steps here (each one taken as indivisible, which
    is more than Go promises), the rotator is the shared memory. *)
Inductive NextPC :=
  | AtCheck                      (* before [if len(pr.proxies) == 0] *)
  | AtIndex                      (* before [proxy := pr.proxies[pr.current]] *)
  | AtAdvance (proxy : string)   (* before [pr.current = ...] *)
  | Returned (proxy : string)
  | Panicked.

Definition Next_step (pr : ProxyRotator) (pc : NextPC) : ProxyRotator * NextPC :=
  match pc with
  | AtCheck =>
      if Nat.eqb (length (proxies pr)) 0 then (pr, Returned "") else (pr, AtIndex)
  | AtIndex =>
      if current pr <? 0 then (pr, Panicked)
      else match proxies pr !! Z.to_nat (current pr) with
           | Some proxy => (pr, AtAdvance proxy)
           | None => (pr, Panicked)
           end
  | AtAdvance proxy =>
      ({| proxies := proxies pr;
          current := Z.rem (current pr + 1) (Z.of_nat (length (proxies pr))) |},
       Returned proxy)
  | Returned _ | Panicked => (pr, pc)
  end.

(** Two goroutines calling [Next] on one rotator; a schedule names the
    goroutine that takes the next step ([false] the first one). *)
Fixpoint Next_interleave (sched : list bool) (pr : ProxyRotator) (a b : NextPC)
  : ProxyRotator * NextPC * NextPC :=
  match sched with
  | [] => (pr, a, b)
  | false :: rest => let '(pr', a') := Next_step pr a in Next_interleave rest pr' a' b
  | true :: rest => let '(pr', b') := Next_step pr b in Next_interleave rest pr' a b'
  end.

(** *** The HTTP client, as far as proxies go *)

Record HTTPClient := mkHTTPClient {
  proxyRotator : option ProxyRotator;
  userAgent : string;
  (* the proxy of [client.Transport], nil until a proxy URL parses *)
  transportProxy : option string;
  (* how many requests the client has sent: the clock of the network *)
  sent : nat
}.

Definition defaultUserAgent : string :=
  "Mozilla/5.0 (Windows NT 10.0; Win64; x64) AppleWebKit/537.36 (KHTML, like Gecko) Chrome/120.0.0.0 Safari/537.36".

(** [NewHTTPClient]; the timeout is the business of [net/http]. *)
Definition NewHTTPClient (proxies : list string) (userAgent : string) : HTTPClient :=
  {| proxyRotator :=
       if Nat.ltb 0 (length proxies) then Some (NewProxyRotator proxies) else None;
     userAgent := if String.eqb userAgent "" then defaultUserAgent else userAgent;
     transportProxy := None;
     sent := 0 |}.

(** [FormatProxy]: a scheme is put in front of a proxy that has none. *)
Definition FormatProxy (proxy : string) : string :=
  if negb (strings.HasPrefix proxy "http://")
     && negb (strings.HasPrefix proxy "https://")
     && negb (strings.HasPrefix proxy "socks5://")
  then "http://" ++ proxy
  else proxy.

(** *** Logging *)

Inductive Level := LevelInfo | LevelWarn | LevelError.

Definition levelRank (l : Level) : Z :=
  match l with LevelInfo => 0 | LevelWarn => 4 | LevelError => 8 end.

(** [SetLogLevel]: the floor below which records are dropped. *)
Definition SetLogLevel (verbose : Z) : Level :=
  if verbose =? 0 then LevelError
  else if verbose =? 1 then LevelWarn
  else LevelInfo.

Record LogRecord := mkLogRecord {
  level : Level;
  msg : string;
  attrs : list (string * string)
}.

(** What the handler writes of a sequence of records. *)
Definition emitted (floor : Level) (records : list LogRecord) : list LogRecord :=
  List.filter (fun r => levelRank floor <=? levelRank (level r)) records.

(** *** Site and country names *)

Abbreviation error := string.

Definition MapStringToSite (s : string) : Site + error :=
  let l := strings.ToLower s in
  if String.eqb l "linkedin" then inl SiteLinkedIn
  else if String.eqb l "indeed" then inl SiteIndeed
  else if String.eqb l "zip_recruiter" || String.eqb l "ziprecruiter" then inl SiteZipRecruiter
  else if String.eqb l "glassdoor" then inl SiteGlassdoor
  else if String.eqb l "google" then inl SiteGoogle
  else if String.eqb l "bayt" then inl SiteBayt
  else if String.eqb l "naukri" then inl SiteNaukri
  else if String.eqb l "bdjobs" then inl SiteBDJobs
  else inr ("unknown site: " ++ s).

Definition CountryFromString (s : string) : option Country :=
  let s := strings.ToLower s in
  if String.eqb s "usa" || String.eqb s "us" || String.eqb s "united states" then Some CountryUSA
  else if String.eqb s "canada" || String.eqb s "ca" then Some CountryCanada
  else if String.eqb s "uk" || String.eqb s "united kingdom" || String.eqb s "gb" then Some CountryUK
  else if String.eqb s "germany" || String.eqb s "de" then Some CountryGermany
  else if String.eqb s "france" || String.eqb s "fr" then Some CountryFrance
  else None.

(** *** Email extraction *)

Module emailRegexp.
Import regexp strings.

Definition localByte (c : ascii) : bool :=
  isLetter c || isDigit c || Ascii.eqb c "." || Ascii.eqb c "_" || Ascii.eqb c "%"
  || Ascii.eqb c "+" || Ascii.eqb c "-".

Definition domainByte (c : ascii) : bool :=
  isLetter c || isDigit c || Ascii.eqb c "." || Ascii.eqb c "-".

(** [[a-zA-Z0-9._%+-]+@[a-zA-Z0-9.-]+\.[a-zA-Z]{2,}]. *)
Definition pattern : Regexp :=
  Seq (Plus (Class localByte))
      (Seq (Byte "@")
           (Seq (Plus (Class domainByte))
                (Seq (Byte ".")
                     (Seq (Class isLetter) (Seq (Class isLetter) (Star (Class isLetter))))))).
End emailRegexp.

Definition ExtractEmailsFromText (text : string) : option (list string) :=
  if String.eqb text "" then None
  else
    let emails := regexp.FindAllString emailRegexp.pattern text in
    if Nat.eqb (goLen emails) 0 then None
    else emails.

(** [strconv.Itoa]. *)
Definition Itoa (z : Z) : string := NilZero.string_of_int (Z.to_int z).

(** [strconv.ParseFloat(s, 64)] on the strings that the salary pattern
    can hand to it: digits with at most one dot (signs, exponents and
    the like are not read and count as a syntax error here).  The value
    is the exact decimal, the rounding to a [float64] is left out; the
    range error is kept: a decimal that rounds beyond the largest
    [float64] is an error. *)
Module strconv.
Import strings.

Definition digitValue (c : ascii) : Z := Z.of_nat (code c) - 48.

Fixpoint readDigits (acc : Z) (n : nat) (s : string) : Z * nat * string :=
  match s with
  | String c r =>
      if isDigit c then readDigits (10 * acc + digitValue c) (S n) r
      else (acc, n, s)
  | EmptyString => (acc, n, s)
  end.

Definition maxFloat64Bound : Z := 2 ^ 1024 - 2 ^ 970.

Definition inRange (m : Z) (decimals : nat) : bool :=
  m <? maxFloat64Bound * 10 ^ Z.of_nat decimals.

Definition decimal (m : Z) (decimals : nat) : option Q :=
  if inRange m decimals
  then Some (Qmake m (Z.to_pos (10 ^ Z.of_nat decimals)))
  else None.

Definition ParseFloat (s : string) : option Q :=
  let '(ip, n1, rest) := readDigits 0 0 s in
  match rest with
  | EmptyString => if Nat.eqb n1 0 then None else decimal ip 0
  | String "." frac =>
      let '(m, n2, rest') := readDigits ip 0 frac in
      match rest' with
      | EmptyString => if Nat.eqb (n1 + n2) 0 then None else decimal m n2
      | _ => None
      end
  | _ => None
  end.
End strconv.

(** ** indeed_scraper.go *)

(** *** What the adapter sees of the outside

    A job card is what the selectors of [parseJobCard] find in one
    [[data-jk]] element; a document is its cards and its next-page
    link; the network answers the n-th request of a run. *)

Record Card := mkCard {
  data_jk : option string;          (* s.Attr("data-jk") *)
  titleSpan : option string;        (* h2.jobTitle a span[title]; None: empty selection *)
  titleLink : string;               (* h2.jobTitle a *)
  companyNameText : string;         (* .companyName *)
  jobLocation : option string;      (* [data-testid='job-location']; None: empty selection *)
  companyLocation : string;         (* .companyLocation *)
  salarySnippet : option string;    (* .salary-snippet; None: empty selection *)
  summary : string                  (* .summary *)
}.

Inductive NextLink :=
  | NoNextLink                      (* no a[aria-label='Next Page'] *)
  | NextWithoutHref
  | NextUnparsable                  (* url.Parse(href) fails *)
  | NextStart (start : string).     (* u.Query().Get("start") *)

Record Doc := mkDoc { cards : list Card; nextLink : NextLink }.

Inductive Body :=
  | Unreadable (err : error)        (* goquery.NewDocumentFromReader fails *)
  | Parsed (doc : Doc).

Inductive HTTPResult :=
  | RequestFailed (err : error)
  | Response (StatusCode : Z) (body : Body).

Record Request := mkRequest {
  baseURL_ : string;
  params : list (string * string);
  viaProxy : option string
}.

Record World := mkWorld {
  http_Do : nat -> Request -> HTTPResult;
  url_Parse_ok : string -> bool;                 (* url.Parse of a proxy *)
  md_ConvertString : string -> string + error;   (* html-to-markdown *)
  goquery_Text : string -> string + error        (* document text of an HTML string *)
}.

Section Adapter.
Context (W : World).

(** [(hc *HTTPClient) Get]: the rotator is advanced once per request;
    the transport keeps its proxy when the new one is empty or does not
    parse.  [None] when [Next] panics.  The search URL of the adapter
    always parses, so [NewRequestWithContext] does not fail. *)
Definition HTTPClient_Get (hc : HTTPClient) (baseURL : string)
    (params : list (string * string)) : option (HTTPResult * HTTPClient) :=
  match proxyRotator hc with
  | None =>
      Some (http_Do W (sent hc) (mkRequest baseURL params (transportProxy hc)),
            {| proxyRotator := None; userAgent := userAgent hc;
               transportProxy := transportProxy hc; sent := S (sent hc) |})
  | Some pr =>
      match ProxyRotator_Next pr with
      | None => None
      | Some (proxy, pr') =>
          let transport :=
            if negb (String.eqb proxy "") && url_Parse_ok W proxy
            then Some proxy else transportProxy hc in
          Some (http_Do W (sent hc) (mkRequest baseURL params transport),
                {| proxyRotator := Some pr'; userAgent := userAgent hc;
                   transportProxy := transport; sent := S (sent hc) |})
      end
  end.

(** [MarkdownConverter] and [PlainConverter] of utils.go. *)
Definition MarkdownConverter (html : string) : string :=
  if String.eqb html "" then ""
  else match md_ConvertString W html with
       | inr _ => html
       | inl markdown => strings.TrimSpace markdown
       end.

(** The pattern [\s+] of [PlainConverter]. *)
Definition blanks : regexp.Regexp := regexp.Plus (regexp.Class regexp.perlSpace).

Definition PlainConverter (html : string) : string :=
  if String.eqb html "" then ""
  else match goquery_Text W html with
       | inr _ => html
       | inl text => strings.TrimSpace (regexp.ReplaceAllString blanks text " ")
       end.

End Adapter.

(** *** Normalisation of one card *)

Module postalRegexp.
Import regexp strings.

(** [\s+\d+.*]. *)
Definition pattern : Regexp :=
  Seq (Plus (Class perlSpace)) (Seq (Plus (Class isDigit)) (Star (Class notNewline))).
End postalRegexp.

Definition parseLocation (locationText : string) (country : option Country)
  : option Location :=
  if String.eqb locationText "" then None
  else
    let parts := strings.Split locationText "," in
    let city :=
      match parts with
      | p0 :: _ => Some (strings.TrimSpace p0)
      | [] => None
      end in
    let state :=
      match parts with
      | _ :: p1 :: _ =>
          Some (regexp.ReplaceAllString postalRegexp.pattern (strings.TrimSpace p1) "")
      | _ => None
      end in
    Some {| City := city; State := state; Country_ := country |}.

Module salaryRegexp.
Import regexp strings.

Definition amountByte (c : ascii) : bool := isDigit c || Ascii.eqb c ",".

(** [\$?([\d,]+(?:\.\d{2})?)]. *)
Definition pattern : Regexp :=
  Seq (Opt (Byte "$"))
      (Group (Seq (Plus (Class amountByte))
                  (Opt (Seq (Byte ".") (Seq (Class isDigit) (Class isDigit)))))).
End salaryRegexp.

(** The body of the loop over the matches in [parseSalary]. *)
Definition addAmount (amounts : list Q) (match_ : list string) : list Q :=
  match match_ with
  | _ :: group1 :: _ =>          (* len(match) > 1 *)
      let amountStr := strings.removeByte "," group1 in
      match strconv.ParseFloat amountStr with
      | Some amount => (amounts ++ [amount])%list
      | None => amounts
      end
  | _ => amounts
  end.

Definition parseSalary (salaryText : string) : option Compensation :=
  if String.eqb salaryText "" then None
  else
    let matches := regexp.FindAllStringSubmatch salaryRegexp.pattern salaryText in
    if Nat.eqb (length matches) 0 then None
    else
      let amounts := fold_left addAmount matches [] in
      let '(minAmount, maxAmount) :=
        match amounts with
        | [a] => (Some a, Some a)
        | a :: b :: _ => (Some a, Some b)
        | [] => (None, None)
        end in
      let salaryLower := strings.ToLower salaryText in
      let interval :=
        if strings.Contains salaryLower "year" || strings.Contains salaryLower "annual"
        then Some IntervalYearly
        else if strings.Contains salaryLower "hour" then Some IntervalHourly
        else if strings.Contains salaryLower "month" then Some IntervalMonthly
        else None in
      Some {| Interval := interval; MinAmount := minAmount;
              MaxAmount := maxAmount; Currency := Some "USD" |}.

Definition isJobRemote (description location : string) : bool :=
  let combined := strings.ToLower (description ++ " " ++ location) in
  existsb (fun keyword => strings.Contains combined keyword)
    ["remote"; "work from home"; "wfh"; "telecommute"; "virtual"].

Definition extractJobType (description : string) : option (list JobType) :=
  let description := strings.ToLower description in
  let jobTypes : option (list JobType) := None in
  let jobTypes :=
    if strings.Contains description "full-time" || strings.Contains description "fulltime"
    then goAppend jobTypes JobTypeFullTime else jobTypes in
  let jobTypes :=
    if strings.Contains description "part-time" || strings.Contains description "parttime"
    then goAppend jobTypes JobTypePartTime else jobTypes in
  let jobTypes :=
    if strings.Contains description "contract"
    then goAppend jobTypes JobTypeContract else jobTypes in
  let jobTypes :=
    if strings.Contains description "intern"
    then goAppend jobTypes JobTypeInternship else jobTypes in
  let jobTypes :=
    if strings.Contains description "temporary"
    then goAppend jobTypes JobTypeTemporary else jobTypes in
  jobTypes.

Definition getCountryDomain (country : option Country) : string * string :=
  match country with
  | None => ("www", "us")
  | Some c =>
      if String.eqb c CountryUSA then ("www", "us")
      else if String.eqb c CountryCanada then ("ca", "ca")
      else if String.eqb c CountryUK then ("uk", "gb")
      else if String.eqb c CountryGermany then ("de", "de")
      else if String.eqb c CountryFrance then ("fr", "fr")
      else ("www", "us")
  end.

Section Indeed.
Context (W : World).

Definition parseJobCard (s : Card) (baseURL : string) (input : ScraperInput)
  : option JobPost :=
  match data_jk s with
  | None => None
  | Some jobKey =>
      let titleText := match titleSpan s with Some t => t | None => titleLink s end in
      let title := strings.TrimSpace titleText in
      if String.eqb title "" then None
      else
        let companyName := strings.TrimSpace (companyNameText s) in
        let locationText :=
          strings.TrimSpace
            (match jobLocation s with Some t => t | None => companyLocation s end) in
        let location := parseLocation locationText (Country_in input) in
        let jobURL := baseURL ++ "/viewjob?jk=" ++ jobKey in
        let compensation :=
          match salarySnippet s with
          | Some salaryText => parseSalary salaryText
          | None => None
          end in
        let description := strings.TrimSpace (summary s) in
        let description :=
          match DescriptionFormat_in input with
          | Some FormatMarkdown => MarkdownConverter W description
          | Some FormatPlain => PlainConverter W description
          | _ => description
          end in
        let isRemote := isJobRemote description locationText in
        let emails := ExtractEmailsFromText description in
        let jobTypes := extractJobType description in
        Some {| ID := Some jobKey; Title := title; CompanyName := Some companyName;
                JobURL := jobURL; Location_ := location;
                Description := Some description; JobType_ := jobTypes;
                Compensation_ := compensation; Emails := emails;
                IsRemote := Some isRemote |}
  end.

Record IndeedScraper := mkIndeedScraper {
  site : Site;                      (* BaseScraper *)
  httpClient : HTTPClient;
  baseURL : string;
  apiURL : string;
  apiCountryCode : string;
  jobsPerPage : Z;
  seenURLs : gmap string bool
}.

Definition NewIndeedScraper (proxies : list string) (userAgent : string) : IndeedScraper :=
  {| site := SiteIndeed;
     httpClient := NewHTTPClient proxies userAgent;
     baseURL := "https://www.indeed.com";
     apiURL := "https://apis.indeed.com/graphql";
     apiCountryCode := "";
     jobsPerPage := 100;
     seenURLs := ∅ |}.

Definition withClient (sc : IndeedScraper) (hc : HTTPClient) : IndeedScraper :=
  {| site := site sc; httpClient := hc; baseURL := baseURL sc; apiURL := apiURL sc;
     apiCountryCode := apiCountryCode sc; jobsPerPage := jobsPerPage sc;
     seenURLs := seenURLs sc |}.

Definition withSeen (sc : IndeedScraper) (seen : gmap string bool) : IndeedScraper :=
  {| site := site sc; httpClient := httpClient sc; baseURL := baseURL sc;
     apiURL := apiURL sc; apiCountryCode := apiCountryCode sc;
     jobsPerPage := jobsPerPage sc; seenURLs := seen |}.

(** [is.seenURLs[jobURL]]: a key that is not in the map reads [false]. *)
Definition seen (m : gmap string bool) (jobURL : string) : bool :=
  default false (m !! jobURL).

(** The body of the [Each] callback of [scrapePage], on one card. *)
Definition visitCard (baseURL : string) (input : ScraperInput)
    (acc : gmap string bool * list JobPost) (s : Card)
  : gmap string bool * list JobPost :=
  match parseJobCard s baseURL input with
  | Some job =>
      let jobURL := JobURL job in
      if negb (seen acc.1 jobURL)
      then (<[jobURL := true]> acc.1, (acc.2 ++ [job])%list)
      else acc
  | None => acc
  end.

Definition dedupCards (baseURL : string) (input : ScraperInput)
    (seenURLs : gmap string bool) (cards : list Card)
  : gmap string bool * list JobPost :=
  fold_left (visitCard baseURL input) cards (seenURLs, []).

Definition searchParams (input : ScraperInput) (cursor : string)
  : list (string * string) :=
  let params : list (string * string) := [] in
  let params := match SearchTerm input with
                | Some q => (params ++ [("q", q)])%list | None => params end in
  let params := match Location_in input with
                | Some l => (params ++ [("l", l)])%list | None => params end in
  let params := match Distance input with
                | Some d => (params ++ [("radius", Itoa d)])%list | None => params end in
  let params := if IsRemote_in input
                then (params ++ [("remotejob", "1")])%list else params in
  let params := if negb (String.eqb cursor "")
                then (params ++ [("start", cursor)])%list else params in
  params.

(** What [scrapePage] returns: the three results of the Go function, and
    the adapter after the call. *)
Record PageResult := mkPageResult {
  jobs : list JobPost;
  nextCursor : string;
  err : option error;
  after : IndeedScraper
}.

(** [scrapePage]; [None] when the request panics. *)
Definition scrapePage (sc : IndeedScraper) (input : ScraperInput)
    (cursor : string) (baseURL : string) : option PageResult :=
  match HTTPClient_Get W (httpClient sc) baseURL (searchParams input cursor) with
  | None => None
  | Some (resp, hc) =>
      let sc := withClient sc hc in
      Some
        match resp with
        | RequestFailed e => mkPageResult [] "" (Some ("error making request: " ++ e)) sc
        | Response StatusCode body =>
            if negb (StatusCode =? 200)
            then mkPageResult [] "" (Some ("unexpected status code: " ++ Itoa StatusCode)) sc
            else
              match body with
              | Unreadable e => mkPageResult [] "" (Some ("error parsing HTML: " ++ e)) sc
              | Parsed doc =>
                  let '(seenURLs, jobs) :=
                    dedupCards baseURL input (seenURLs sc) (cards doc) in
                  let nextCursor :=
                    match nextLink doc with
                    | NextStart start => start
                    | _ => ""
                    end in
                  mkPageResult jobs nextCursor None (withSeen sc seenURLs)
              end
        end
  end.

(** *** The pagination walk of [Scrape], one turn of the [for] loop at
    a time *)

Record Walk := mkWalk {
  scraper : IndeedScraper;
  allJobs : list JobPost;
  page : Z;
  cursor : string
}.

Inductive Turn :=
  | Again (w : Walk)          (* the body ran to its end, the condition is tested again *)
  | Left (w : Walk)           (* the condition was false, or a [break] *)
  | Failed (e : error) (sc : IndeedScraper)   (* [return nil, err] *)
  | Crashed.                  (* panic *)

Definition wanted (input : ScraperInput) : Z :=
  wrap64 (ResultsWanted input + Offset input).

Definition turn (input : ScraperInput) (baseURL : string) (w : Walk) : Turn :=
  if Z.of_nat (length (allJobs w)) <? wanted input then
    match scrapePage (scraper w) input (cursor w) baseURL with
    | None => Crashed
    | Some r =>
        match err r with
        | Some e =>
            Failed ("error scraping page " ++ Itoa (page w) ++ ": " ++ e) (after r)
        | None =>
            if Nat.eqb (length (jobs r)) 0
            then Left (mkWalk (after r) (allJobs w) (page w) (cursor w))
            else
              let w' := mkWalk (after r) (allJobs w ++ jobs r)%list
                               (wrap64 (page w + 1)) (nextCursor r) in
              if String.eqb (nextCursor r) "" then Left w' else Again w'
        end
    end
  else Left w.

(** The loop, for at most [fuel] turns; [None] when they do not suffice. *)
Fixpoint walk (fuel : nat) (input : ScraperInput) (baseURL : string) (w : Walk)
  : option Turn :=
  match fuel with
  | O => None
  | S fuel' =>
      match turn input baseURL w with
      | Again w' => walk fuel' input baseURL w'
      | t => Some t
      end
  end.

(** What a call of an adapter's [Scrape] comes to. *)
Inductive Exit :=
  | Returns (r : JobResponse + error)
  | Panics.

(** The offset and limit applied after the loop. *)
Definition window (allJobs : list JobPost) (input : ScraperInput)
  : option (list JobPost) :=
  let start := Offset input in
  let end_ := wrap64 (Offset input + ResultsWanted input) in
  let len := Z.of_nat (length allJobs) in
  let start := if start >? len then len else start in
  let end_ := if end_ >? len then len else end_ in
  goSlice allJobs start end_.

(** The first lines of [Scrape]: the country settings and the state in
    which the loop is entered. *)
Definition baseURLOf (input : ScraperInput) : string :=
  "https://" ++ (getCountryDomain (Country_in input)).1 ++ ".indeed.com".

Definition enterWalk (sc : IndeedScraper) (input : ScraperInput) : Walk :=
  let sc := {| site := site sc; httpClient := httpClient sc; baseURL := baseURL sc;
               apiURL := apiURL sc;
               apiCountryCode := (getCountryDomain (Country_in input)).2;
               jobsPerPage := jobsPerPage sc; seenURLs := seenURLs sc |} in
  mkWalk sc [] 1 "".

(** The last lines of [Scrape], from the state in which the loop was
    left. *)
Definition leaveWalk (input : ScraperInput) (w : Walk) : Exit * IndeedScraper :=
  match window (allJobs w) input with
  | None => (Panics, scraper w)
  | Some js => (Returns (inl {| Jobs := js |}), scraper w)
  end.

(** [(is *IndeedScraper) Scrape], given enough turns; [None] when the
    loop has not ended within [fuel] turns. *)
Definition Scrape_within (fuel : nat) (sc : IndeedScraper) (input : ScraperInput)
  : option (Exit * IndeedScraper) :=
  match walk fuel input (baseURLOf input) (enterWalk sc input) with
  | None | Some (Again _) => None
  | Some Crashed => Some (Panics, scraper (enterWalk sc input))
  | Some (Failed e sc') => Some (Returns (inr e), sc')
  | Some (Left w) => Some (leaveWalk input w)
  end.

(** One turn more than the postings asked for always suffices (see
    [walk_ends]). *)
Definition enoughTurns (input : ScraperInput) : nat :=
  S (Z.to_nat (wanted input)).

Definition IndeedScraper_Scrape (sc : IndeedScraper) (input : ScraperInput)
  : option (Exit * IndeedScraper) :=
  Scrape_within (enoughTurns input) sc input.

End Indeed.

(** ** The orchestrator: [Scraper], [ScrapeJobs], [parseSites] *)

(** The interface [Scraper].  A call of [Scrape] comes back with a
    result or panics; the adapter may have changed. *)
Class Scraper (T : Type) := {
  Scrape : T -> ScraperInput -> Exit * T;
  GetSite : T -> Site
}.

(** The loop of the Indeed adapter always ends within [enoughTurns]
    (lemma [Scrape_total] below), the last branch is never taken. *)
#[export] Instance IndeedScraper_Scraper (W : World) : Scraper IndeedScraper := {
  Scrape sc input :=
    match IndeedScraper_Scrape W sc input with
    | Some r => r
    | None => (Panics, sc)
    end;
  GetSite sc := site sc
}.

(** A value of interface type: an adapter with its methods. *)
Record ScraperValue := mkScraperValue {
  impl : Type;
  impl_Scraper : Scraper impl;
  self : impl
}.

Definition ScraperValue_Scrape (s : ScraperValue) (input : ScraperInput) : Exit :=
  (@Scrape _ (impl_Scraper s) (self s) input).1.

Definition ScraperValue_GetSite (s : ScraperValue) : Site :=
  @GetSite _ (impl_Scraper s) (self s).

(** The dynamic types that [parseSites] tells apart in its
    [interface{}] argument. *)
Inductive SiteNameArg :=
  | SiteNameNil
  | SiteNameString (v : string)
  | SiteNameStrings (v : list string)
  | SiteNameSite (v : Site)
  | SiteNameSites (v : list Site)
  | SiteNameOther (typeName : string).

Module ScrapeJobsInput.
Record t := mk {
  SiteName : SiteNameArg;
  SearchTerm : option string;
  GoogleSearchTerm : option string;
  Location : option string;
  Distance : option Z;
  IsRemote : bool;
  JobType : option string;
  EasyApply : option bool;
  ResultsWanted : option Z;
  CountryIndeed : string;
  Proxies : list string;
  CaCert : option string;
  DescriptionFormat : option string;
  LinkedInFetchDescription : option bool;
  LinkedInCompanyIDs : list Z;
  Offset : option Z;
  HoursOld : option Z;
  EnforceAnnualSalary : bool;
  Verbose : Z;
  UserAgent : option string
}.
End ScrapeJobsInput.

Fixpoint mapSites (v : list string) (sites : list Site) : list Site + error :=
  match v with
  | [] => inl sites
  | s :: rest =>
      match MapStringToSite s with
      | inr e => inr e
      | inl site => mapSites rest (sites ++ [site])%list
      end
  end.

Definition parseSites (siteNames : SiteNameArg) : list Site + error :=
  match siteNames with
  | SiteNameNil => inl [SiteIndeed; SiteLinkedIn; SiteGlassdoor; SiteGoogle]
  | SiteNameString v =>
      match MapStringToSite v with
      | inr e => inr e
      | inl site => inl [site]
      end
  | SiteNameStrings v => mapSites v []
  | SiteNameSite v => inl [v]
  | SiteNameSites v => inl v
  | SiteNameOther typeName => inr ("unsupported site name type: " ++ typeName)
  end.

Definition getValue {T} (zero : T) (ptr : option T) : T :=
  match ptr with
  | None => zero
  | Some v => v
  end.

(** The defaults and the [ScraperInput] built from the caller's input. *)
Definition scraperInputOf (input : ScrapeJobsInput.t) (sites : list Site) : ScraperInput :=
  let ResultsWanted := getValue 15 (ScrapeJobsInput.ResultsWanted input) in
  let Offset := getValue 0 (ScrapeJobsInput.Offset input) in
  let LinkedInFetchDescription :=
    getValue false (ScrapeJobsInput.LinkedInFetchDescription input) in
  {| SiteType := sites;
     SearchTerm := ScrapeJobsInput.SearchTerm input;
     GoogleSearchTerm := ScrapeJobsInput.GoogleSearchTerm input;
     Location_in := ScrapeJobsInput.Location input;
     Country_in := CountryFromString (ScrapeJobsInput.CountryIndeed input);
     Distance := ScrapeJobsInput.Distance input;
     IsRemote_in := ScrapeJobsInput.IsRemote input;
     JobType_in := JobTypeFromString (getValue "" (ScrapeJobsInput.JobType input));
     EasyApply := ScrapeJobsInput.EasyApply input;
     Offset := Offset;
     LinkedInFetchDescription := LinkedInFetchDescription;
     LinkedInCompanyIDs := ScrapeJobsInput.LinkedInCompanyIDs input;
     DescriptionFormat_in :=
       match ScrapeJobsInput.DescriptionFormat input with
       | Some f =>
           if String.eqb f "markdown" then Some FormatMarkdown
           else if String.eqb f "html" then Some FormatHTML
           else if String.eqb f "plain" then Some FormatPlain
           else None
       | None => None
       end;
     RequestTimeout := 60;
     ResultsWanted := ResultsWanted;
     HoursOld := ScrapeJobsInput.HoursOld input |}.

(** The map literal [scrapers] of [ScrapeJobs]. *)
Definition scrapersOf (W : World) (input : ScrapeJobsInput.t) : gmap string ScraperValue :=
  {[ SiteIndeed :=
       mkScraperValue IndeedScraper (IndeedScraper_Scraper W)
         (NewIndeedScraper (ScrapeJobsInput.Proxies input)
                           (getValue "" (ScrapeJobsInput.UserAgent input))) ]}.

(** The [for] loop over the sites: the adapters for which a goroutine
    is started, in the order of the sites, and the warnings written for
    the sites without an adapter. *)
Definition launch (scrapers : gmap string ScraperValue) (sites : list Site)
  : list ScraperValue * list LogRecord :=
  fold_left
    (fun acc site =>
       match scrapers !! site with
       | None =>
           (acc.1,
            (acc.2 ++ [mkLogRecord LevelWarn "Scraper not implemented for site"
                                   [("site", site)]])%list)
       | Some scraper => ((acc.1 ++ [scraper])%list, acc.2)
       end)
    sites ([], []).

(** The goroutines end in an order that the program does not choose.  A
    schedule chooses it: its head picks, among the goroutines still
    running, the one that ends next (an index, taken modulo their
    number; an exhausted schedule picks the first). *)
Fixpoint finishOrder {A} (n : nat) (sched : list nat) (running : list A) : list A :=
  match n with
  | O => []
  | S n' =>
      let i := (hd 0%nat sched mod length running)%nat in
      match running !! i with
      | None => []
      | Some t => t :: finishOrder n' (tl sched) (delete i running)
      end
  end.

(** What one goroutine does: the call, its log records, and what it
    sends on [resultsChan] or [errorsChan]. *)
Record Finished := mkFinished {
  exit : Exit;
  records : list LogRecord
}.

Definition goroutine (scraperInput : ScraperInput) (s : ScraperValue) : Finished :=
  let starting :=
    mkLogRecord LevelInfo "Starting scrape" [("site", ScraperValue_GetSite s)] in
  match ScraperValue_Scrape s scraperInput with
  | Returns (inr e) =>
      mkFinished (Returns (inr e))
        [starting;
         mkLogRecord LevelError "Scrape failed"
           [("site", ScraperValue_GetSite s); ("error", e)]]
  | Returns (inl result) =>
      mkFinished (Returns (inl result))
        [starting;
         mkLogRecord LevelInfo "Scrape completed"
           [("site", ScraperValue_GetSite s);
            ("jobs_found", Itoa (Z.of_nat (length (Jobs result))))]]
  | Panics => mkFinished Panics [starting]
  end.

(** The two channels after [wg.Wait()], in the order of the sends. *)
Definition resultsChan (done : list Finished) : list JobResponse :=
  omap (fun f => match exit f with Returns (inl r) => Some r | _ => None end) done.

Definition errorsChan (done : list Finished) : list error :=
  omap (fun f => match exit f with Returns (inr e) => Some e | _ => None end) done.

Definition panicked (done : list Finished) : bool :=
  existsb (fun f => match exit f with Panics => true | _ => false end) done.

(** What the caller of [ScrapeJobs] gets: the two results of the Go
    function, unless a goroutine has panicked (nothing recovers it, the
    process ends), or two goroutines have run one adapter: they read
    and write its fields (the map of seen URLs, the rotator) with no
    synchronisation, a data race, for which Go promises no result. *)
Inductive Outcome :=
  | Crash
  | DataRace
  | Return (response : option JobResponse) (err : option error).

Record Run := mkRun {
  outcome : Outcome;
  log : list LogRecord      (* as written by [ScrapeJobs] and its goroutines *)
}.

(** The sites for which the launch loop starts a goroutine, and whether
    two of these goroutines get the same adapter: a site that has an
    adapter and is named twice. *)
Definition startedSites (scrapers : gmap string ScraperValue) (sites : list Site)
  : list Site :=
  List.filter (fun site => bool_decide (is_Some (scrapers !! site))) sites.

Definition sharedAdapter (scrapers : gmap string ScraperValue) (sites : list Site)
  : bool :=
  negb (bool_decide (NoDup (startedSites scrapers sites))).

(** The goroutines that have ended, in the order they ended.  Each
    call is run on the adapter as the map holds it: the adapters of
    different sites share nothing. *)
Definition doneOf (scraperInput : ScraperInput) (started : list ScraperValue)
    (sched : list nat) : list Finished :=
  finishOrder (length started) sched (map (goroutine scraperInput) started).

(** From [wg.Wait()] to the [return].  The log lists the records of the
    launch loop, then those of the goroutines, one goroutine after the
    other in the order they ended, then those of the last loop. *)
Definition join (floor : Level) (warnings : list LogRecord) (done : list Finished) : Run :=
  let during := (warnings ++ concat (map records done))%list in
  if panicked done then mkRun Crash (emitted floor during)
  else
    let allJobs := concat (map Jobs (resultsChan done)) in
    let errors :=
      map (fun e => mkLogRecord LevelError "Scraping error" [("error", e)])
          (errorsChan done) in
    mkRun (Return (Some {| Jobs := allJobs |}) None)
          (emitted floor (during ++ errors)%list).

(** [ScrapeJobs] over a given way of building the map of adapters. *)
Definition ScrapeJobs_over (scrapersOf : ScrapeJobsInput.t -> gmap string ScraperValue)
    (input : ScrapeJobsInput.t) (sched : list nat) : Run :=
  let floor := SetLogLevel (ScrapeJobsInput.Verbose input) in
  match parseSites (ScrapeJobsInput.SiteName input) with
  | inr e => mkRun (Return None (Some ("error parsing sites: " ++ e))) []
  | inl sites =>
      let scraperInput := scraperInputOf input sites in
      let scrapers := scrapersOf input in
      if sharedAdapter scrapers sites then mkRun DataRace []
      else
        let launched := launch scrapers sites in
        join floor launched.2 (doneOf scraperInput launched.1 sched)
  end.

Definition ScrapeJobs (W : World) : ScrapeJobsInput.t -> list nat -> Run :=
  ScrapeJobs_over (scrapersOf W).

(** ** The command-line front end (package [main]) *)

Module main.

(** The flags of the command line that [main] hands on to
    [ScrapeJobs]; [-format] and [-output] concern the printing only. *)
Record Flags := mkFlags {
  sites : string;
  searchTerm : string;
  location : string;
  distance : Z;
  isRemote : bool;
  jobType : string;
  resultsWanted : Z;
  country : string;
  verbose : Z;
  userAgent : string;
  descFormat : string
}.

(** [stringPtr] of the front end: nil for the empty string. *)
Definition stringPtr (s : string) : option string :=
  if String.eqb s "" then None else Some s.

Definition intPtr (i : Z) : option Z := Some i.

(** The first lines of [main]: the flag [-sites] cut at the commas,
    each piece trimmed. *)
Definition siteList (sites : string) : list string :=
  map strings.TrimSpace (strings.Split sites ",").

(** The input that [main] builds; the fields that it does not name
    have their zero values. *)
Definition input (f : Flags) : ScrapeJobsInput.t :=
  {| ScrapeJobsInput.SiteName := SiteNameStrings (siteList (sites f));
     ScrapeJobsInput.SearchTerm := stringPtr (searchTerm f);
     ScrapeJobsInput.GoogleSearchTerm := None;
     ScrapeJobsInput.Location := stringPtr (location f);
     ScrapeJobsInput.Distance := intPtr (distance f);
     ScrapeJobsInput.IsRemote := isRemote f;
     ScrapeJobsInput.JobType := stringPtr (jobType f);
     ScrapeJobsInput.EasyApply := None;
     ScrapeJobsInput.ResultsWanted := intPtr (resultsWanted f);
     ScrapeJobsInput.CountryIndeed := country f;
     ScrapeJobsInput.Proxies := [];
     ScrapeJobsInput.CaCert := None;
     ScrapeJobsInput.DescriptionFormat := stringPtr (descFormat f);
     ScrapeJobsInput.LinkedInFetchDescription := None;
     ScrapeJobsInput.LinkedInCompanyIDs := [];
     ScrapeJobsInput.Offset := None;
     ScrapeJobsInput.HoursOld := None;
     ScrapeJobsInput.EnforceAnnualSalary := false;
     ScrapeJobsInput.Verbose := verbose f;
     ScrapeJobsInput.UserAgent := stringPtr (userAgent f) |}.

End main.

(** ** Statements of the design document, as definitions *)

(** The rendering rule for a location, in the words of the document:
    the parts that are present, joined with a comma and a space;
    [upperCased] tells the country tokens that are upper-cased, the
    other ones are title-cased. *)
Definition renderLocation (upperCased : string -> bool) (l : Location) : string :=
  let country :=
    (fun c => if upperCased c then strings.ToUpper c else strings.Title c)
      <$> Country_ l in
  strings.Join (omap id [City l; State l; country]) ", ".

(** ``Upper-cased for two-letter codes''. *)
Definition twoLetterCode (c : string) : bool := Nat.eqb (String.length c) 2.

(** What the code tests instead. *)
Definition usaOrUk (c : string) : bool := String.eqb c "usa" || String.eqb c "uk".

(** A card is known to a set of URLs when it yields no posting, or a
    posting whose URL is in the set. *)
Definition known (W : World) (baseURL : string) (input : ScraperInput)
    (m : gmap string bool) (s : Card) : bool :=
  match parseJobCard W s baseURL input with
  | Some job => seen m (JobURL job)
  | None => true
  end.

(** ``Never present-but-empty distinctly from absent'': a slice that is
    empty is the nil slice. *)
Definition nilWhenEmpty {A} (s : option (list A)) : Prop :=
  s <> Some [].

Definition slicesNilWhenEmpty (job : JobPost) : Prop :=
  nilWhenEmpty (Emails job) /\ nilWhenEmpty (JobType_ job).

(** The markers of the employment types, in the order of the document,
    and the types whose marker occurs in a description. *)
Definition jobTypeMarkers : list (list string * JobType) :=
  [ (["full-time"; "fulltime"], JobTypeFullTime);
    (["part-time"; "parttime"], JobTypePartTime);
    (["contract"], JobTypeContract);
    (["intern"], JobTypeInternship);
    (["temporary"], JobTypeTemporary) ].

Definition markersFound (description : string) : list JobType :=
  map snd
    (List.filter
       (fun m => existsb (strings.Contains (strings.ToLower description)) m.1)
       jobTypeMarkers).

(** The rotator of a client can be read: no proxies, or an index
    within them. *)
Definition rotatorOK (pr : ProxyRotator) : Prop :=
  proxies pr = [] \/ 0 <= current pr < Z.of_nat (length (proxies pr)).

Definition clientOK (hc : HTTPClient) : Prop :=
  match proxyRotator hc with
  | Some pr => rotatorOK pr
  | None => True
  end.

(** The terminal conditions of the pagination walk, in the words of
    the document: (a) the accumulated count has reached
    [resultsWanted + offset], (b) the page yielded no new posting, (c)
    no next cursor could be extracted. *)
Definition countReached (input : ScraperInput) (allJobs : list JobPost) : bool :=
  wanted input <=? Z.of_nat (length allJobs).

Definition pageEmpty (r : PageResult) : bool := Nat.eqb (length (jobs r)) 0.

Definition noNextCursor (r : PageResult) : bool := String.eqb (nextCursor r) "".

Definition isAgain (t : Turn) : bool :=
  match t with Again _ => true | _ => false end.

(** After a turn, is another page requested? *)
Definition requestsAnotherPage (input : ScraperInput) (t : Turn) : bool :=
  match t with
  | Again w' => negb (countReached input (allJobs w'))
  | _ => false
  end.

(** The window [[offset, offset + resultsWanted)] of the document, both
    bounds clamped to the length. *)
Definition windowOf {A} (l : list A) (offset resultsWanted : Z) : list A :=
  firstn (Z.to_nat resultsWanted) (skipn (Z.to_nat offset) l).

(** ** Concrete sources and queries, for the examples *)

Definition exampleCard (jobKey title : string) : Card :=
  {| data_jk := Some jobKey; titleSpan := None; titleLink := title;
     companyNameText := "Acme"; jobLocation := None;
     companyLocation := "Austin, TX 78701";
     salarySnippet := Some "$50,000 - $70,000 a year";
     summary := "Full-time. Write to hr@acme.example" |}.

Definition examplePage : Doc :=
  {| cards := [exampleCard "a1" "Engineer"; exampleCard "b2" "Analyst";
               exampleCard "a1" "Engineer"];
     nextLink := NextStart "10" |}.

Definition noConversion : string -> string + error := fun s => inl s.

(** A source that serves the same page, with the same cursor, to every
    request. *)
Definition repeatingSource : World :=
  {| http_Do := fun _ _ => Response 200 (Parsed examplePage);
     url_Parse_ok := fun _ => true;
     md_ConvertString := noConversion; goquery_Text := noConversion |}.

(** A source that answers every request with status 503. *)
Definition failingSource : World :=
  {| http_Do := fun _ _ => Response 503 (Parsed (mkDoc [] NoNextLink));
     url_Parse_ok := fun _ => true;
     md_ConvertString := noConversion; goquery_Text := noConversion |}.

(** A source whose pages hold no card. *)
Definition emptySource : World :=
  {| http_Do := fun _ _ => Response 200 (Parsed (mkDoc [] NoNextLink));
     url_Parse_ok := fun _ => true;
     md_ConvertString := noConversion; goquery_Text := noConversion |}.

Definition exampleQuery (resultsWanted offset : Z) : ScraperInput :=
  {| SiteType := [SiteIndeed]; SearchTerm := Some "engineer";
     GoogleSearchTerm := None; Location_in := None;
     Country_in := Some CountryUSA; Distance := None; IsRemote_in := false;
     JobType_in := None; EasyApply := None; Offset := offset;
     LinkedInFetchDescription := false; LinkedInCompanyIDs := [];
     DescriptionFormat_in := None; RequestTimeout := 60;
     ResultsWanted := resultsWanted; HoursOld := None |}.

Definition exampleInput (sites : SiteNameArg) (resultsWanted : option Z)
    (proxies : list string) : ScrapeJobsInput.t :=
  {| ScrapeJobsInput.SiteName := sites;
     ScrapeJobsInput.SearchTerm := Some "engineer";
     ScrapeJobsInput.GoogleSearchTerm := None;
     ScrapeJobsInput.Location := None;
     ScrapeJobsInput.Distance := None;
     ScrapeJobsInput.IsRemote := false;
     ScrapeJobsInput.JobType := None;
     ScrapeJobsInput.EasyApply := None;
     ScrapeJobsInput.ResultsWanted := resultsWanted;
     ScrapeJobsInput.CountryIndeed := "usa";
     ScrapeJobsInput.Proxies := proxies;
     ScrapeJobsInput.CaCert := None;
     ScrapeJobsInput.DescriptionFormat := None;
     ScrapeJobsInput.LinkedInFetchDescription := None;
     ScrapeJobsInput.LinkedInCompanyIDs := [];
     ScrapeJobsInput.Offset := None;
     ScrapeJobsInput.HoursOld := None;
     ScrapeJobsInput.EnforceAnnualSalary := false;
     ScrapeJobsInput.Verbose := 0;
     ScrapeJobsInput.UserAgent := None |}.

Definition examplePost (n : nat) : JobPost :=
  {| ID := Some (Itoa (Z.of_nat n)); Title := "Engineer"; CompanyName := None;
     JobURL := "https://www.indeed.com/viewjob?jk=" ++ Itoa (Z.of_nat n);
     Location_ := None; Description := None; JobType_ := None;
     Compensation_ := None; Emails := None; IsRemote := None |}.

Definition examplePosts (n : nat) : list JobPost := map examplePost (seq 0 n).

(** The amounts and the interval of a salary text, in the words of the
    document: the numeric tokens in the order they occur; "year" or
    "annual", then "hour", then "month", whatever the case. *)
Definition tokenValue (match_ : list string) : option Q :=
  match match_ with
  | _ :: group1 :: _ => strconv.ParseFloat (strings.removeByte "," group1)
  | _ => None
  end.

Definition salaryAmounts (salaryText : string) : list Q :=
  omap tokenValue (regexp.FindAllStringSubmatch salaryRegexp.pattern salaryText).

Definition salaryInterval (salaryText : string) : option CompensationInterval :=
  let lower := strings.ToLower salaryText in
  if strings.Contains lower "year" || strings.Contains lower "annual"
  then Some IntervalYearly
  else if strings.Contains lower "hour" then Some IntervalHourly
  else if strings.Contains lower "month" then Some IntervalMonthly
  else None.

(** [k] calls of [Next], one after the other. *)
Fixpoint nextMany (k : nat) (pr : ProxyRotator) : option (list string * ProxyRotator) :=
  match k with
  | O => Some ([], pr)
  | S k' =>
      match ProxyRotator_Next pr with
      | None => None
      | Some (proxy, pr') =>
          match nextMany k' pr' with
          | None => None
          | Some (rest, pr'') => Some (proxy :: rest, pr'')
          end
      end
  end.

(** ``Safe to advance under concurrent use'': two calls of [Next] that
    run together on one rotator give what the two calls give when one
    runs after the other, in one of the two orders. *)
Definition oneAfterTheOther (pr : ProxyRotator) (a b : string) (pr' : ProxyRotator) : Prop :=
  nextMany 2 pr = Some ([a; b], pr') \/ nextMany 2 pr = Some ([b; a], pr').

Definition Next_safe_when_shared : Prop :=
  forall pr sched pr' a b,
    rotatorOK pr ->
    Next_interleave sched pr AtCheck AtCheck = (pr', Returned a, Returned b) ->
    oneAfterTheOther pr a b pr'.

(** The postings that an adapter returns for a query, none when its
    call fails. *)
Definition postingsOf (scraperInput : ScraperInput) (s : ScraperValue) : list JobPost :=
  match ScraperValue_Scrape s scraperInput with
  | Returns (inl result) => Jobs result
  | _ => []
  end.

(** The errors that the adapters of a run have returned, as read from
    [errorsChan]. *)
Definition errorsOf (scrapersOf : ScrapeJobsInput.t -> gmap string ScraperValue)
    (input : ScrapeJobsInput.t) (sched : list nat) : list error :=
  match parseSites (ScrapeJobsInput.SiteName input) with
  | inr _ => []
  | inl sites =>
      errorsChan (doneOf (scraperInputOf input sites)
                         (launch (scrapersOf input) sites).1 sched)
  end.

(** ``Exposed to the caller as a secondary list'': the errors of a run
    can be read off what [ScrapeJobs] returns. *)
Definition errorsExposed : Prop :=
  exists secondary : Outcome -> list error,
    forall W input sched,
      secondary (outcome (ScrapeJobs W input sched)) = errorsOf (scrapersOf W) input sched.

(** The record that the last loop of [ScrapeJobs] writes for an error. *)
Definition scrapingError (e : error) : LogRecord :=
  mkLogRecord LevelError "Scraping error" [("error", e)].

(** An adapter that returns what it holds: a stand-in, in the
    examples, for the adapters of the sites other than Indeed. *)
#[export] Instance Canned_Scraper : Scraper (Site * Exit) := {
  Scrape s _ := (s.2, s);
  GetSite s := s.1
}.

Definition canned (site : Site) (exit : Exit) : ScraperValue :=
  mkScraperValue (Site * Exit) Canned_Scraper (site, exit).

(** The record that the launch loop writes for a site without adapter. *)
Definition notImplemented (site : Site) : LogRecord :=
  mkLogRecord LevelWarn "Scraper not implemented for site" [("site", site)].

(** An adapter call that comes back, with postings or with an error. *)
Definition comesBack (scraperInput : ScraperInput) (s : ScraperValue) : Prop :=
  ScraperValue_Scrape s scraperInput <> Panics.

Definition succeeds (scraperInput : ScraperInput) (s : ScraperValue) : Prop :=
  exists result, ScraperValue_Scrape s scraperInput = Returns (inl result).

Definition fails (scraperInput : ScraperInput) (s : ScraperValue) : Prop :=
  exists e, ScraperValue_Scrape s scraperInput = Returns (inr e).

(** The error of an adapter call that fails. *)
Definition errorOf (scraperInput : ScraperInput) (s : ScraperValue) : option error :=
  match ScraperValue_Scrape s scraperInput with
  | Returns (inr e) => Some e
  | _ => None
  end.

(** Adapters for three of the sites: the Indeed adapter, and two
    stand-ins that hold two postings and one. *)
Definition exampleScrapers (W : World) (input : ScrapeJobsInput.t)
  : gmap string ScraperValue :=
  {[ SiteIndeed :=
       mkScraperValue IndeedScraper (IndeedScraper_Scraper W)
         (NewIndeedScraper (ScrapeJobsInput.Proxies input) "");
     SiteLinkedIn := canned SiteLinkedIn (Returns (inl {| Jobs := examplePosts 2 |}));
     SiteGlassdoor :=
       canned SiteGlassdoor (Returns (inl {| Jobs := [examplePost 7] |})) ]}.

(** A posting that [parseJobCard] has built from some card. *)
Definition fromCard (W : World) (job : JobPost) : Prop :=
  exists s baseURL input, parseJobCard W s baseURL input = Some job.

Definition isScrapingError (r : LogRecord) : bool := String.eqb (msg r) "Scraping error".

(** The turns of the loop of [Scrape], case by case: what a turn in
    state [w] comes to. *)
Inductive TurnCase (W : World) (input : ScraperInput) (baseURL : string) (w : Walk)
  : Turn -> Prop :=
  | TurnReached :
      countReached input (allJobs w) = true ->
      TurnCase W input baseURL w (Left w)
  | TurnCrashed :
      countReached input (allJobs w) = false ->
      scrapePage W (scraper w) input (cursor w) baseURL = None ->
      TurnCase W input baseURL w Crashed
  | TurnFailed r e :
      countReached input (allJobs w) = false ->
      scrapePage W (scraper w) input (cursor w) baseURL = Some r ->
      err r = Some e ->
      TurnCase W input baseURL w
        (Failed ("error scraping page " ++ Itoa (page w) ++ ": " ++ e) (after r))
  | TurnEmptyPage r :
      countReached input (allJobs w) = false ->
      scrapePage W (scraper w) input (cursor w) baseURL = Some r ->
      err r = None -> pageEmpty r = true ->
      TurnCase W input baseURL w
        (Left (mkWalk (after r) (allJobs w) (page w) (cursor w)))
  | TurnLastPage r :
      countReached input (allJobs w) = false ->
      scrapePage W (scraper w) input (cursor w) baseURL = Some r ->
      err r = None -> pageEmpty r = false -> noNextCursor r = true ->
      TurnCase W input baseURL w
        (Left (mkWalk (after r) (allJobs w ++ jobs r)%list
                      (wrap64 (page w + 1)) (nextCursor r)))
  | TurnNextPage r :
      countReached input (allJobs w) = false ->
      scrapePage W (scraper w) input (cursor w) baseURL = Some r ->
      err r = None -> pageEmpty r = false -> noNextCursor r = false ->
      TurnCase W input baseURL w
        (Again (mkWalk (after r) (allJobs w ++ jobs r)%list
                       (wrap64 (page w + 1)) (nextCursor r))).

(** ** Further notions, for the properties of the helpers *)

(** A string of ASCII bytes: on these the functions of the module
    [strings] above are those of Go, byte for byte. *)
Definition isASCII (s : string) : bool :=
  forallb (fun c => Nat.ltb (strings.code c) 128) (list_ascii_of_string s).

(** The schemes that [FormatProxy] looks for. *)
Definition hasScheme (proxy : string) : bool :=
  strings.HasPrefix proxy "http://" || strings.HasPrefix proxy "https://"
  || strings.HasPrefix proxy "socks5://".

(** The sites that have a constant in models.go. *)
Definition allSites : list Site :=
  [SiteLinkedIn; SiteIndeed; SiteZipRecruiter; SiteGlassdoor; SiteGoogle;
   SiteBayt; SiteNaukri; SiteBDJobs].

(** The keywords of [isJobRemote]. *)
Definition remoteKeywords : list string :=
  ["remote"; "work from home"; "wfh"; "telecommute"; "virtual"].

(** The countries that have a constant in models.go, each with what
    [Location.String] renders for it and with the domain and the
    country code that [getCountryDomain] gives it. *)
Definition countryTable : list (Country * string * (string * string)) :=
  [ (CountryUSA, "USA", ("www", "us"));
    (CountryCanada, "Canada", ("ca", "ca"));
    (CountryUK, "UK", ("uk", "gb"));
    (CountryGermany, "Germany", ("de", "de"));
    (CountryFrance, "France", ("fr", "fr")) ].

(** The employment types that [extractJobType] can report, in the
    order of its tests. *)
Definition extractedJobTypes : list JobType :=
  [JobTypeFullTime; JobTypePartTime; JobTypeContract; JobTypeInternship; JobTypeTemporary].

(** The markers that [JobTypeFromString] knows and [extractJobType]
    does not. *)
Definition foreignMarker (s : string) : bool :=
  let s := strings.ToLower s in
  strings.Contains s "períodointegral" || strings.Contains s "teilzeit"
  || strings.Contains s "prácticas".

(** Does the byte [b] occur in [s]? *)
Definition hasByte (b : ascii) (s : string) : bool :=
  existsb (Ascii.eqb b) (list_ascii_of_string s).

(** [k] requests of one client, one after the other: for each one the
    proxy of the transport through which it is sent ([None]: no proxy),
    and the client after the last. *)
Fixpoint getMany (W : World) (k : nat) (hc : HTTPClient) (baseURL : string)
    (params : list (string * string)) : option (list (option string) * HTTPClient) :=
  match k with
  | O => Some ([], hc)
  | S k' =>
      match HTTPClient_Get W hc baseURL params with
      | None => None
      | Some (_, hc') =>
          match getMany W k' hc' baseURL params with
          | None => None
          | Some (rest, hc'') => Some (transportProxy hc' :: rest, hc'')
          end
      end
  end.

(** A proxy that [Get] hands to the transport: not empty, and one that
    [url.Parse] accepts. *)
Definition usableProxy (W : World) (proxy : string) : bool :=
  negb (String.eqb proxy "") && url_Parse_ok W proxy.

(** A source without cards, behind a [url.Parse] that accepts the
    proxies that name a scheme and refuses the other ones (as it
    refuses [10.0.0.1:8080]). *)
Definition schemeSource : World :=
  {| http_Do := fun _ _ => Response 200 (Parsed (mkDoc [] NoNextLink));
     url_Parse_ok := hasScheme;
     md_ConvertString := noConversion; goquery_Text := noConversion |}.

(** What every posting built by [parseJobCard] for [baseURL] and
    [input] has: a title that is trimmed and not empty, the key of the
    card as its id and in its URL, a company name, a description and a
    remote flag that are not nil, the country of the query in its
    location, and dollars as the currency of its compensation. *)
Definition postingOK (baseURL : string) (input : ScraperInput) (job : JobPost) : Prop :=
  Title job <> ""
  /\ strings.TrimSpace (Title job) = Title job
  /\ (exists jobKey,
        ID job = Some jobKey /\ JobURL job = (baseURL ++ "/viewjob?jk=" ++ jobKey)%string)
  /\ is_Some (CompanyName job) /\ is_Some (Description job) /\ is_Some (IsRemote job)
  /\ match Location_ job with
     | Some l => is_Some (City l) /\ Country_ l = Country_in input
     | None => True
     end
  /\ match Compensation_ job with
     | Some c => Currency c = Some "USD"
     | None => True
     end.

(** The base URLs of the five country sites. *)
Definition indeedBaseURLs : list string :=
  ["https://www.indeed.com"; "https://ca.indeed.com"; "https://uk.indeed.com";
   "https://de.indeed.com"; "https://fr.indeed.com"].

(** Postings that are new to an adapter: no two have the same URL,
    none had its URL in the set [before], all have it in the set
    [after], and [after] has kept what [before] held. *)
Definition freshPostings (before after : gmap string bool) (jobs : list JobPost) : Prop :=
  NoDup (map JobURL jobs)
  /\ Forall (fun job => seen before (JobURL job) = false
                        /\ seen after (JobURL job) = true) jobs
  /\ (forall k, seen before k = true -> seen after k = true).

(** The three errors of [scrapePage]. *)
Definition pageErrorCause (cause : error) : Prop :=
  (exists detail, cause = ("error making request: " ++ detail)%string)
  \/ (exists StatusCode,
        StatusCode <> 200
        /\ cause = ("unexpected status code: " ++ Itoa StatusCode)%string)
  \/ (exists detail, cause = ("error parsing HTML: " ++ detail)%string).

(** A source that answers every request with the same document. *)
Definition servesOnly (W : World) (doc : Doc) : Prop :=
  forall n req, http_Do W n req = Response 200 (Parsed doc).

(** The strings that a pattern matches. *)
Inductive Matches : regexp.Regexp -> string -> Prop :=
  | MatchesEmpty : Matches regexp.Empty ""
  | MatchesClass p c : p c = true -> Matches (regexp.Class p) (String c "")
  | MatchesSeq r1 r2 s1 s2 :
      Matches r1 s1 -> Matches r2 s2 -> Matches (regexp.Seq r1 r2) (s1 ++ s2)
  | MatchesAltL r1 r2 s : Matches r1 s -> Matches (regexp.Alt r1 r2) s
  | MatchesAltR r1 r2 s : Matches r2 s -> Matches (regexp.Alt r1 r2) s
  | MatchesStarNil r : Matches (regexp.Star r) ""
  | MatchesStarCons r s1 s2 :
      Matches r s1 -> Matches (regexp.Star r) s2 -> Matches (regexp.Star r) (s1 ++ s2)
  | MatchesGroup r s : Matches r s -> Matches (regexp.Group r) s.

(** All the bytes of [s] are in the class [p]. *)
Definition allBytes (p : ascii -> bool) (s : string) : bool :=
  forallb p (list_ascii_of_string s).

(** The form of an address that the pattern of [ExtractEmailsFromText]
    matches: a local part, [@], a domain, a dot and at least two
    letters. *)
Definition emailShape (email : string) : Prop :=
  exists localPart domain tld,
    email = (localPart ++ "@" ++ domain ++ "." ++ tld)%string
    /\ localPart <> "" /\ allBytes emailRegexp.localByte localPart = true
    /\ domain <> "" /\ allBytes emailRegexp.domainByte domain = true
    /\ (2 <= String.length tld)%nat /\ allBytes strings.isLetter tld = true.

(** Some byte of [s] is in the class [p]. *)
Definition anyByte (p : ascii -> bool) (s : string) : bool :=
  existsb p (list_ascii_of_string s).

(** Blanks as [PlainConverter] leaves them: every byte of the class
    [\s] is a space, and no two such bytes are neighbours.
    [afterBlank] tells that the byte before the string is one. *)
Fixpoint singleBlanks (afterBlank : bool) (s : string) : bool :=
  match s with
  | EmptyString => true
  | String c r =>
      if regexp.perlSpace c
      then Ascii.eqb c " " && negb afterBlank && singleBlanks true r
      else singleBlanks false r
  end.

(** A text in which every run of blanks has become one space; the run
    at the head of the string is dropped when [afterBlank] tells that
    its space is there already. *)
Fixpoint collapseBlanks (afterBlank : bool) (s : string) : string :=
  match s with
  | EmptyString => EmptyString
  | String c r =>
      if regexp.perlSpace c
      then if afterBlank then collapseBlanks true r
           else String " " (collapseBlanks true r)
      else String c (collapseBlanks false r)
  end.

(** The length of the run of blanks at the head of a string. *)
Fixpoint leadingBlanks (s : string) : nat :=
  match s with
  | String c r => if regexp.perlSpace c then S (leadingBlanks r) else 0
  | EmptyString => 0
  end.

(** A parameter of the query string, sent when its value is there. *)
Definition paramIf (present : bool) (key value : string) : list (string * string) :=
  if present then [(key, value)] else [].

(** The input of a run, at another verbosity. *)
Definition withVerbose (input : ScrapeJobsInput.t) (verbose : Z) : ScrapeJobsInput.t :=
  {| ScrapeJobsInput.SiteName := ScrapeJobsInput.SiteName input;
     ScrapeJobsInput.SearchTerm := ScrapeJobsInput.SearchTerm input;
     ScrapeJobsInput.GoogleSearchTerm := ScrapeJobsInput.GoogleSearchTerm input;
     ScrapeJobsInput.Location := ScrapeJobsInput.Location input;
     ScrapeJobsInput.Distance := ScrapeJobsInput.Distance input;
     ScrapeJobsInput.IsRemote := ScrapeJobsInput.IsRemote input;
     ScrapeJobsInput.JobType := ScrapeJobsInput.JobType input;
     ScrapeJobsInput.EasyApply := ScrapeJobsInput.EasyApply input;
     ScrapeJobsInput.ResultsWanted := ScrapeJobsInput.ResultsWanted input;
     ScrapeJobsInput.CountryIndeed := ScrapeJobsInput.CountryIndeed input;
     ScrapeJobsInput.Proxies := ScrapeJobsInput.Proxies input;
     ScrapeJobsInput.CaCert := ScrapeJobsInput.CaCert input;
     ScrapeJobsInput.DescriptionFormat := ScrapeJobsInput.DescriptionFormat input;
     ScrapeJobsInput.LinkedInFetchDescription :=
       ScrapeJobsInput.LinkedInFetchDescription input;
     ScrapeJobsInput.LinkedInCompanyIDs := ScrapeJobsInput.LinkedInCompanyIDs input;
     ScrapeJobsInput.Offset := ScrapeJobsInput.Offset input;
     ScrapeJobsInput.HoursOld := ScrapeJobsInput.HoursOld input;
     ScrapeJobsInput.EnforceAnnualSalary := ScrapeJobsInput.EnforceAnnualSalary input;
     ScrapeJobsInput.Verbose := verbose;
     ScrapeJobsInput.UserAgent := ScrapeJobsInput.UserAgent input |}.

Definition isError (r : LogRecord) : bool :=
  match level r with LevelError => true | _ => false end.

Definition isInfo (r : LogRecord) : bool :=
  match level r with LevelInfo => true | _ => false end.

(** The postings of the cards of a page, in the order of the cards;
    a card without key or without title yields none. *)
Definition cardPostings (W : World) (baseURL : string) (input : ScraperInput)
    (cards : list Card) : list JobPost :=
  omap (fun s => parseJobCard W s baseURL input) cards.

(** Of postings that share a URL, the first: [earlier] lists the URLs
    that have come before. *)
Fixpoint firstByURL (earlier : list string) (jobs : list JobPost) : list JobPost :=
  match jobs with
  | [] => []
  | job :: rest =>
      if bool_decide (JobURL job ∈ earlier) then firstByURL earlier rest
      else job :: firstByURL (JobURL job :: earlier) rest
  end.

(** A value of Go's [int]. *)
Definition isInt (z : Z) : Prop := - 2 ^ 63 <= z < 2 ^ 63.

(** * Properties *)

(** ** Location rendering *)

Lemma Location_String_render (l : Location) :
  Location_String l = renderLocation usaOrUk l.
Proof.
  destruct l as [[city|] [state|] [country|]]; reflexivity.
Qed.

(** The five countries that [CountryFromString] can produce. *)
Lemma Location_String_countries :
  map (fun c => Location_String (mkLocation None None (Some c)))
      [CountryUSA; CountryCanada; CountryUK; CountryGermany; CountryFrance]
  = ["USA"; "Canada"; "UK"; "Germany"; "France"].
Proof. reflexivity. Qed.

(** C6, as the document states it, fails: the token "usa" has three
    letters, the two-letter rule would title-case it, the code
    upper-cases it. *)
Lemma Location_String_not_two_letter_rule :
  Location_String (mkLocation (Some "San Francisco") (Some "CA") (Some CountryUSA))
    = "San Francisco, CA, USA"
  /\ renderLocation twoLetterCode
       (mkLocation (Some "San Francisco") (Some "CA") (Some CountryUSA))
    = "San Francisco, CA, Usa"
  /\ Location_String (mkLocation None None (Some "de")) = "De"
  /\ renderLocation twoLetterCode (mkLocation None None (Some "de")) = "DE"
  /\ ~ (forall l, Location_String l = renderLocation twoLetterCode l).
Proof.
  repeat split; try reflexivity.
  intros H.
  specialize (H (mkLocation None None (Some CountryUSA))).
  vm_compute in H. discriminate H.
Qed.

(** C6, amended: [Location.String] joins the parts that are present
    (city, state, country, in that order) with a comma and a space; the
    country token is upper-cased when it is "usa" or "uk" and
    title-cased otherwise.  The four renderings of the document hold,
    the absent location being rendered by the caller's guard. *)
Theorem Location_String_rule :
  (forall l, Location_String l = renderLocation usaOrUk l)
  /\ Location_String (mkLocation (Some "Boston") None None) = "Boston"
  /\ Location_String (mkLocation (Some "New York") (Some "NY") None) = "New York, NY"
  /\ Location_String (mkLocation (Some "San Francisco") (Some "CA") (Some "usa"))
     = "San Francisco, CA, USA"
  /\ locationString None = ""
  /\ Location_String (mkLocation None None None) = "".
Proof.
  split; [exact Location_String_render |].
  repeat split; reflexivity.
Qed.

(** ** Deduplication *)

Local Open Scope list_scope.

Section Dedup.
Context (W : World) (baseURL : string) (input : ScraperInput).

Local Abbreviation visit := (visitCard W baseURL input).
Local Abbreviation dedup := (dedupCards W baseURL input).
Local Abbreviation known := (known W baseURL input).

Lemma seen_insert m k k' :
  seen (<[k := true]> m) k' = if decide (k = k') then true else seen m k'.
Proof.
  unfold seen. rewrite lookup_insert. by case_decide.
Qed.

Lemma seen_insert_mono m k k' : seen m k' = true -> seen (<[k := true]> m) k' = true.
Proof. rewrite seen_insert. by case_decide. Qed.

Lemma visit_seen_mono acc s k : seen acc.1 k = true -> seen (visit acc s).1 k = true.
Proof.
  intros H. unfold visitCard.
  destruct (parseJobCard W s baseURL input) as [job|]; [|done].
  destruct (seen acc.1 (JobURL job)); simpl; [done|].
  by apply seen_insert_mono.
Qed.

Lemma visit_known acc s : known (visit acc s).1 s = true.
Proof.
  unfold known, visitCard.
  destruct (parseJobCard W s baseURL input) as [job|] eqn:E; [|done].
  destruct (seen acc.1 (JobURL job)) eqn:E'; simpl; [done|].
  rewrite seen_insert. by case_decide.
Qed.

Lemma visit_of_known acc s : known acc.1 s = true -> visit acc s = acc.
Proof.
  unfold known, visitCard.
  destruct (parseJobCard W s baseURL input) as [job|]; [|done].
  by intros ->.
Qed.

Lemma visit_cases m js s :
  visit (m, js) s
  = match parseJobCard W s baseURL input with
    | Some job => if seen m (JobURL job) then (m, js)
                  else (<[JobURL job := true]> m, js ++ [job])
    | None => (m, js)
    end.
Proof.
  unfold visitCard. simpl.
  destruct (parseJobCard W s baseURL input) as [job|]; [|done].
  by destruct (seen m (JobURL job)).
Qed.

Lemma known_mono m m' s :
  (forall k, seen m k = true -> seen m' k = true) -> known m s = true -> known m' s = true.
Proof.
  unfold known. destruct (parseJobCard W s baseURL input); auto.
Qed.

Lemma fold_visit_seen_mono cards acc k :
  seen acc.1 k = true -> seen (fold_left visit cards acc).1 k = true.
Proof.
  revert acc. induction cards as [|s cards IH]; intros acc H; simpl; [done|].
  apply IH. by apply visit_seen_mono.
Qed.

(** After a page has gone through the filter, all its cards are known. *)
Lemma fold_visit_known cards acc :
  Forall (fun s => known (fold_left visit cards acc).1 s = true) cards.
Proof.
  revert acc. induction cards as [|s cards IH]; intros acc; simpl; constructor.
  - apply known_mono with (m := (visit acc s).1).
    + intros k. apply fold_visit_seen_mono.
    + apply visit_known.
  - apply IH.
Qed.

(** A page of known cards leaves the set and the postings as they are. *)
Lemma fold_visit_of_known cards acc :
  Forall (fun s => known acc.1 s = true) cards -> fold_left visit cards acc = acc.
Proof.
  revert acc. induction cards as [|s cards IH]; intros acc H; simpl; [done|].
  inversion H as [|? ? Hs Hrest]; subst.
  rewrite (visit_of_known _ _ Hs). by apply IH.
Qed.

(** The postings come out behind those already collected. *)
Lemma fold_visit_app cards m js :
  fold_left visit cards (m, js)
  = ((fold_left visit cards (m, [])).1, js ++ (fold_left visit cards (m, [])).2).
Proof.
  revert m js. induction cards as [|s cards IH]; intros m js; simpl.
  - by rewrite app_nil_r.
  - rewrite !visit_cases.
    destruct (parseJobCard W s baseURL input) as [job|]; [|apply IH].
    destruct (seen m (JobURL job)); simpl; [apply IH|].
    rewrite (IH _ (js ++ [job])), (IH _ [job]). simpl.
    by rewrite <- app_assoc.
Qed.

(** What the filter lets through was not in the set before, is in it
    after, and is the posting of one of the cards. *)
Lemma fold_visit_emitted cards m :
  Forall (fun job => seen m (JobURL job) = false
                     /\ seen (fold_left visit cards (m, [])).1 (JobURL job) = true
                     /\ exists s, s ∈ cards /\ parseJobCard W s baseURL input = Some job)
         (fold_left visit cards (m, [])).2.
Proof.
  revert m. induction cards as [|s cards IH]; intros m; simpl; [constructor|].
  rewrite !visit_cases.
  destruct (parseJobCard W s baseURL input) as [job|] eqn:E.
  2:{ eapply Forall_impl; [apply IH|]. intros j (? & ? & s' & ? & ?).
      repeat split; try done. exists s'. split; [by right|done]. }
  destruct (seen m (JobURL job)) eqn:Es; simpl.
  { eapply Forall_impl; [apply IH|]. intros j (? & ? & s' & ? & ?).
    repeat split; try done. exists s'. split; [by right|done]. }
  rewrite fold_visit_app. simpl. constructor.
  - split; [done|]. split.
    + apply fold_visit_seen_mono. simpl. rewrite seen_insert. by case_decide.
    + exists s. split; [by left|done].
  - eapply Forall_impl; [apply IH|]. intros j (Hj & ? & s' & ? & ?).
    rewrite seen_insert in Hj. case_decide; [done|].
    repeat split; try done. exists s'. split; [by right|done].
Qed.

(** No URL comes out twice. *)
Lemma fold_visit_NoDup cards m :
  NoDup (map JobURL (fold_left visit cards (m, [])).2).
Proof.
  revert m. induction cards as [|s cards IH]; intros m; simpl; [constructor|].
  rewrite visit_cases.
  destruct (parseJobCard W s baseURL input) as [job|] eqn:E; [|apply IH].
  destruct (seen m (JobURL job)) eqn:Es; simpl; [apply IH|].
  rewrite fold_visit_app. simpl. constructor; [|apply IH].
  intros Hin. apply list_elem_of_fmap in Hin as (j & Hj & Hin).
  pose proof (fold_visit_emitted cards (<[JobURL job := true]> m)) as H.
  rewrite Forall_forall in H. apply H in Hin as (Hns & _).
  rewrite seen_insert, <- Hj in Hns. by case_decide.
Qed.

(** The second pass over a page. *)
Lemma dedupCards_again seenURLs cards :
  dedup (dedup seenURLs cards).1 cards = ((dedup seenURLs cards).1, []).
Proof.
  unfold dedupCards. apply fold_visit_of_known. simpl. apply fold_visit_known.
Qed.

End Dedup.

(** C7: feeding the same page twice into the filter of [scrapePage]
    gives the postings that feeding it once gives: the second pass lets
    nothing through and leaves the set as it is.  A card whose URL is
    already in the set is dropped without any other effect: what comes
    out was not in the set, and comes out once. *)
Theorem dedup_idempotent (W : World) (baseURL : string) (input : ScraperInput)
    (seenURLs : gmap string bool) (cards : list Card) (accumulated : list JobPost) :
  let once := dedupCards W baseURL input seenURLs cards in
  let twice := dedupCards W baseURL input once.1 cards in
  twice = (once.1, [])
  /\ (accumulated ++ once.2 ++ twice.2 = accumulated ++ once.2)%list
  /\ Forall (fun job => seen seenURLs (JobURL job) = false) once.2
  /\ NoDup (map JobURL once.2).
Proof.
  intros once twice.
  assert (Htwice : twice = (once.1, [])) by apply dedupCards_again.
  split; [done|]. split.
  { rewrite Htwice. simpl. by rewrite app_nil_r. }
  split.
  - eapply Forall_impl; [apply fold_visit_emitted|]. by intros j (? & _).
  - apply fold_visit_NoDup.
Qed.

(** ** Nil and empty slices *)

Lemma goAppend_not_nil {A} (s : option (list A)) (x : A) :
  goLen (goAppend s x) <> 0%nat.
Proof.
  destruct s as [l|]; simpl; [|done].
  rewrite length_app. simpl. lia.
Qed.

Lemma goAppend_nilWhenEmpty {A} (s : option (list A)) (x : A) :
  nilWhenEmpty (goAppend s x).
Proof.
  unfold nilWhenEmpty. destruct s as [[|y l]|]; simpl; done.
Qed.

Lemma FindAllString_nilWhenEmpty (r : regexp.Regexp) (text : string) :
  nilWhenEmpty (regexp.FindAllString r text).
Proof.
  unfold nilWhenEmpty, regexp.FindAllString.
  by destruct (regexp.FindAllStringSubmatch r text).
Qed.

(** Whatever the pattern finds, [ExtractEmailsFromText] hands the
    matches on when there are some and nil when there are none. *)
Lemma ExtractEmailsFromText_matches (text : string) :
  ExtractEmailsFromText text
  = match regexp.FindAllStringSubmatch emailRegexp.pattern text with
    | [] => None
    | found => Some (map (fun m => hd "" m) found)
    end.
Proof.
  unfold ExtractEmailsFromText, regexp.FindAllString.
  destruct (String.eqb_spec text "") as [->|_]; [done|].
  by destruct (regexp.FindAllStringSubmatch emailRegexp.pattern text).
Qed.

Lemma extractJobType_markers (description : string) :
  extractJobType description
  = match markersFound description with
    | [] => None
    | jobTypes => Some jobTypes
    end.
Proof.
  unfold extractJobType, markersFound, jobTypeMarkers. simpl.
  rewrite !orb_false_r.
  destruct (strings.Contains _ "full-time" || strings.Contains _ "fulltime");
  destruct (strings.Contains _ "part-time" || strings.Contains _ "parttime");
  destruct (strings.Contains _ "contract");
  destruct (strings.Contains _ "intern");
  destruct (strings.Contains _ "temporary"); reflexivity.
Qed.

Lemma ExtractEmailsFromText_nilWhenEmpty text : nilWhenEmpty (ExtractEmailsFromText text).
Proof.
  rewrite ExtractEmailsFromText_matches. unfold nilWhenEmpty.
  by destruct (regexp.FindAllStringSubmatch emailRegexp.pattern text).
Qed.

Lemma extractJobType_nilWhenEmpty description : nilWhenEmpty (extractJobType description).
Proof.
  rewrite extractJobType_markers. unfold nilWhenEmpty.
  by destruct (markersFound description).
Qed.

Lemma parseJobCard_slices W s baseURL input job :
  parseJobCard W s baseURL input = Some job -> slicesNilWhenEmpty job.
Proof.
  unfold parseJobCard.
  destruct (data_jk s) as [jobKey|]; [|done].
  destruct (String.eqb _ ""); [done|].
  intros [= <-]. split; simpl.
  - apply ExtractEmailsFromText_nilWhenEmpty.
  - apply extractJobType_nilWhenEmpty.
Qed.

(** ** The HTTP client and the rotator *)

Lemma Next_of_rotatorOK pr :
  rotatorOK pr -> exists proxy pr', ProxyRotator_Next pr = Some (proxy, pr') /\ rotatorOK pr'.
Proof.
  unfold ProxyRotator_Next, rotatorOK.
  destruct (proxies pr) as [|p ps] eqn:E; simpl.
  { intros _. exists "", pr. split; [done|]. by left. }
  intros [H|H]; [done|].
  destruct (Z.ltb_spec (current pr) 0) as [?|_]; [lia|].
  destruct ((p :: ps) !! Z.to_nat (current pr)) as [proxy|] eqn:El.
  2:{ apply lookup_ge_None in El. simpl in *. lia. }
  eexists _, _. split; [done|]. right. simpl.
  rewrite Z.rem_mod_nonneg by lia.
  apply Z.mod_pos_bound. lia.
Qed.

Lemma Next_rotatorOK pr proxy pr' :
  ProxyRotator_Next pr = Some (proxy, pr') -> rotatorOK pr'.
Proof.
  unfold ProxyRotator_Next, rotatorOK.
  destruct (proxies pr) as [|p ps] eqn:E; simpl.
  { intros [= _ <-]. by left. }
  destruct (Z.ltb_spec (current pr) 0) as [?|Hc]; [done|].
  destruct ((p :: ps) !! Z.to_nat (current pr)) as [q|] eqn:El; [|done].
  intros [= _ <-]. right. simpl.
  rewrite Z.rem_mod_nonneg by lia.
  apply Z.mod_pos_bound. lia.
Qed.

Lemma NewHTTPClient_ok proxies userAgent : clientOK (NewHTTPClient proxies userAgent).
Proof.
  unfold clientOK, NewHTTPClient. simpl.
  destruct proxies as [|p ps]; simpl; [done|].
  right. simpl. lia.
Qed.

Section Client.
Context (W : World).

Lemma Get_of_clientOK hc baseURL params :
  clientOK hc -> exists resp hc', HTTPClient_Get W hc baseURL params = Some (resp, hc').
Proof.
  unfold clientOK, HTTPClient_Get.
  destruct (proxyRotator hc) as [pr|]; [|by eauto].
  intros (proxy & pr' & -> & _)%Next_of_rotatorOK. by eauto.
Qed.

(** Every request moves the clock by one and leaves a rotator that can
    be read. *)
Lemma Get_after hc baseURL params resp hc' :
  HTTPClient_Get W hc baseURL params = Some (resp, hc') ->
  clientOK hc' /\ sent hc' = S (sent hc)
  /\ exists req, resp = http_Do W (sent hc) req.
Proof.
  unfold clientOK, HTTPClient_Get.
  destruct (proxyRotator hc) as [pr|].
  - destruct (ProxyRotator_Next pr) as [[proxy pr']|] eqn:E; [|done].
    intros [= <- <-]. simpl. split; [by eapply Next_rotatorOK|]. by eauto.
  - intros [= <- <-]. simpl. by eauto.
Qed.

End Client.

(** ** One page *)

Section Page.
Context (W : World) (input : ScraperInput) (baseURL : string).

(** The three ways in which [scrapePage] comes back. *)
Lemma scrapePage_cases sc cursor r :
  scrapePage W sc input cursor baseURL = Some r ->
  exists hc req,
    HTTPClient_Get W (httpClient sc) baseURL (searchParams input cursor)
      = Some (http_Do W (sent (httpClient sc)) req, hc)
    /\ ((exists e, err r = Some e /\ jobs r = [] /\ nextCursor r = ""
                   /\ after r = withClient sc hc
                   /\ forall doc, http_Do W (sent (httpClient sc)) req
                                  <> Response 200 (Parsed doc))
        \/ (exists doc, http_Do W (sent (httpClient sc)) req = Response 200 (Parsed doc)
                        /\ err r = None
                        /\ jobs r = (dedupCards W baseURL input (seenURLs sc) (cards doc)).2
                        /\ nextCursor r = match nextLink doc with
                                          | NextStart start => start
                                          | _ => ""
                                          end
                        /\ after r
                           = withSeen (withClient sc hc)
                               (dedupCards W baseURL input (seenURLs sc) (cards doc)).1)).
Proof.
  unfold scrapePage.
  destruct (HTTPClient_Get W (httpClient sc) baseURL (searchParams input cursor))
    as [[resp hc]|] eqn:EG; [|done].
  destruct (Get_after W _ _ _ _ _ EG) as (_ & _ & req & ->).
  intros [= <-]. exists hc, req. split; [done|].
  destruct (http_Do W (sent (httpClient sc)) req) as [e|code body] eqn:ER.
  { left. eexists. by repeat split. }
  destruct (Z.eqb_spec code 200) as [->|Hne]; simpl.
  2:{ left. eexists. repeat split; try done. intros doc [=]. done. }
  destruct body as [e|doc].
  { left. eexists. by repeat split. }
  right. exists doc. split; [done|].
  by destruct (dedupCards W baseURL input (seenURLs sc) (cards doc)).
Qed.

(** A page that fails yields no posting and no cursor. *)
Lemma scrapePage_failed sc cursor r e :
  scrapePage W sc input cursor baseURL = Some r ->
  err r = Some e -> jobs r = [] /\ nextCursor r = "".
Proof.
  intros (hc & req & _ & [(e' & _ & ? & ? & _)|(doc & _ & Hn & _)])%scrapePage_cases He.
  - done.
  - congruence.
Qed.

Lemma scrapePage_after sc cursor r :
  scrapePage W sc input cursor baseURL = Some r ->
  clientOK (httpClient (after r))
  /\ sent (httpClient (after r)) = S (sent (httpClient sc)).
Proof.
  intros (hc & req & HG & H)%scrapePage_cases.
  apply Get_after in HG as (Hok & Hs & _).
  destruct H as [(e & _ & _ & _ & -> & _)|(doc & _ & _ & _ & _ & ->)]; simpl; done.
Qed.

Lemma scrapePage_of_clientOK sc cursor :
  clientOK (httpClient sc) -> exists r, scrapePage W sc input cursor baseURL = Some r.
Proof.
  intros Hok. unfold scrapePage.
  destruct (Get_of_clientOK W _ baseURL (searchParams input cursor) Hok)
    as (resp & hc & ->).
  by eauto.
Qed.

(** Every posting of a page comes from one of its cards. *)
Lemma scrapePage_jobs sc cursor r :
  scrapePage W sc input cursor baseURL = Some r ->
  Forall (fun job => exists s, parseJobCard W s baseURL input = Some job) (jobs r).
Proof.
  intros (hc & req & _ & [(e & _ & -> & _)|(doc & _ & _ & -> & _)])%scrapePage_cases.
  - constructor.
  - eapply Forall_impl; [apply fold_visit_emitted|].
    intros j (_ & _ & s & _ & ?). by exists s.
Qed.

(** The page that was served before: whatever the first pass let
    through, the second lets nothing through, and is no error. *)
Lemma scrapePage_repeated sc cursor cursor' r r' doc :
  (forall req, http_Do W (sent (httpClient sc)) req = Response 200 (Parsed doc)) ->
  (forall req, http_Do W (S (sent (httpClient sc))) req = Response 200 (Parsed doc)) ->
  scrapePage W sc input cursor baseURL = Some r ->
  scrapePage W (after r) input cursor' baseURL = Some r' ->
  jobs r' = [] /\ err r' = None /\ seenURLs (after r') = seenURLs (after r).
Proof.
  intros H1 H2 Hr Hr'.
  pose proof (scrapePage_after _ _ _ Hr) as (_ & Hsent).
  apply scrapePage_cases in Hr as (hc & req & _ & [(e & _ & _ & _ & _ & Hno)|Hr]).
  { by destruct (Hno doc). }
  destruct Hr as (doc1 & Hd1 & _ & _ & _ & Hafter).
  rewrite H1 in Hd1. injection Hd1 as <-.
  apply scrapePage_cases in Hr' as (hc' & req' & _ & [(e & _ & _ & _ & _ & Hno)|Hr']).
  { destruct (Hno doc). rewrite Hsent. apply H2. }
  destruct Hr' as (doc2 & Hd2 & Herr & Hjobs & _ & Hafter').
  rewrite Hsent, H2 in Hd2. injection Hd2 as <-.
  assert (Hseen : seenURLs (after r)
                  = (dedupCards W baseURL input (seenURLs sc) (cards doc)).1).
  { by rewrite Hafter. }
  pose proof (dedupCards_again W baseURL input (seenURLs sc) (cards doc)) as Hid.
  rewrite <- Hseen in Hid.
  rewrite Hjobs, Hafter', Hid. simpl. done.
Qed.

End Page.

(** ** The pagination walk *)

Section WalkProps.
Context (W : World) (input : ScraperInput) (baseURL : string).

Local Abbreviation step := (turn W input baseURL).
Local Abbreviation loop := (fun fuel => walk W fuel input baseURL).

Lemma countReached_false allJobs :
  countReached input allJobs = false <-> Z.of_nat (length allJobs) < wanted input.
Proof. unfold countReached. rewrite Z.leb_gt. done. Qed.

Lemma turn_reached w : countReached input (allJobs w) = true -> step w = Left w.
Proof.
  unfold countReached, turn. intros H%Z.leb_le.
  destruct (Z.ltb_spec (Z.of_nat (length (allJobs w))) (wanted input)); [lia|done].
Qed.

(** What a turn does once the page is there. *)
Lemma turn_page w r :
  countReached input (allJobs w) = false ->
  scrapePage W (scraper w) input (cursor w) baseURL = Some r ->
  step w =
    match err r with
    | Some e => Failed ("error scraping page " ++ Itoa (page w) ++ ": " ++ e)%string (after r)
    | None =>
        if pageEmpty r then Left (mkWalk (after r) (allJobs w) (page w) (cursor w))
        else if noNextCursor r
             then Left (mkWalk (after r) (allJobs w ++ jobs r) (wrap64 (page w + 1)) (nextCursor r))
             else Again (mkWalk (after r) (allJobs w ++ jobs r) (wrap64 (page w + 1)) (nextCursor r))
    end.
Proof.
  intros Hc%countReached_false Hr. unfold turn.
  destruct (Z.ltb_spec (Z.of_nat (length (allJobs w))) (wanted input)); [|lia].
  rewrite Hr. done.
Qed.

Lemma turn_crash w :
  countReached input (allJobs w) = false ->
  scrapePage W (scraper w) input (cursor w) baseURL = None ->
  step w = Crashed.
Proof.
  intros Hc%countReached_false Hr. unfold turn.
  destruct (Z.ltb_spec (Z.of_nat (length (allJobs w))) (wanted input)); [|lia].
  by rewrite Hr.
Qed.

(** Every turn is one of the six cases. *)
Lemma turn_case w : TurnCase W input baseURL w (step w).
Proof.
  destruct (countReached input (allJobs w)) eqn:Hc.
  { rewrite turn_reached by done. by constructor. }
  destruct (scrapePage W (scraper w) input (cursor w) baseURL) as [r|] eqn:Hr.
  2:{ rewrite turn_crash by done. by constructor. }
  rewrite (turn_page _ _ Hc Hr).
  destruct (err r) as [e|] eqn:He; [by econstructor|].
  destruct (pageEmpty r) eqn:Hp; [by econstructor|].
  destruct (noNextCursor r) eqn:Hn; by econstructor.
Qed.

(** The loop goes round again exactly when none of the three terminal
    conditions holds. *)
Lemma turn_isAgain w :
  isAgain (step w)
  = negb (countReached input (allJobs w))
    && match scrapePage W (scraper w) input (cursor w) baseURL with
       | Some r => negb (pageEmpty r) && negb (noNextCursor r)
       | None => false
       end.
Proof.
  destruct (turn_case w) as [Hc|Hc Hr|r e Hc Hr He|r Hc Hr He Hp|r Hc Hr He Hp Hn
                            |r Hc Hr He Hp Hn];
    rewrite Hc; try rewrite Hr; try rewrite Hp; try rewrite Hn; try done.
  destruct (scrapePage_failed _ _ _ _ _ _ _ Hr He) as (Hj & _).
  unfold pageEmpty. by rewrite Hj.
Qed.

Lemma turn_Again_inv w w' :
  step w = Again w' ->
  countReached input (allJobs w) = false
  /\ exists r, scrapePage W (scraper w) input (cursor w) baseURL = Some r
               /\ err r = None /\ pageEmpty r = false /\ noNextCursor r = false
               /\ w' = mkWalk (after r) (allJobs w ++ jobs r)
                              (wrap64 (page w + 1)) (nextCursor r).
Proof.
  destruct (turn_case w) as [| | | | |r Hc Hr He Hp Hn]; try done.
  intros [= <-]. split; [done|]. by exists r.
Qed.

(** A turn that goes round again has added a posting. *)
Lemma turn_Again_grows w w' :
  step w = Again w' ->
  (length (allJobs w) < length (allJobs w'))%nat
  /\ Z.of_nat (length (allJobs w)) < wanted input.
Proof.
  intros (Hc%countReached_false & r & _ & _ & He & _ & ->)%turn_Again_inv.
  split; [|done]. simpl. rewrite length_app.
  unfold pageEmpty in He. apply Nat.eqb_neq in He. lia.
Qed.

(** The loop ends within as many turns as postings are still missing,
    and one more. *)
Lemma walk_ends fuel w :
  (Z.to_nat (wanted input - Z.of_nat (length (allJobs w))) < fuel)%nat ->
  exists t, loop fuel w = Some t /\ isAgain t = false.
Proof.
  revert w. induction fuel as [|fuel IH]; intros w Hlt; [lia|].
  simpl. destruct (step w) as [w'| | |] eqn:Ht; try by eauto.
  apply turn_Again_grows in Ht as (Hg & Hw).
  apply IH. lia.
Qed.

Lemma walk_not_Again fuel w w' : loop fuel w <> Some (Again w').
Proof.
  revert w. induction fuel as [|fuel IH]; intros w; simpl; [done|].
  destruct (step w); [apply IH|done..].
Qed.

(** More turns than needed change nothing. *)
Lemma walk_more fuel fuel' w t :
  loop fuel w = Some t -> (fuel <= fuel')%nat -> loop fuel' w = Some t.
Proof.
  revert fuel' w. induction fuel as [|fuel IH]; intros fuel' w; simpl; [done|].
  intros H Hle. destruct fuel' as [|fuel']; [lia|]. simpl.
  destruct (step w); try done. apply IH; [done|lia].
Qed.

(** The walk requests at most as many pages as postings are still
    missing. *)
Lemma walk_requests fuel w t :
  loop fuel w = Some t ->
  match t with
  | Again w' | Left w' =>
      Z.of_nat (sent (httpClient (scraper w')))
      <= Z.of_nat (sent (httpClient (scraper w)))
         + Z.max 0 (wanted input - Z.of_nat (length (allJobs w)))
  | Failed _ sc =>
      Z.of_nat (sent (httpClient sc))
      <= Z.of_nat (sent (httpClient (scraper w)))
         + Z.max 0 (wanted input - Z.of_nat (length (allJobs w)))
  | Crashed => True
  end.
Proof.
  revert w. induction fuel as [|fuel IH]; intros w; simpl; [done|].
  destruct (turn_case w) as [Hc|Hc Hr|r e Hc Hr He|r Hc Hr He Hp|r Hc Hr He Hp Hn
                            |r Hc Hr He Hp Hn];
    try apply countReached_false in Hc;
    try apply scrapePage_after in Hr as (_ & Hs);
    try (intros [= <-]; simpl; lia).
  intros H%IH. simpl in H. rewrite Hs in H.
  unfold pageEmpty in Hp. apply Nat.eqb_neq in Hp.
  rewrite length_app in H.
  destruct t; try done; lia.
Qed.

(** When the source serves again the page it has just served, the walk
    ends there: the page yields nothing new. *)
Lemma turn_repeated_page w w' doc :
  step w = Again w' ->
  (forall req, http_Do W (sent (httpClient (scraper w))) req = Response 200 (Parsed doc)) ->
  (forall req, http_Do W (sent (httpClient (scraper w'))) req = Response 200 (Parsed doc)) ->
  exists w'', step w' = Left w'' /\ allJobs w'' = allJobs w'.
Proof.
  intros (_ & r & Hr & _ & _ & _ & ->)%turn_Again_inv H1 H2. simpl in *.
  pose proof (scrapePage_after _ _ _ _ _ _ Hr) as (Hok & Hs).
  rewrite Hs in H2.
  set (w' := mkWalk _ _ _ _).
  destruct (countReached input (allJobs w')) eqn:Hc.
  { exists w'. by rewrite turn_reached. }
  destruct (scrapePage_of_clientOK W input baseURL (scraper w') (cursor w') Hok)
    as (r' & Hr').
  destruct (scrapePage_repeated _ _ _ _ _ _ _ _ _ H1 H2 Hr Hr') as (Hj & He & _).
  rewrite (turn_page _ _ Hc Hr'), He.
  unfold pageEmpty. rewrite Hj. simpl. by eauto.
Qed.

End WalkProps.

(** [Scrape] always comes back (or panics): the loop never needs more
    than [enoughTurns]. *)
Lemma Scrape_total W sc input : is_Some (IndeedScraper_Scrape W sc input).
Proof.
  unfold IndeedScraper_Scrape, Scrape_within.
  destruct (walk_ends W input (baseURLOf input) (enoughTurns input) (enterWalk sc input))
    as (t & -> & Ht).
  { unfold enoughTurns. simpl. rewrite Z.sub_0_r. lia. }
  by destruct t.
Qed.

(** A call of [Scrape] sends at most [resultsWanted + offset]
    requests. *)
Lemma Scrape_requests W sc input x sc' :
  IndeedScraper_Scrape W sc input = Some (x, sc') ->
  (sent (httpClient sc') <= sent (httpClient sc) + Z.to_nat (wanted input))%nat.
Proof.
  unfold IndeedScraper_Scrape, Scrape_within.
  destruct (walk W (enoughTurns input) input (baseURLOf input) (enterWalk sc input))
    as [t|] eqn:Hw; [|done].
  apply walk_requests in Hw. simpl in Hw. rewrite Z.sub_0_r in Hw.
  destruct t as [w|w|e sc1|]; try done.
  - unfold leaveWalk. destruct (window _ _); intros [= _ <-]; lia.
  - intros [= _ <-]. lia.
  - intros [= _ <-]. simpl. lia.
Qed.

(** C3: the pagination walk of [Scrape] ends within a bounded number of
    turns for every query and every source: at most one turn per
    posting still wanted, and one more, and no more requests than
    postings wanted.  The loop goes round again
    exactly when none of the terminal conditions holds: after a page,
    another page is requested exactly when the count is below
    [resultsWanted + offset], the page yielded a new posting and a
    cursor was extracted (a page that failed yields neither).  A source
    that repeats its page does not keep the walk going: the repeated
    page yields nothing new once deduplicated, and the walk ends on
    it. *)
Theorem pagination_walk_terminates (W : World) (input : ScraperInput)
    (baseURL : string) (w : Walk) :
  (exists t,
     walk W (S (Z.to_nat (wanted input - Z.of_nat (length (allJobs w)))))
          input baseURL w = Some t
     /\ isAgain t = false)
  /\ (forall sc, is_Some (IndeedScraper_Scrape W sc input))
  /\ (forall sc x sc',
        IndeedScraper_Scrape W sc input = Some (x, sc') ->
        (sent (httpClient sc') <= sent (httpClient sc) + Z.to_nat (wanted input))%nat)
  /\ isAgain (turn W input baseURL w)
     = negb (countReached input (allJobs w))
       && match scrapePage W (scraper w) input (cursor w) baseURL with
          | Some r => negb (pageEmpty r) && negb (noNextCursor r)
          | None => false
          end
  /\ (forall r,
        countReached input (allJobs w) = false ->
        scrapePage W (scraper w) input (cursor w) baseURL = Some r ->
        requestsAnotherPage input (turn W input baseURL w)
        = negb (countReached input (allJobs w ++ jobs r)
                || pageEmpty r || noNextCursor r))
  /\ (forall w' doc,
        turn W input baseURL w = Again w' ->
        (forall req, http_Do W (sent (httpClient (scraper w))) req
                     = Response 200 (Parsed doc)) ->
        (forall req, http_Do W (sent (httpClient (scraper w'))) req
                     = Response 200 (Parsed doc)) ->
        exists w'', turn W input baseURL w' = Left w''
                    /\ allJobs w'' = allJobs w').
Proof.
  split; [apply walk_ends; lia|].
  split; [intros sc; apply Scrape_total|].
  split; [intros sc x sc'; apply Scrape_requests|].
  split; [apply turn_isAgain|].
  split.
  - intros r Hc Hr. rewrite (turn_page _ _ _ _ _ Hc Hr).
    destruct (err r) as [e|] eqn:He.
    { destruct (scrapePage_failed _ _ _ _ _ _ _ Hr He) as (Hj & _).
      unfold pageEmpty. rewrite Hj. simpl. by rewrite orb_true_r. }
    destruct (pageEmpty r); simpl; [by rewrite orb_true_r|].
    destruct (noNextCursor r); simpl; [by rewrite orb_true_r|].
    by rewrite !orb_false_r.
  - intros w' doc. apply turn_repeated_page.
Qed.

(** The source of the example serves one page over and over; asked for
    five postings, the walk takes the two that the page holds, goes
    round once, and ends on the repetition. *)
Lemma pagination_walk_terminates_witness :
  let input := exampleQuery 5 0 in
  let w := enterWalk (NewIndeedScraper [] "") input in
  exists w' w'',
    turn repeatingSource input (baseURLOf input) w = Again w'
    /\ turn repeatingSource input (baseURLOf input) w' = Left w''
    /\ length (allJobs w'') = 2%nat.
Proof.
  intros input w.
  destruct (pagination_walk_terminates repeatingSource input (baseURLOf input) w)
    as (_ & _ & _ & _ & _ & Hrep).
  destruct (turn repeatingSource input (baseURLOf input) w) as [w'| | |] eqn:Ht;
    try (vm_compute in Ht; discriminate Ht).
  destruct (Hrep w' examplePage eq_refl) as (w'' & Hl & Hj); [done..|].
  exists w', w''. repeat split; [done|].
  rewrite Hj.
  assert (Hw : Again w' = turn repeatingSource input (baseURLOf input) w) by done.
  vm_compute in Hw. injection Hw as ->. reflexivity.
Defined.

(** ** Offset and limit *)

Lemma wrap64_small z : - 2 ^ 63 <= z < 2 ^ 63 -> wrap64 z = z.
Proof.
  intros H. unfold wrap64.
  rewrite Z.mod_small; lia.
Qed.

Lemma wrap64_range z : - 2 ^ 63 <= wrap64 z < 2 ^ 63.
Proof.
  unfold wrap64.
  pose proof (Z.mod_pos_bound (z + 2 ^ 63) (2 ^ 64) ltac:(lia)). lia.
Qed.

Lemma goSlice_Some {A} (l : list A) lo hi :
  0 <= lo <= hi -> hi <= Z.of_nat (length l) ->
  goSlice l lo hi = Some (firstn (Z.to_nat (hi - lo)) (skipn (Z.to_nat lo) l)).
Proof.
  intros H1 H2. unfold goSlice.
  destruct (Z.leb_spec 0 lo); [|lia].
  destruct (Z.leb_spec lo hi); [|lia].
  destruct (Z.leb_spec hi (Z.of_nat (length l))); [|lia].
  done.
Qed.

Lemma goSlice_None {A} (l : list A) lo hi :
  lo < 0 \/ hi < lo \/ Z.of_nat (length l) < hi -> goSlice l lo hi = None.
Proof.
  intros H. unfold goSlice.
  destruct (Z.leb_spec 0 lo); simpl; [|done].
  destruct (Z.leb_spec lo hi); simpl; [|done].
  destruct (Z.leb_spec hi (Z.of_nat (length l))); [lia|done].
Qed.

Lemma windowOf_length {A} (l : list A) offset resultsWanted :
  0 <= offset -> 0 <= resultsWanted ->
  Z.of_nat (length (windowOf l offset resultsWanted))
  = Z.min (offset + resultsWanted) (Z.of_nat (length l))
    - Z.min offset (Z.of_nat (length l)).
Proof.
  intros Ho Hr. unfold windowOf.
  rewrite length_take, length_drop. lia.
Qed.

Lemma windowOf_lookup {A} (l : list A) offset resultsWanted (i : nat) :
  windowOf l offset resultsWanted !! i
  = if Z.of_nat i <? resultsWanted then l !! (Z.to_nat offset + i)%nat else None.
Proof.
  unfold windowOf.
  destruct (Z.ltb_spec (Z.of_nat i) resultsWanted).
  - rewrite lookup_take_lt by lia. by rewrite lookup_drop.
  - apply lookup_take_ge. lia.
Qed.

(** The window, for an offset and a count that are not negative and
    whose sum is an [int]. *)
Lemma window_ok allJobs input :
  0 <= Offset input -> 0 <= ResultsWanted input ->
  Offset input + ResultsWanted input < 2 ^ 63 ->
  window allJobs input = Some (windowOf allJobs (Offset input) (ResultsWanted input)).
Proof.
  intros Ho Hr Hsum. unfold window, windowOf.
  rewrite wrap64_small by lia.
  set (len := Z.of_nat (length allJobs)).
  destruct (Z.gtb_spec (Offset input) len) as [Hgt|Hle];
    destruct (Z.gtb_spec (Offset input + ResultsWanted input) len) as [Hgt'|Hle'];
    try lia.
  - rewrite goSlice_Some by (unfold len in *; lia).
    rewrite Z.sub_diag. simpl.
    rewrite (skipn_all2 (n := Z.to_nat (Offset input))) by (unfold len in *; lia).
    by rewrite firstn_nil.
  - rewrite goSlice_Some by (unfold len in *; lia).
    rewrite !firstn_all2; [done|..]; rewrite length_skipn; unfold len in *; lia.
  - rewrite goSlice_Some by (unfold len in *; lia).
    do 2 f_equal. lia.
Qed.

(** A negative bound or a sum beyond the largest [int] makes the slice
    expression panic. *)
Lemma window_negative_offset allJobs input :
  Offset input < 0 -> window allJobs input = None.
Proof.
  intros Ho. unfold window.
  destruct (Z.gtb_spec (Offset input) (Z.of_nat (length allJobs))); [lia|].
  apply goSlice_None. by left.
Qed.

(** What [Scrape] returns is decided by how the loop was left. *)
Lemma Scrape_exit W sc input :
  exists t,
    walk W (enoughTurns input) input (baseURLOf input) (enterWalk sc input) = Some t
    /\ IndeedScraper_Scrape W sc input
       = match t with
         | Left w => Some (leaveWalk input w)
         | Failed e sc' => Some (Returns (inr e), sc')
         | Crashed => Some (Panics, scraper (enterWalk sc input))
         | Again _ => None
         end.
Proof.
  destruct (walk_ends W input (baseURLOf input) (enoughTurns input) (enterWalk sc input))
    as (t & Ht & _).
  { unfold enoughTurns. simpl. rewrite Z.sub_0_r. lia. }
  exists t. split; [done|].
  unfold IndeedScraper_Scrape, Scrape_within. rewrite Ht. by destruct t.
Qed.

(** C5, as the document states it, fails: a negative count, a negative
    offset, or a sum that leaves the range of [int] make the slice
    expression of [Scrape] panic, with nothing fetched (the first and
    the last case) or with 25 postings accumulated. *)
Lemma Scrape_window_panics :
  window [] (exampleQuery (-1) 0) = None
  /\ fst <$> IndeedScraper_Scrape emptySource (NewIndeedScraper [] "") (exampleQuery (-1) 0)
     = Some Panics
  /\ window (examplePosts 25) (exampleQuery 5 (-1)) = None
  /\ window [] (exampleQuery (2 ^ 63 - 1) 1) = None.
Proof. repeat split; vm_compute; reflexivity. Qed.

(** C5, amended: for every accumulated list, and every offset and
    count that are not negative and whose sum is an [int], [Scrape]
    returns the slice of the accumulated postings from [offset] to
    [offset + resultsWanted], both bounds clamped to the length; an
    offset beyond the length gives the empty slice, not an error. *)
Theorem Scrape_window (accumulated : list JobPost) (input : ScraperInput) :
  0 <= Offset input -> 0 <= ResultsWanted input ->
  Offset input + ResultsWanted input < 2 ^ 63 ->
  window accumulated input = Some (windowOf accumulated (Offset input) (ResultsWanted input))
  /\ (forall i : nat,
        windowOf accumulated (Offset input) (ResultsWanted input) !! i
        = if Z.of_nat i <? ResultsWanted input
          then accumulated !! (Z.to_nat (Offset input) + i)%nat else None)
  /\ Z.of_nat (length (windowOf accumulated (Offset input) (ResultsWanted input)))
     = Z.min (Offset input + ResultsWanted input) (Z.of_nat (length accumulated))
       - Z.min (Offset input) (Z.of_nat (length accumulated))
  /\ (Z.of_nat (length accumulated) <= Offset input -> window accumulated input = Some [])
  /\ (forall w, accumulated = allJobs w ->
        leaveWalk input w
        = (Returns (inl {| Jobs := windowOf accumulated (Offset input) (ResultsWanted input) |}),
           scraper w)).
Proof.
  intros Ho Hr Hsum.
  pose proof (window_ok accumulated input Ho Hr Hsum) as Hw.
  split; [done|].
  split; [intros i; apply windowOf_lookup|].
  split; [by apply windowOf_length|].
  split.
  - intros Hlen. rewrite Hw. f_equal. unfold windowOf.
    rewrite skipn_all2 by lia. by rewrite firstn_nil.
  - intros w ->. unfold leaveWalk. by rewrite Hw.
Qed.

(** 25 postings accumulated, offset 10, 5 wanted: the postings 10 to
    14. *)
Lemma Scrape_window_witness :
  window (examplePosts 25) (exampleQuery 5 10)
  = Some (map examplePost [10; 11; 12; 13; 14]%nat).
Proof.
  destruct (Scrape_window (examplePosts 25) (exampleQuery 5 10)) as (H & _).
  - simpl. lia.
  - simpl. lia.
  - simpl. lia.
  - rewrite H. reflexivity.
Defined.

(** ** Compensation parsing *)

Lemma fold_amounts (matches : list (list string)) (amounts : list Q) :
  fold_left addAmount matches amounts = amounts ++ omap tokenValue matches.
Proof.
  revert amounts. induction matches as [|m matches IH]; intros amounts; simpl.
  - by rewrite app_nil_r.
  - rewrite IH. unfold addAmount, tokenValue.
    destruct m as [|m0 [|group1 m]]; try done.
    destruct (strconv.ParseFloat _); [|done].
    by rewrite <- app_assoc.
Qed.

(** [parseSalary], read off the matches of the pattern: no match, no
    compensation; otherwise the currency is set, the interval is the
    one of the text, and the amounts are the first two matches that
    parse as numbers. *)
Lemma parseSalary_matches (salaryText : string) :
  parseSalary salaryText
  = match regexp.FindAllStringSubmatch salaryRegexp.pattern salaryText with
    | [] => None
    | _ =>
        Some {| Interval := salaryInterval salaryText;
                MinAmount := head (salaryAmounts salaryText);
                MaxAmount := match salaryAmounts salaryText with
                             | [a] => Some a
                             | amounts => amounts !! 1%nat
                             end;
                Currency := Some "USD" |}
    end.
Proof.
  unfold parseSalary, salaryAmounts, salaryInterval.
  destruct (String.eqb_spec salaryText "") as [->|_]; [done|].
  destruct (regexp.FindAllStringSubmatch salaryRegexp.pattern salaryText) as [|m matches] eqn:E;
    [done|].
  cbn [length Nat.eqb].
  rewrite fold_amounts. rewrite app_nil_l.
  destruct (omap _ (m :: matches)) as [|a [|b amounts]]; reflexivity.
Qed.

(** When every match is a number, the cases of the document follow. *)
Lemma parseSalary_one_amount salaryText a :
  regexp.FindAllStringSubmatch salaryRegexp.pattern salaryText <> [] ->
  salaryAmounts salaryText = [a] ->
  parseSalary salaryText
  = Some {| Interval := salaryInterval salaryText; MinAmount := Some a;
            MaxAmount := Some a; Currency := Some "USD" |}.
Proof.
  intros Hm Ha. rewrite parseSalary_matches, Ha.
  by destruct (regexp.FindAllStringSubmatch salaryRegexp.pattern salaryText).
Qed.

Lemma parseSalary_two_amounts salaryText a b rest :
  salaryAmounts salaryText = a :: b :: rest ->
  parseSalary salaryText
  = Some {| Interval := salaryInterval salaryText; MinAmount := Some a;
            MaxAmount := Some b; Currency := Some "USD" |}.
Proof.
  intros Ha. rewrite parseSalary_matches, Ha.
  destruct (regexp.FindAllStringSubmatch salaryRegexp.pattern salaryText) eqn:E; [|done].
  unfold salaryAmounts in Ha. by rewrite E in Ha.
Qed.

(** The examples of the document. *)
Lemma parseSalary_examples :
  parseSalary "$50,000 - $70,000 a year"
  = Some {| Interval := Some IntervalYearly; MinAmount := Some (50000 # 1);
            MaxAmount := Some (70000 # 1); Currency := Some "USD" |}
  /\ parseSalary "$25.50 an hour"
     = Some {| Interval := Some IntervalHourly; MinAmount := Some (2550 # 100);
               MaxAmount := Some (2550 # 100); Currency := Some "USD" |}
  /\ parseSalary "Competitive" = None
  /\ parseSalary "" = None.
Proof. repeat split; vm_compute; reflexivity. Qed.

(** C4 fails on the code at a salary text that holds a comma and no
    digit: the pattern takes the comma for a numeric token, the token
    does not parse, and a compensation comes out that has the default
    currency and no amount.  The document wants no compensation for a
    text without a numeric token, and equal minimum and maximum for a
    text with one match. *)
Theorem parseSalary_comma_without_digit :
  regexp.FindAllStringSubmatch salaryRegexp.pattern "Competitive pay, benefits"
  = [[","; ","]]
  /\ salaryAmounts "Competitive pay, benefits" = []
  /\ parseSalary "Competitive pay, benefits"
     = Some {| Interval := None; MinAmount := None; MaxAmount := None;
               Currency := Some "USD" |}.
Proof. repeat split; vm_compute; reflexivity. Qed.

(** ** Proxy rotation *)

Lemma Next_in_range (ps : list string) (c : Z) :
  ps <> [] -> 0 <= c < Z.of_nat (length ps) ->
  ProxyRotator_Next (mkProxyRotator ps c)
  = Some (nth (Z.to_nat c) ps "",
          mkProxyRotator ps ((c + 1) mod Z.of_nat (length ps))).
Proof.
  intros Hne Hc. unfold ProxyRotator_Next. simpl.
  destruct ps as [|p ps']; [done|]. cbn [length Nat.eqb].
  destruct (Z.ltb_spec c 0); [lia|].
  destruct ((p :: ps') !! Z.to_nat c) as [q|] eqn:E.
  2:{ apply lookup_ge_None in E. simpl in *. lia. }
  rewrite Z.rem_mod_nonneg by (simpl; lia).
  do 2 f_equal. symmetry. apply nth_lookup_Some with (d := ""%string) in E. done.
Qed.

(** Calls that come one after the other go round the list. *)
Lemma nextMany_round_robin (ps : list string) (k : nat) (c : Z) :
  ps <> [] -> 0 <= c < Z.of_nat (length ps) ->
  nextMany k (mkProxyRotator ps c)
  = Some (map (fun i : nat =>
                 nth (Z.to_nat ((c + Z.of_nat i) mod Z.of_nat (length ps))) ps "")
              (seq 0 k),
          mkProxyRotator ps ((c + Z.of_nat k) mod Z.of_nat (length ps))).
Proof.
  intros Hne. revert c. induction k as [|k IH]; intros c Hc.
  - simpl. rewrite Z.add_0_r, Z.mod_small by lia. done.
  - cbn [nextMany]. rewrite Next_in_range by done.
    assert (Hn : 0 < Z.of_nat (length ps)) by lia.
    rewrite IH by (apply Z.mod_pos_bound; lia).
    cbn [seq map]. rewrite Z.add_0_r, (Z.mod_small c) by lia.
    apply f_equal. apply f_equal2; [apply f_equal|].
    + rewrite <- seq_shift, map_map. apply map_ext. intros i.
      do 2 f_equal. rewrite Zplus_mod_idemp_l. f_equal. lia.
    + f_equal. rewrite Zplus_mod_idemp_l. f_equal. lia.
Qed.

(** A request of a client with a rotator is one call of [Next]. *)
Lemma Get_advances_rotator W hc baseURL params resp hc' pr :
  proxyRotator hc = Some pr ->
  HTTPClient_Get W hc baseURL params = Some (resp, hc') ->
  exists proxy pr',
    ProxyRotator_Next pr = Some (proxy, pr') /\ proxyRotator hc' = Some pr'.
Proof.
  unfold HTTPClient_Get. intros ->.
  destruct (ProxyRotator_Next pr) as [[proxy pr']|]; [|done].
  intros [= _ <-]. by eauto.
Qed.

(** With a list of proxies that is not empty, the requests of one
    client, one after the other, take the proxies in round-robin
    order. *)
Lemma NewProxyRotator_round_robin (ps : list string) (k : nat) :
  ps <> [] ->
  nextMany k (NewProxyRotator ps)
  = Some (map (fun i : nat => nth (i mod length ps) ps "") (seq 0 k),
          mkProxyRotator ps (Z.of_nat (k mod length ps))).
Proof.
  intros Hne. unfold NewProxyRotator.
  assert (Hlen : length ps <> 0%nat) by (by destruct ps).
  rewrite nextMany_round_robin by (done || lia).
  do 2 f_equal.
  - apply map_ext. intros i. f_equal.
    rewrite Z.add_0_l, <- Nat2Z.inj_mod. lia.
  - rewrite Z.add_0_l, <- Nat2Z.inj_mod. done.
Qed.

(** C9 fails on the code, which the document itself counts as a defect:
    [Next] takes no lock and uses no atomic operation.  Two goroutines
    that share a rotator with the proxies p0 and p1 and take their steps
    in turn both read the index 0 and both return p0; one call after
    the other gives p0 and p1.  A site named twice in the source list
    makes two goroutines run the one Indeed adapter, hence its one
    rotator: the run is a data race. *)
Theorem Next_shared_race :
  Next_interleave [false; true; false; true; false; true]
                  (NewProxyRotator ["p0"; "p1"]) AtCheck AtCheck
  = (mkProxyRotator ["p0"; "p1"] 0, Returned "p0", Returned "p0")
  /\ nextMany 2 (NewProxyRotator ["p0"; "p1"])
     = Some (["p0"; "p1"], mkProxyRotator ["p0"; "p1"] 0)
  /\ ~ Next_safe_when_shared
  /\ (forall W sched,
        let input := exampleInput (SiteNameStrings ["indeed"; "indeed"]) None ["p0"; "p1"] in
        (exists s,
           scrapersOf W input !! SiteIndeed = Some s
           /\ parseSites (ScrapeJobsInput.SiteName input) = inl [SiteIndeed; SiteIndeed]
           /\ (launch (scrapersOf W input) [SiteIndeed; SiteIndeed]).1 = [s; s])
        /\ outcome (ScrapeJobs W input sched) = DataRace).
Proof.
  split; [reflexivity|]. split; [reflexivity|]. split.
  - intros H.
    specialize (H (NewProxyRotator ["p0"; "p1"]) [false; true; false; true; false; true]
                  (mkProxyRotator ["p0"; "p1"] 0) "p0" "p0").
    destruct H as [H|H].
    + right. simpl. lia.
    + reflexivity.
    + vm_compute in H. discriminate H.
    + vm_compute in H. discriminate H.
  - intros W sched input. split.
    + eexists. split; [apply lookup_singleton_eq|].
      split; [reflexivity|].
      unfold launch, scrapersOf. simpl.
      rewrite !lookup_singleton_eq. reflexivity.
    + vm_compute. reflexivity.
Qed.

(** ** The orchestrator *)

(** *** The launch loop *)

Lemma launch_fold (scrapers : gmap string ScraperValue) (sites : list Site)
    (started : list ScraperValue) (warnings : list LogRecord) :
  fold_left
    (fun acc site =>
       match scrapers !! site with
       | None =>
           (acc.1,
            acc.2 ++ [mkLogRecord LevelWarn "Scraper not implemented for site"
                                  [("site", site)]])
       | Some scraper => (acc.1 ++ [scraper], acc.2)
       end)
    sites (started, warnings)
  = (started ++ omap (fun site => scrapers !! site) sites,
     warnings
     ++ map notImplemented
          (List.filter (fun site => bool_decide (scrapers !! site = None)) sites)).
Proof.
  revert started warnings.
  induction sites as [|site sites IH]; intros started warnings; simpl.
  - by rewrite !app_nil_r.
  - destruct (scrapers !! site) as [s|] eqn:E; simpl; rewrite IH; simpl.
    + by rewrite <- app_assoc.
    + by rewrite <- app_assoc.
Qed.

(** A goroutine is started for each site that has an adapter, in the
    order of the sites; a site without adapter is passed over with a
    warning. *)
Lemma launch_started scrapers sites :
  launch scrapers sites
  = (omap (fun site => scrapers !! site) sites,
     map notImplemented
       (List.filter (fun site => bool_decide (scrapers !! site = None)) sites)).
Proof. unfold launch. by rewrite launch_fold. Qed.

(** *** The order in which the goroutines end *)

Lemma finishOrder_Permutation {A} (running : list A) (sched : list nat) :
  finishOrder (length running) sched running ≡ₚ running.
Proof.
  remember (length running) as n eqn:Hn.
  revert running sched Hn. induction n as [|n IH]; intros running sched Hn; simpl.
  - by destruct running.
  - assert (Hi : (hd 0%nat sched mod length running < length running)%nat).
    { apply Nat.mod_upper_bound. lia. }
    destruct (lookup_lt_is_Some_2 _ _ Hi) as (t & Ht). rewrite Ht.
    etrans; [|symmetry; apply (delete_Permutation running _ t Ht)].
    constructor. apply IH.
    rewrite length_delete by eauto. lia.
Qed.

(** Every order is the order of some schedule. *)
Lemma finishOrder_any {A} (running done : list A) :
  done ≡ₚ running -> exists sched, finishOrder (length running) sched running = done.
Proof.
  revert running. induction done as [|t done IH]; intros running Hp.
  - apply Permutation_nil_l in Hp as <-. by exists [].
  - symmetry in Hp.
    destruct (Permutation_cons_inv_r _ _ _ Hp) as (k1 & k2 & -> & Hrest).
    destruct (IH (k1 ++ k2)) as (sched & Hs); [done|].
    exists (length k1 :: sched).
    rewrite length_app. simpl.
    replace (length k1 + S (length k2))%nat with (S (length k1 + length k2)) by lia.
    cbn [finishOrder hd tl].
    rewrite length_app. cbn [length].
    rewrite Nat.mod_small by lia.
    rewrite list_lookup_middle by done.
    f_equal.
    replace (delete (length k1) (k1 ++ t :: k2)) with (k1 ++ k2).
    + by rewrite <- length_app.
    + rewrite delete_middle. done.
Qed.

Lemma doneOf_Permutation scraperInput started sched :
  doneOf scraperInput started sched ≡ₚ map (goroutine scraperInput) started.
Proof.
  unfold doneOf.
  rewrite <- (length_map (goroutine scraperInput) started).
  apply finishOrder_Permutation.
Qed.

(** *** What a goroutine leaves *)

Lemma goroutine_exit scraperInput s :
  exit (goroutine scraperInput s) = ScraperValue_Scrape s scraperInput.
Proof.
  unfold goroutine.
  by destruct (ScraperValue_Scrape s scraperInput) as [[r|e]|].
Qed.

Lemma goroutine_records scraperInput s :
  Forall (fun r => msg r <> "Scraping error") (records (goroutine scraperInput s)).
Proof.
  unfold goroutine.
  destruct (ScraperValue_Scrape s scraperInput) as [[r|e]|]; simpl;
    repeat constructor; done.
Qed.

Lemma concat_Permutation {A} (ls ls' : list (list A)) :
  ls ≡ₚ ls' -> concat ls ≡ₚ concat ls'.
Proof.
  induction 1 as [|l ls ls' _ IH|l1 l2 ls|ls1 ls2 ls3 _ IH1 _ IH2]; simpl.
  - done.
  - by rewrite IH.
  - rewrite !app_assoc. by rewrite (comm app l2 l1).
  - by rewrite IH1.
Qed.

Lemma existsb_Permutation {A} (f : A -> bool) (l l' : list A) :
  l ≡ₚ l' -> existsb f l = existsb f l'.
Proof.
  induction 1 as [|x l l' _ IH|x y l|l1 l2 l3 _ IH1 _ IH2]; simpl.
  - done.
  - by rewrite IH.
  - by destruct (f x), (f y).
  - by rewrite IH1.
Qed.

Section Channels.
Context (scraperInput : ScraperInput).

Lemma resultsChan_map started :
  concat (map Jobs (resultsChan (map (goroutine scraperInput) started)))
  = concat (map (postingsOf scraperInput) started).
Proof.
  induction started as [|s started IH]; simpl; [done|].
  unfold resultsChan in *. simpl. rewrite goroutine_exit. unfold postingsOf at 1.
  destruct (ScraperValue_Scrape s scraperInput) as [[r|e]|]; simpl;
    by rewrite IH.
Qed.

Lemma panicked_map started :
  Forall (comesBack scraperInput) started ->
  panicked (map (goroutine scraperInput) started) = false.
Proof.
  induction 1 as [|s started Hs _ IH]; simpl; [done|].
  unfold panicked in *. simpl. rewrite goroutine_exit, IH.
  unfold comesBack in Hs.
  by destruct (ScraperValue_Scrape s scraperInput) as [[r|e]|].
Qed.

Lemma errorsChan_map_all_fail started :
  Forall (fails scraperInput) started ->
  resultsChan (map (goroutine scraperInput) started) = [].
Proof.
  induction 1 as [|s started (e & Hs) _ IH]; simpl; [done|].
  unfold resultsChan in *. simpl. by rewrite goroutine_exit, Hs, IH.
Qed.

Lemma errorsChan_map_succeed started :
  Forall (succeeds scraperInput) started ->
  errorsChan (map (goroutine scraperInput) started) = [].
Proof.
  induction 1 as [|s started (r & Hs) _ IH]; simpl; [done|].
  unfold errorsChan in *. simpl. by rewrite goroutine_exit, Hs, IH.
Qed.

Lemma errorsChan_app l1 l2 : errorsChan (l1 ++ l2) = errorsChan l1 ++ errorsChan l2.
Proof. unfold errorsChan. apply omap_app. Qed.

Lemma resultsChan_Permutation done done' :
  done ≡ₚ done' ->
  concat (map Jobs (resultsChan done)) ≡ₚ concat (map Jobs (resultsChan done')).
Proof.
  intros H. apply concat_Permutation, Permutation_map.
  unfold resultsChan. by rewrite H.
Qed.

Lemma errorsChan_Permutation done done' :
  done ≡ₚ done' -> errorsChan done ≡ₚ errorsChan done'.
Proof. intros H. unfold errorsChan. by rewrite H. Qed.

End Channels.

(** *** From [wg.Wait()] to the [return] *)

Lemma join_returns floor warnings done :
  panicked done = false ->
  join floor warnings done
  = mkRun (Return (Some {| Jobs := concat (map Jobs (resultsChan done)) |}) None)
          (emitted floor ((warnings ++ concat (map records done))
                          ++ map scrapingError (errorsChan done))).
Proof. intros H. unfold join. by rewrite H. Qed.

Lemma ScrapeJobs_over_sites scrapersOf input sites sched :
  parseSites (ScrapeJobsInput.SiteName input) = inl sites ->
  sharedAdapter (scrapersOf input) sites = false ->
  ScrapeJobs_over scrapersOf input sched
  = join (SetLogLevel (ScrapeJobsInput.Verbose input))
         (launch (scrapersOf input) sites).2
         (doneOf (scraperInputOf input sites) (launch (scrapersOf input) sites).1 sched).
Proof. intros H Hn. unfold ScrapeJobs_over. by rewrite H, Hn. Qed.

Lemma doneOf_not_panicked scraperInput started sched :
  Forall (comesBack scraperInput) started ->
  panicked (doneOf scraperInput started sched) = false.
Proof.
  intros H. unfold panicked.
  rewrite (existsb_Permutation _ _ _ (doneOf_Permutation scraperInput started sched)).
  by apply panicked_map.
Qed.

(** When all adapter calls come back, [ScrapeJobs] returns the postings
    of the successful ones and a nil error. *)
Lemma ScrapeJobs_over_returns scrapersOf input sites sched :
  parseSites (ScrapeJobsInput.SiteName input) = inl sites ->
  sharedAdapter (scrapersOf input) sites = false ->
  Forall (comesBack (scraperInputOf input sites)) (launch (scrapersOf input) sites).1 ->
  outcome (ScrapeJobs_over scrapersOf input sched)
  = Return
      (Some {| Jobs :=
                 concat (map Jobs
                   (resultsChan (doneOf (scraperInputOf input sites)
                                        (launch (scrapersOf input) sites).1 sched))) |})
      None.
Proof.
  intros Hs Hn Hb. rewrite (ScrapeJobs_over_sites _ _ _ _ Hs Hn).
  rewrite join_returns by (by apply doneOf_not_panicked). done.
Qed.

Lemma allJobs_Permutation scraperInput started sched :
  concat (map Jobs (resultsChan (doneOf scraperInput started sched)))
  ≡ₚ concat (map (postingsOf scraperInput) started).
Proof.
  rewrite <- resultsChan_map.
  apply resultsChan_Permutation, doneOf_Permutation.
Qed.

Lemma errorsChan_cons f done :
  errorsChan (f :: done)
  = match exit f with
    | Returns (inr e) => e :: errorsChan done
    | _ => errorsChan done
    end.
Proof. unfold errorsChan. simpl. by destruct (exit f) as [[r|e]|]. Qed.

Lemma errorsChan_errorOf scraperInput started :
  errorsChan (map (goroutine scraperInput) started) = omap (errorOf scraperInput) started.
Proof.
  induction started as [|s started IH]; [done|].
  cbn [map]. rewrite errorsChan_cons, goroutine_exit, IH.
  cbn [omap list_omap]. unfold errorOf.
  by destruct (ScraperValue_Scrape s scraperInput) as [[r|e]|].
Qed.

Lemma errors_Permutation scraperInput started sched :
  errorsChan (doneOf scraperInput started sched) ≡ₚ omap (errorOf scraperInput) started.
Proof.
  rewrite <- errorsChan_errorOf.
  apply errorsChan_Permutation, doneOf_Permutation.
Qed.

(** The postings of an adapter that has succeeded stand together in
    the result, in the order in which the adapter returned them. *)
Lemma allJobs_block scraperInput started sched s :
  s ∈ started -> succeeds scraperInput s ->
  exists before after,
    concat (map Jobs (resultsChan (doneOf scraperInput started sched)))
    = before ++ postingsOf scraperInput s ++ after.
Proof.
  intros Hin (r & Hr).
  assert (Hd : goroutine scraperInput s ∈ doneOf scraperInput started sched).
  { rewrite doneOf_Permutation. apply list_elem_of_In, in_map, list_elem_of_In, Hin. }
  apply list_elem_of_split in Hd as (d1 & d2 & ->).
  exists (concat (map Jobs (resultsChan d1))), (concat (map Jobs (resultsChan d2))).
  unfold resultsChan. rewrite omap_app. simpl.
  rewrite goroutine_exit. unfold postingsOf. rewrite Hr.
  rewrite map_app, concat_app. simpl. done.
Qed.

(** *** The log *)

Lemma emitted_app floor l1 l2 : emitted floor (l1 ++ l2) = emitted floor l1 ++ emitted floor l2.
Proof. unfold emitted. apply List.filter_app. Qed.

Lemma emitted_errors floor errors :
  emitted floor (map scrapingError errors) = map scrapingError errors.
Proof.
  induction errors as [|e errors IH]; [done|].
  unfold emitted in *. simpl. rewrite IH.
  by destruct floor.
Qed.

Lemma filter_none {A} (f : A -> bool) (l : list A) :
  Forall (fun x => f x = false) l -> List.filter f l = [].
Proof. induction 1 as [|x l Hx _ IH]; simpl; [done|]. by rewrite Hx. Qed.

Lemma filter_all {A} (f : A -> bool) (l : list A) :
  Forall (fun x => f x = true) l -> List.filter f l = l.
Proof. induction 1 as [|x l Hx _ IH]; simpl; [done|]. by rewrite Hx, IH. Qed.

Lemma emitted_sub floor (P : LogRecord -> Prop) l : Forall P l -> Forall P (emitted floor l).
Proof.
  intros H. unfold emitted. rewrite Forall_forall in *.
  intros r Hr%list_elem_of_In%filter_In. apply H, list_elem_of_In, Hr.
Qed.

Lemma during_not_errors scraperInput warnings (done : list Finished) sites started sched scrapers :
  warnings = (launch scrapers sites).2 ->
  done = doneOf scraperInput started sched ->
  Forall (fun r => isScrapingError r = false) (warnings ++ concat (map records done)).
Proof.
  intros -> ->. rewrite launch_started. simpl.
  apply Forall_app. split.
  - apply Forall_forall. intros r Hr%list_elem_of_In%in_map_iff. by destruct Hr as (site & <- & _).
  - apply Forall_forall. intros r Hr%list_elem_of_In%in_concat.
    destruct Hr as (rs & Hrs%in_map_iff & Hr). destruct Hrs as (f & <- & Hf).
    apply list_elem_of_In in Hf. rewrite doneOf_Permutation in Hf.
    apply list_elem_of_In, in_map_iff in Hf as (s & <- & _).
    pose proof (goroutine_records scraperInput s) as HF.
    rewrite Forall_forall in HF. apply list_elem_of_In, HF in Hr.
    unfold isScrapingError. by apply String.eqb_neq.
Qed.

(** *** The adapters of [ScrapeJobs] *)

Lemma Indeed_ScraperValue_Scrape W sc input :
  ScraperValue_Scrape (mkScraperValue IndeedScraper (IndeedScraper_Scraper W) sc) input
  = (default (Panics, sc) (IndeedScraper_Scrape W sc input)).1.
Proof.
  unfold ScraperValue_Scrape. cbn [impl_Scraper self Scrape IndeedScraper_Scraper].
  by destruct (IndeedScraper_Scrape W sc input).
Qed.

(** The map of [ScrapeJobs] holds one adapter: a goroutine is started
    for each occurrence of the Indeed site, and for nothing else. *)
Lemma launch_scrapersOf W input sites :
  (launch (scrapersOf W input) sites).1
  = map (fun _ => mkScraperValue IndeedScraper (IndeedScraper_Scraper W)
                    (NewIndeedScraper (ScrapeJobsInput.Proxies input)
                                      (getValue "" (ScrapeJobsInput.UserAgent input))))
        (List.filter (fun site => bool_decide (site = SiteIndeed)) sites).
Proof.
  rewrite launch_started. cbn [fst]. unfold scrapersOf.
  induction sites as [|site sites IH]; [done|].
  cbn [omap list_omap List.filter]. rewrite IH.
  destruct (decide (site = SiteIndeed)) as [->|Hne].
  - rewrite lookup_singleton_eq. by rewrite bool_decide_eq_true_2.
  - rewrite lookup_singleton_ne by done. by rewrite bool_decide_eq_false_2.
Qed.

(** C10: whenever the source names resolve, [ScrapeJobs] returns a nil
    error, however many adapters fail (each goroutine has an adapter of
    its own, and the calls of the adapters come back): the postings
    returned are those of the adapters that succeeded, and none when
    every adapter fails.  A
    resolved site without an adapter in the map is passed over with a
    warning: no goroutine is started for it, so it adds no posting and
    no error. *)
Theorem ScrapeJobs_nil_error
    (scrapersOf : ScrapeJobsInput.t -> gmap string ScraperValue)
    (input : ScrapeJobsInput.t) (sites : list Site) (sched : list nat) :
  parseSites (ScrapeJobsInput.SiteName input) = inl sites ->
  sharedAdapter (scrapersOf input) sites = false ->
  Forall (comesBack (scraperInputOf input sites)) (launch (scrapersOf input) sites).1 ->
  (exists allJobs,
     outcome (ScrapeJobs_over scrapersOf input sched)
     = Return (Some {| Jobs := allJobs |}) None
     /\ allJobs ≡ₚ concat (map (postingsOf (scraperInputOf input sites))
                              (launch (scrapersOf input) sites).1)
     /\ (Forall (fails (scraperInputOf input sites)) (launch (scrapersOf input) sites).1 ->
         allJobs = []))
  /\ errorsOf scrapersOf input sched
     ≡ₚ omap (errorOf (scraperInputOf input sites)) (launch (scrapersOf input) sites).1
  /\ launch (scrapersOf input) sites
     = (omap (fun site => scrapersOf input !! site) sites,
        map notImplemented
          (List.filter (fun site => bool_decide (scrapersOf input !! site = None)) sites)).
Proof.
  intros Hs Hn Hb. split; [|split].
  - eexists. split; [by apply ScrapeJobs_over_returns|].
    split; [apply allJobs_Permutation|].
    intros Hf.
    assert (Hnil : concat (map (postingsOf (scraperInputOf input sites))
                               (launch (scrapersOf input) sites).1) = []).
    { rewrite <- resultsChan_map. by rewrite errorsChan_map_all_fail. }
    pose proof (allJobs_Permutation (scraperInputOf input sites)
                  (launch (scrapersOf input) sites).1 sched) as Hp.
    rewrite Hnil in Hp. by apply Permutation_nil_r in Hp.
  - unfold errorsOf. rewrite Hs. apply errors_Permutation.
  - apply launch_started.
Qed.

(** The four default sites against a source that answers 503: the one
    adapter there is fails, the three other sites have none; the caller
    gets no posting and a nil error. *)
Lemma ScrapeJobs_nil_error_witness :
  outcome (ScrapeJobs failingSource (exampleInput SiteNameNil None []) [])
  = Return (Some {| Jobs := [] |}) None.
Proof.
  destruct (ScrapeJobs_nil_error (scrapersOf failingSource)
              (exampleInput SiteNameNil None [])
              [SiteIndeed; SiteLinkedIn; SiteGlassdoor; SiteGoogle] [])
    as ((allJobs & Hout & _ & Hnone) & _).
  - reflexivity.
  - vm_compute. reflexivity.
  - rewrite launch_scrapersOf. repeat constructor.
    unfold comesBack. rewrite Indeed_ScraperValue_Scrape. vm_compute. discriminate.
  - unfold ScrapeJobs. rewrite Hout, Hnone; [reflexivity|].
    rewrite launch_scrapersOf. repeat constructor.
    unfold fails. rewrite Indeed_ScraperValue_Scrape. eexists. vm_compute. reflexivity.
Defined.

(** C1, amended: the errors of the adapters are collected and written
    to the log, one record of level error for each, at every verbosity;
    they are not returned: the caller gets the postings of the
    successful adapters and a nil error (each goroutine has an adapter
    of its own, and the calls of the adapters come back). *)
Theorem adapter_errors_logged
    (scrapersOf : ScrapeJobsInput.t -> gmap string ScraperValue)
    (input : ScrapeJobsInput.t) (sites : list Site) (sched : list nat) :
  parseSites (ScrapeJobsInput.SiteName input) = inl sites ->
  sharedAdapter (scrapersOf input) sites = false ->
  Forall (comesBack (scraperInputOf input sites)) (launch (scrapersOf input) sites).1 ->
  let run := ScrapeJobs_over scrapersOf input sched in
  List.filter isScrapingError (log run) = map scrapingError (errorsOf scrapersOf input sched)
  /\ Forall (fun e => scrapingError e ∈ log run) (errorsOf scrapersOf input sched)
  /\ errorsOf scrapersOf input sched
     ≡ₚ omap (errorOf (scraperInputOf input sites)) (launch (scrapersOf input) sites).1
  /\ exists allJobs,
       outcome run = Return (Some {| Jobs := allJobs |}) None
       /\ allJobs ≡ₚ concat (map (postingsOf (scraperInputOf input sites))
                                (launch (scrapersOf input) sites).1).
Proof.
  intros Hs Hn Hb run.
  assert (Hlog : List.filter isScrapingError (log run)
                 = map scrapingError (errorsOf scrapersOf input sched)).
  { unfold run, errorsOf. rewrite (ScrapeJobs_over_sites _ _ _ _ Hs Hn), Hs.
    rewrite join_returns by (by apply doneOf_not_panicked). simpl.
    rewrite emitted_app, List.filter_app, emitted_errors.
    rewrite (filter_none isScrapingError (emitted _ _)).
    - simpl. apply filter_all, Forall_forall.
      intros r Hr%list_elem_of_In%in_map_iff. by destruct Hr as (e & <- & _).
    - apply emitted_sub. by eapply during_not_errors. }
  split; [done|]. split; [|split].
  - apply Forall_forall. intros e He.
    assert (Hin : scrapingError e ∈ List.filter isScrapingError (log run)).
    { rewrite Hlog. apply list_elem_of_In, in_map, list_elem_of_In, He. }
    apply list_elem_of_In, filter_In in Hin as (Hin & _). by apply list_elem_of_In.
  - unfold errorsOf. rewrite Hs. apply errors_Permutation.
  - eexists. split; [by apply ScrapeJobs_over_returns|]. apply allJobs_Permutation.
Qed.

(** C1, as the document states it, fails: what [ScrapeJobs] returns
    does not tell a run in which the adapter failed from a run in which
    it found nothing.  Against the source that answers 503 and against
    the source without cards the caller gets the same empty list and
    the same nil error. *)
Lemma adapter_errors_not_returned :
  outcome (ScrapeJobs failingSource (exampleInput (SiteNameString "indeed") None []) [])
  = Return (Some {| Jobs := [] |}) None
  /\ errorsOf (scrapersOf failingSource) (exampleInput (SiteNameString "indeed") None []) []
     = ["error scraping page 1: unexpected status code: 503"]
  /\ outcome (ScrapeJobs emptySource (exampleInput (SiteNameString "indeed") None []) [])
     = Return (Some {| Jobs := [] |}) None
  /\ errorsOf (scrapersOf emptySource) (exampleInput (SiteNameString "indeed") None []) []
     = []
  /\ ~ errorsExposed.
Proof.
  split; [vm_compute; reflexivity|].
  split; [vm_compute; reflexivity|].
  split; [vm_compute; reflexivity|].
  split; [vm_compute; reflexivity|].
  intros (secondary & H).
  pose proof (H failingSource (exampleInput (SiteNameString "indeed") None []) []) as H1.
  pose proof (H emptySource (exampleInput (SiteNameString "indeed") None []) []) as H2.
  vm_compute in H1, H2. rewrite H2 in H1. discriminate H1.
Qed.

(** Against the source that answers 503, at verbosity 0, the error of
    the Indeed adapter is in the log. *)
Lemma adapter_errors_logged_witness :
  scrapingError "error scraping page 1: unexpected status code: 503"
  ∈ log (ScrapeJobs failingSource (exampleInput (SiteNameString "indeed") None []) []).
Proof.
  destruct (adapter_errors_logged (scrapersOf failingSource)
              (exampleInput (SiteNameString "indeed") None []) [SiteIndeed] [])
    as (_ & Hin & _).
  - reflexivity.
  - vm_compute. reflexivity.
  - rewrite launch_scrapersOf. repeat constructor.
    unfold comesBack. rewrite Indeed_ScraperValue_Scrape. vm_compute. discriminate.
  - assert (He : errorsOf (scrapersOf failingSource)
                   (exampleInput (SiteNameString "indeed") None []) []
                 = ["error scraping page 1: unexpected status code: 503"])
      by (vm_compute; reflexivity).
    rewrite He in Hin. apply Forall_inv in Hin. exact Hin.
Defined.

Lemma succeeds_comesBack scraperInput s : succeeds scraperInput s -> comesBack scraperInput s.
Proof. intros (r & Hr). unfold comesBack. by rewrite Hr. Qed.

Lemma fails_comesBack scraperInput s : fails scraperInput s -> comesBack scraperInput s.
Proof. intros (e & He). unfold comesBack. by rewrite He. Qed.

Create HintDb jobspy.
#[local] Hint Resolve succeeds_comesBack fails_comesBack NewHTTPClient_ok : jobspy.

Lemma succeeds_no_error scraperInput started :
  Forall (succeeds scraperInput) started -> omap (errorOf scraperInput) started = [].
Proof.
  induction 1 as [|s started (r & Hr) _ IH]; [done|].
  cbn [omap list_omap]. unfold errorOf at 1. by rewrite Hr.
Qed.

(** C2: of the adapters started for the resolved sources (no source
    twice), let exactly one fail and the other ones succeed.  Whatever the order in which
    the goroutines end, [ScrapeJobs] returns, with a nil error, all the
    postings of the other adapters: each one's postings stand together
    in the result as the adapter returned them.  The adapter that
    failed adds nothing to the postings, and its error is the one error
    collected. *)
Theorem failing_adapter_isolated
    (scrapersOf : ScrapeJobsInput.t -> gmap string ScraperValue)
    (input : ScrapeJobsInput.t) (sites : list Site) (sched : list nat)
    (before after : list ScraperValue) (bad : ScraperValue) (e : error) :
  parseSites (ScrapeJobsInput.SiteName input) = inl sites ->
  sharedAdapter (scrapersOf input) sites = false ->
  (launch (scrapersOf input) sites).1 = before ++ bad :: after ->
  ScraperValue_Scrape bad (scraperInputOf input sites) = Returns (inr e) ->
  Forall (succeeds (scraperInputOf input sites)) (before ++ after) ->
  exists allJobs,
    outcome (ScrapeJobs_over scrapersOf input sched)
    = Return (Some {| Jobs := allJobs |}) None
    /\ allJobs ≡ₚ concat (map (postingsOf (scraperInputOf input sites)) (before ++ after))
    /\ Forall (fun s => exists pre post,
                 allJobs = pre ++ postingsOf (scraperInputOf input sites) s ++ post)
              (before ++ after)
    /\ postingsOf (scraperInputOf input sites) bad = []
    /\ errorsOf scrapersOf input sched = [e].
Proof.
  intros Hs Hn Hl Hbad Hok.
  set (scraperInput := scraperInputOf input sites) in *.
  apply Forall_app in Hok as (Hb & Ha).
  assert (Hback : Forall (comesBack scraperInput) (launch (scrapersOf input) sites).1).
  { rewrite Hl. apply Forall_app. split.
    - eapply Forall_impl; [exact Hb|]. auto with jobspy.
    - constructor; [apply fails_comesBack; by exists e|].
      eapply Forall_impl; [exact Ha|]. auto with jobspy. }
  assert (Hnone : postingsOf scraperInput bad = []).
  { unfold postingsOf. by rewrite Hbad. }
  eexists. split; [by apply ScrapeJobs_over_returns|].
  fold scraperInput. rewrite Hl. split; [|split; [|split]].
  - rewrite allJobs_Permutation.
    rewrite !map_app, !concat_app. cbn [map concat]. by rewrite Hnone.
  - apply Forall_forall. intros s Hin.
    apply allJobs_block.
    + apply elem_of_app in Hin as [Hin|Hin]; apply elem_of_app; [by left|].
      right. by apply elem_of_cons; right.
    + apply elem_of_app in Hin as [Hin|Hin].
      * rewrite Forall_forall in Hb. by apply Hb.
      * rewrite Forall_forall in Ha. by apply Ha.
  - done.
  - unfold errorsOf. rewrite Hs. fold scraperInput. rewrite Hl.
    apply Permutation_singleton_r. rewrite errors_Permutation.
    rewrite omap_app. cbn [omap list_omap]. unfold errorOf at 2. rewrite Hbad.
    by rewrite !succeeds_no_error.
Qed.

(** Three adapters for the four default sites, the Indeed one against
    the source that answers 503; the stand-ins end first and last.  The
    three postings of the stand-ins are returned, the one error is
    collected. *)
Lemma failing_adapter_isolated_witness :
  let input := exampleInput SiteNameNil None [] in
  errorsOf (exampleScrapers failingSource) input [2; 0]%nat
  = ["error scraping page 1: unexpected status code: 503"]
  /\ exists allJobs,
       outcome (ScrapeJobs_over (exampleScrapers failingSource) input [2; 0]%nat)
       = Return (Some {| Jobs := allJobs |}) None
       /\ allJobs ≡ₚ [examplePost 0; examplePost 1; examplePost 7].
Proof.
  intros input.
  destruct (failing_adapter_isolated (exampleScrapers failingSource) input
              [SiteIndeed; SiteLinkedIn; SiteGlassdoor; SiteGoogle] [2; 0]%nat
              []
              [canned SiteLinkedIn (Returns (inl {| Jobs := examplePosts 2 |}));
               canned SiteGlassdoor (Returns (inl {| Jobs := [examplePost 7] |}))]
              (mkScraperValue IndeedScraper (IndeedScraper_Scraper failingSource)
                 (NewIndeedScraper [] ""))
              "error scraping page 1: unexpected status code: 503")
    as (allJobs & Hout & Hperm & _ & _ & Herr).
  - reflexivity.
  - vm_compute. reflexivity.
  - reflexivity.
  - rewrite Indeed_ScraperValue_Scrape. vm_compute. reflexivity.
  - repeat constructor; eexists; reflexivity.
  - split; [exact Herr|]. exists allJobs. split; [exact Hout|]. exact Hperm.
Defined.

(** ** Every posting returned comes from a card *)

Section FromCard.
Context (W : World) (input : ScraperInput) (baseURL : string).

Lemma scrapePage_fromCard sc cursor r :
  scrapePage W sc input cursor baseURL = Some r -> Forall (fromCard W) (jobs r).
Proof.
  intros H%scrapePage_jobs. eapply Forall_impl; [exact H|].
  intros job (s & Hs). by exists s, baseURL, input.
Qed.

Lemma turn_fromCard w :
  Forall (fromCard W) (allJobs w) ->
  match turn W input baseURL w with
  | Again w' | Left w' => Forall (fromCard W) (allJobs w')
  | _ => True
  end.
Proof.
  intros Hw.
  destruct (turn_case W input baseURL w)
    as [Hc|Hc Hr|r e Hc Hr He|r Hc Hr He Hp|r Hc Hr He Hp Hn|r Hc Hr He Hp Hn];
    try done; simpl; apply Forall_app; (split; [done|]);
    by eapply scrapePage_fromCard.
Qed.

Lemma walk_fromCard fuel w w' :
  Forall (fromCard W) (allJobs w) ->
  walk W fuel input baseURL w = Some (Left w') -> Forall (fromCard W) (allJobs w').
Proof.
  revert w. induction fuel as [|fuel IH]; intros w Hw; simpl; [done|].
  pose proof (turn_fromCard w Hw) as Ht.
  destruct (turn W input baseURL w) as [w1|w1|e sc|]; try done.
  - by apply IH.
  - by intros [= <-].
Qed.

End FromCard.

Lemma goSlice_Forall {A} (P : A -> Prop) l lo hi js :
  goSlice l lo hi = Some js -> Forall P l -> Forall P js.
Proof.
  unfold goSlice. destruct (_ && _); [|done].
  intros [= <-] H. by apply Forall_take, Forall_drop.
Qed.

Lemma Scrape_fromCard W sc input result sc' :
  IndeedScraper_Scrape W sc input = Some (Returns (inl result), sc') ->
  Forall (fromCard W) (Jobs result).
Proof.
  destruct (Scrape_exit W sc input) as (t & Hw & ->).
  destruct t as [w|w|e sc1|]; try done.
  unfold leaveWalk, window.
  destruct (goSlice _ _ _) as [js|] eqn:Hs; [|done].
  intros [= <- _]. simpl.
  eapply goSlice_Forall; [exact Hs|].
  eapply walk_fromCard; [|exact Hw]. constructor.
Qed.

(** The postings that [ScrapeJobs] returns were all built by
    [parseJobCard]. *)
Lemma ScrapeJobs_fromCard W input sched :
  match outcome (ScrapeJobs W input sched) with
  | Return (Some response) _ => Forall (fromCard W) (Jobs response)
  | _ => True
  end.
Proof.
  unfold ScrapeJobs, ScrapeJobs_over.
  destruct (parseSites (ScrapeJobsInput.SiteName input)) as [sites|e]; [|done].
  destruct (sharedAdapter _ _); [done|].
  unfold join. destruct (panicked _); [done|]. simpl.
  apply Forall_forall. intros job Hjob%list_elem_of_In%in_concat.
  destruct Hjob as (js & Hjs%in_map_iff & Hjob). destruct Hjs as (r & <- & Hr).
  unfold resultsChan in Hr. apply list_elem_of_In, list_elem_of_omap in Hr as (f & Hf & Hr).
  rewrite doneOf_Permutation in Hf.
  apply list_elem_of_In, in_map_iff in Hf as (s & <- & Hs).
  rewrite launch_scrapersOf in Hs. apply in_map_iff in Hs as (site & <- & _).
  rewrite goroutine_exit, Indeed_ScraperValue_Scrape in Hr.
  destruct (IndeedScraper_Scrape W _ _) as [[x sc']|] eqn:E; simpl in Hr; [|done].
  destruct x as [[r'|e]|]; try done. injection Hr as ->.
  apply Scrape_fromCard in E. rewrite Forall_forall in E.
  apply E, list_elem_of_In, Hjob.
Qed.

(** C8: the emails and the employment types of a posting are never an
    empty slice that is not nil: [ExtractEmailsFromText] returns nil
    when the pattern finds nothing (and the matches otherwise),
    [extractJobType] returns nil when no marker occurs (and the types
    of the markers that occur otherwise), and so it is in every posting
    that [parseJobCard] builds and in every posting that [ScrapeJobs]
    returns. *)
Theorem slices_nil_when_empty :
  (forall text,
     ExtractEmailsFromText text
     = match regexp.FindAllStringSubmatch emailRegexp.pattern text with
       | [] => None
       | found => Some (map (fun m => hd "" m) found)
       end)
  /\ (forall description,
        extractJobType description
        = match markersFound description with
          | [] => None
          | jobTypes => Some jobTypes
          end)
  /\ (forall text, nilWhenEmpty (ExtractEmailsFromText text))
  /\ (forall description, nilWhenEmpty (extractJobType description))
  /\ (forall W s baseURL input,
        match parseJobCard W s baseURL input with
        | Some job => slicesNilWhenEmpty job
        | None => True
        end)
  /\ (forall W input sched,
        match outcome (ScrapeJobs W input sched) with
        | Return (Some response) _ => Forall slicesNilWhenEmpty (Jobs response)
        | _ => True
        end).
Proof.
  split; [exact ExtractEmailsFromText_matches|].
  split; [exact extractJobType_markers|].
  split; [exact ExtractEmailsFromText_nilWhenEmpty|].
  split; [exact extractJobType_nilWhenEmpty|].
  split.
  - intros W s baseURL input.
    destruct (parseJobCard W s baseURL input) as [job|] eqn:E; [|done].
    by eapply parseJobCard_slices.
  - intros W input sched.
    pose proof (ScrapeJobs_fromCard W input sched) as H.
    destruct (outcome (ScrapeJobs W input sched)) as [| |[response|] e]; try done.
    eapply Forall_impl; [exact H|].
    intros job (s & baseURL & input' & Hs). by eapply parseJobCard_slices.
Qed.

(** The examples of the test file. *)
Lemma ExtractEmailsFromText_examples :
  ExtractEmailsFromText "Contact us at jobs@example.com" = Some ["jobs@example.com"]
  /\ ExtractEmailsFromText "Email: test@company.com or hr@company.com"
     = Some ["test@company.com"; "hr@company.com"]
  /\ ExtractEmailsFromText "No emails here" = None
  /\ ExtractEmailsFromText "" = None
  /\ ExtractEmailsFromText "Invalid email: not-an-email" = None
  /\ ExtractEmailsFromText "Reach out to john.doe+hiring@example-company.com"
     = Some ["john.doe+hiring@example-company.com"]
  /\ extractJobType "Full-time position, contract to hire"
     = Some [JobTypeFullTime; JobTypeContract]
  /\ extractJobType "Great team" = None.
Proof. repeat split; vm_compute; reflexivity. Qed.

(** ** The Indeed adapter comes back *)

Lemma walk_no_crash W input baseURL fuel w t :
  clientOK (httpClient (scraper w)) ->
  walk W fuel input baseURL w = Some t -> t <> Crashed.
Proof.
  revert w. induction fuel as [|fuel IH]; intros w Hok; simpl; [done|].
  destruct (turn_case W input baseURL w)
    as [Hc|Hc Hr|r e Hc Hr He|r Hc Hr He Hp|r Hc Hr He Hp Hn|r Hc Hr He Hp Hn];
    try by intros [= <-].
  - destruct (scrapePage_of_clientOK W input baseURL (scraper w) (cursor w) Hok)
      as (r & Hr'). congruence.
  - apply IH. simpl. by apply scrapePage_after in Hr as (? & _).
Qed.

(** With an offset and a count that are not negative and whose sum is
    an [int], the call of the Indeed adapter returns: postings or an
    error, no panic. *)
Lemma Indeed_comesBack W sc input :
  clientOK (httpClient sc) ->
  0 <= Offset input -> 0 <= ResultsWanted input ->
  Offset input + ResultsWanted input < 2 ^ 63 ->
  exists r sc', IndeedScraper_Scrape W sc input = Some (Returns r, sc').
Proof.
  intros Hok Ho Hr Hsum.
  destruct (Scrape_exit W sc input) as (t & Hw & ->).
  assert (Hok' : clientOK (httpClient (scraper (enterWalk sc input)))) by done.
  pose proof (walk_no_crash _ _ _ _ _ _ Hok' Hw) as Hnc.
  destruct t as [w|w|e sc1|]; try done.
  - by apply walk_not_Again in Hw.
  - unfold leaveWalk. rewrite window_ok by done. by eauto.
  - by eauto.
Qed.

(** So does [ScrapeJobs], with a nil error, whenever the source names
    resolve and do not name Indeed twice. *)
Lemma ScrapeJobs_returns W input sites sched :
  parseSites (ScrapeJobsInput.SiteName input) = inl sites ->
  sharedAdapter (scrapersOf W input) sites = false ->
  0 <= getValue 0 (ScrapeJobsInput.Offset input) ->
  0 <= getValue 15 (ScrapeJobsInput.ResultsWanted input) ->
  getValue 0 (ScrapeJobsInput.Offset input)
  + getValue 15 (ScrapeJobsInput.ResultsWanted input) < 2 ^ 63 ->
  exists allJobs,
    outcome (ScrapeJobs W input sched) = Return (Some {| Jobs := allJobs |}) None.
Proof.
  intros Hs Hn Ho Hr Hsum. eexists. unfold ScrapeJobs.
  apply ScrapeJobs_over_returns; [done..|].
  rewrite launch_scrapersOf. apply Forall_forall.
  intros s Hin%list_elem_of_In%in_map_iff. destruct Hin as (site & <- & _).
  unfold comesBack. rewrite Indeed_ScraperValue_Scrape.
  destruct (Indeed_comesBack W
              (NewIndeedScraper (ScrapeJobsInput.Proxies input)
                                (getValue "" (ScrapeJobsInput.UserAgent input)))
              (scraperInputOf input sites)) as (r & sc' & ->); try done.
  apply NewHTTPClient_ok.
Qed.

(** ** The other normalisation steps, on examples *)

Lemma parseLocation_examples :
  parseLocation "Austin, TX 78701" (Some CountryUSA)
  = Some {| City := Some "Austin"; State := Some "TX"; Country_ := Some CountryUSA |}
  /\ parseLocation "  Remote " None
     = Some {| City := Some "Remote"; State := None; Country_ := None |}
  /\ parseLocation "" (Some CountryUK) = None.
Proof. repeat split; vm_compute; reflexivity. Qed.

Lemma isJobRemote_examples :
  isJobRemote "Work From Home allowed" "Austin, TX" = true
  /\ isJobRemote "On site" "Remote" = true
  /\ isJobRemote "On site" "Austin, TX" = false.
Proof. repeat split; vm_compute; reflexivity. Qed.

Lemma PlainConverter_example :
  PlainConverter emptySource "a  b"
  = "a b".
Proof. vm_compute. reflexivity. Qed.

(** The names of the sites and of the countries, as the test file has
    them. *)
Lemma MapStringToSite_examples :
  map MapStringToSite ["indeed"; "LinkedIn"; "ziprecruiter"; "zip_recruiter"; "bdjobs"]
  = [inl SiteIndeed; inl SiteLinkedIn; inl SiteZipRecruiter; inl SiteZipRecruiter;
     inl SiteBDJobs]
  /\ MapStringToSite "unknown" = inr "unknown site: unknown"
  /\ MapStringToSite "" = inr "unknown site: "
  /\ map CountryFromString ["usa"; "US"; "united kingdom"; "unknown"; ""]
     = [Some CountryUSA; Some CountryUSA; Some CountryUK; None; None]
  /\ map JobTypeFromString ["full-time"; "FULLTIME"; "internship"; "unknown"; ""]
     = [Some JobTypeFullTime; Some JobTypeFullTime; Some JobTypeInternship; None; None].
Proof. repeat split; vm_compute; reflexivity. Qed.

(** The map of [ScrapeJobs] has an adapter for Indeed only: two
    goroutines share an adapter exactly when Indeed is named twice. *)
Lemma startedSites_scrapersOf W input sites :
  startedSites (scrapersOf W input) sites
  = List.filter (fun site => bool_decide (site = SiteIndeed)) sites.
Proof.
  unfold startedSites. apply filter_ext. intros site. unfold scrapersOf.
  apply bool_decide_ext. rewrite lookup_singleton_is_Some. done.
Qed.

Lemma sharedAdapter_scrapersOf W input sites :
  sharedAdapter (scrapersOf W input) sites
  = negb (bool_decide
            (NoDup (List.filter (fun site => bool_decide (site = SiteIndeed)) sites))).
Proof. unfold sharedAdapter. by rewrite startedSites_scrapersOf. Qed.

(** * Further properties of the package *)

(** ** Strings *)

Lemma append_cons c (s t : string) : (String c s ++ t)%string = String c (s ++ t)%string.
Proof. reflexivity. Qed.

Lemma HasPrefix_app p s : strings.HasPrefix (p ++ s) p = true.
Proof.
  induction p as [|a p IH]; [by destruct s|].
  rewrite append_cons. simpl. by rewrite Ascii.eqb_refl.
Qed.

Lemma HasPrefix_split s p :
  strings.HasPrefix s p = true <-> exists post, s = (p ++ post)%string.
Proof.
  revert s. induction p as [|a p IH]; intros s; simpl.
  - split; [by exists s|by destruct s].
  - destruct s as [|b s]; simpl.
    + split; [done|by intros (post & ?)].
    + destruct (Ascii.eqb_spec a b) as [->|Hne].
      * rewrite IH. split; intros (post & H); exists post;
          rewrite append_cons in *; congruence.
      * split; [done|]. intros (post & H). rewrite append_cons in H. congruence.
Qed.

Lemma append_assoc (a b c : string) : ((a ++ b) ++ c = a ++ (b ++ c))%string.
Proof. induction a as [|x a IH]; [done|]. by rewrite !append_cons, IH. Qed.

Lemma append_nil_r (a : string) : (a ++ "")%string = a.
Proof. induction a as [|x a IH]; [done|]. by rewrite append_cons, IH. Qed.

(** [strings.Contains]: the substring occurs somewhere. *)
Lemma Contains_split s sub :
  strings.Contains s sub = true <-> exists pre post, s = (pre ++ sub ++ post)%string.
Proof.
  induction s as [|c s IH].
  - change (strings.Contains "" sub) with (strings.HasPrefix "" sub || false).
    rewrite orb_false_r, HasPrefix_split. split.
    + intros (post & H). by exists "", post.
    + intros (pre & post & H). destruct pre; [by exists post|done].
  - change (strings.Contains (String c s) sub)
      with (strings.HasPrefix (String c s) sub || strings.Contains s sub).
    rewrite orb_true_iff, HasPrefix_split, IH. split.
    + intros [(post & H)|(pre & post & H)].
      * by exists "", post.
      * exists (String c pre), post. by rewrite append_cons, H.
    + intros (pre & post & H). destruct pre as [|c' pre].
      * left. by exists post.
      * right. rewrite append_cons in H. injection H as _ H. by exists pre, post.
Qed.

Lemma Contains_weaken s a b :
  strings.Contains s (a ++ b) = true -> strings.Contains s a = true.
Proof.
  rewrite !Contains_split. intros (pre & post & ->).
  exists pre, (b ++ post)%string. by rewrite append_assoc.
Qed.

Lemma Contains_app_l s t sub :
  strings.Contains s sub = true -> strings.Contains (s ++ t) sub = true.
Proof.
  rewrite !Contains_split. intros (pre & post & ->).
  exists pre, (post ++ t)%string. by rewrite !append_assoc.
Qed.

Lemma Contains_app_r s t sub :
  strings.Contains t sub = true -> strings.Contains (s ++ t) sub = true.
Proof.
  rewrite !Contains_split. intros (pre & post & ->).
  exists (s ++ pre)%string, post. by rewrite !append_assoc.
Qed.

Lemma mapBytes_app f a b :
  strings.mapBytes f (a ++ b) = (strings.mapBytes f a ++ strings.mapBytes f b)%string.
Proof. induction a as [|x a IH]; [done|]. rewrite append_cons. simpl. by rewrite IH. Qed.

Lemma lowerByte_upperByte c : strings.lowerByte (strings.upperByte c) = strings.lowerByte c.
Proof. destruct c as [[] [] [] [] [] [] [] []]; reflexivity. Qed.

Lemma lowerByte_lowerByte c : strings.lowerByte (strings.lowerByte c) = strings.lowerByte c.
Proof. destruct c as [[] [] [] [] [] [] [] []]; reflexivity. Qed.

Lemma ToLower_ToUpper s : strings.ToLower (strings.ToUpper s) = strings.ToLower s.
Proof.
  unfold strings.ToLower, strings.ToUpper.
  induction s as [|c s IH]; simpl; [done|]. by rewrite IH, lowerByte_upperByte.
Qed.

Lemma ToLower_ToLower s : strings.ToLower (strings.ToLower s) = strings.ToLower s.
Proof.
  unfold strings.ToLower.
  induction s as [|c s IH]; simpl; [done|]. by rewrite IH, lowerByte_lowerByte.
Qed.

Lemma isASCII_app a b : isASCII (a ++ b) = isASCII a && isASCII b.
Proof.
  unfold isASCII. induction a as [|x a IH]; [done|].
  rewrite append_cons. simpl. by rewrite IH, andb_assoc.
Qed.

Lemma isASCII_Contains s sub :
  strings.Contains s sub = true -> isASCII s = true -> isASCII sub = true.
Proof.
  rewrite Contains_split. intros (pre & post & ->).
  rewrite !isASCII_app, !andb_true_iff. tauto.
Qed.

Lemma lowerByte_ascii c :
  Nat.ltb (strings.code c) 128 = true ->
  Nat.ltb (strings.code (strings.lowerByte c)) 128 = true.
Proof. destruct c as [[] [] [] [] [] [] [] []]; vm_compute; done. Qed.

Lemma isASCII_ToLower s : isASCII s = true -> isASCII (strings.ToLower s) = true.
Proof.
  unfold isASCII. induction s as [|c s IH]; simpl; [done|].
  rewrite !andb_true_iff. intros (Hc & Hs). split; [by apply lowerByte_ascii|by apply IH].
Qed.

(** ** Proxy strings *)

(** X1: [FormatProxy] gives a proxy with one of the three schemes, leaves a
    proxy that has one as it is, and puts [http://] in front of any
    other; formatting twice is formatting once. *)
Theorem FormatProxy_scheme (proxy : string) :
  hasScheme (FormatProxy proxy) = true
  /\ FormatProxy (FormatProxy proxy) = FormatProxy proxy
  /\ FormatProxy proxy = (if hasScheme proxy then proxy else "http://" ++ proxy)%string.
Proof.
  assert (Hdef : FormatProxy proxy
                 = (if hasScheme proxy then proxy else "http://" ++ proxy)%string).
  { unfold FormatProxy, hasScheme.
    destruct (strings.HasPrefix proxy "http://"); [done|].
    destruct (strings.HasPrefix proxy "https://"); [done|].
    by destruct (strings.HasPrefix proxy "socks5://"). }
  assert (Hs : hasScheme (FormatProxy proxy) = true).
  { rewrite Hdef. destruct (hasScheme proxy) eqn:E; [done|].
    unfold hasScheme. by rewrite (HasPrefix_app "http://" proxy). }
  split; [done|]. split; [|done].
  unfold FormatProxy at 1. fold (hasScheme (FormatProxy proxy)) in *.
  unfold hasScheme in Hs.
  destruct (strings.HasPrefix (FormatProxy proxy) "http://"); [done|].
  destruct (strings.HasPrefix (FormatProxy proxy) "https://"); [done|].
  destruct (strings.HasPrefix (FormatProxy proxy) "socks5://"); done.
Qed.

(** ** Names of sites, countries and employment types *)

(** X2: [MapStringToSite] answers with one of the eight sites of models.go,
    which it maps to itself, or with an error that quotes the name as
    it was given. *)
Theorem MapStringToSite_canonical (s : string) :
  match MapStringToSite s with
  | inl site => In site allSites /\ MapStringToSite site = inl site
  | inr e => e = ("unknown site: " ++ s)%string
  end.
Proof.
  unfold MapStringToSite. set (l := strings.ToLower s).
  repeat match goal with
         | |- context [if ?b then _ else _] =>
             destruct b; [split; [simpl; auto 10|reflexivity]|]
         end.
  reflexivity.
Qed.

(** X3: On ASCII names the three look-ups ignore the case of the letters. *)
Theorem names_ignore_case (s : string) :
  isASCII s = true ->
  CountryFromString (strings.ToUpper s) = CountryFromString s
  /\ JobTypeFromString (strings.ToUpper s) = JobTypeFromString s
  /\ (forall site,
        MapStringToSite (strings.ToUpper s) = inl site <-> MapStringToSite s = inl site).
Proof.
  intros _. unfold CountryFromString, JobTypeFromString, MapStringToSite.
  rewrite ToLower_ToUpper. split; [done|]. split; [done|].
  intros site. set (l := strings.ToLower s).
  repeat match goal with
         | |- context [if ?b then _ else _] => destruct b; [done|]
         end.
  done.
Qed.

Lemma names_ignore_case_witness :
  CountryFromString "UK" = Some CountryUK
  /\ JobTypeFromString "PART-TIME" = JobTypeFromString "part-time".
Proof.
  split.
  - destruct (names_ignore_case "uk") as (H & _); [reflexivity|]. exact H.
  - destruct (names_ignore_case "part-time") as (_ & H & _); [reflexivity|]. exact H.
Defined.

(** X4: Every country that [CountryFromString] yields is one of the five of
    models.go: it is mapped to itself, [Location.String] and
    [getCountryDomain] treat it as the table says, and the default
    branch of [getCountryDomain] is not reached.  A name that is not
    recognised gives no country, which is searched on the site of
    the USA. *)
Theorem CountryFromString_table (s : string) :
  match CountryFromString s with
  | Some c =>
      CountryFromString c = Some c
      /\ In (c, Location_String (mkLocation None None (Some c)), getCountryDomain (Some c))
            countryTable
  | None => getCountryDomain None = getCountryDomain (Some CountryUSA)
  end.
Proof.
  unfold CountryFromString. set (l := strings.ToLower s).
  repeat match goal with
         | |- context [if ?b then _ else _] =>
             destruct b; [split; [reflexivity|simpl; auto 10]|]
         end.
  reflexivity.
Qed.

(** X5: The employment types of a description come in the order of the
    tests of [extractJobType], whatever the order of the markers in the
    text, and none comes twice. *)
Theorem extractJobType_ordered (description : string) :
  sublist (default [] (extractJobType description)) extractedJobTypes
  /\ NoDup (default [] (extractJobType description)).
Proof.
  assert (H : sublist (default [] (extractJobType description)) extractedJobTypes).
  { unfold extractJobType, extractedJobTypes.
    set (d := strings.ToLower description).
    destruct (strings.Contains d "full-time" || strings.Contains d "fulltime");
    destruct (strings.Contains d "part-time" || strings.Contains d "parttime");
    destruct (strings.Contains d "contract");
    destruct (strings.Contains d "intern");
    destruct (strings.Contains d "temporary"); simpl;
      repeat first [apply sublist_nil | apply sublist_skip | apply sublist_cons]. }
  split; [done|].
  eapply sublist_NoDup; [|exact H].
  unfold extractedJobTypes. apply (bool_decide_unpack _). by vm_compute.
Qed.

(** X6: What [JobTypeFromString] makes of a text is among the types that
    [extractJobType] finds in it, unless the text holds one of the
    three markers that only [JobTypeFromString] knows. *)
Theorem JobTypeFromString_extracted (s : string) (jobType : JobType) :
  foreignMarker s = false ->
  JobTypeFromString s = Some jobType ->
  exists jobTypes, extractJobType s = Some jobTypes /\ In jobType jobTypes.
Proof.
  unfold foreignMarker, JobTypeFromString, extractJobType.
  set (d := strings.ToLower s) in *.
  intros (H12 & H3)%orb_false_iff. apply orb_false_iff in H12 as (H1 & H2).
  assert (H4 : strings.Contains d "internship" = true -> strings.Contains d "intern" = true).
  { apply (Contains_weaken d "intern" "ship"). }
  assert (H5 : strings.Contains d "contractor" = true -> strings.Contains d "contract" = true).
  { apply (Contains_weaken d "contract" "or"). }
  rewrite H1, H2, H3. clear H1 H2 H3.
  destruct (strings.Contains d "internship") eqn:Ei; [rewrite (H4 eq_refl)|]; clear H4;
  (destruct (strings.Contains d "contractor") eqn:Ec; [rewrite (H5 eq_refl)|]); clear H5;
  destruct (strings.Contains d "fulltime");
  destruct (strings.Contains d "full-time");
  destruct (strings.Contains d "parttime");
  destruct (strings.Contains d "part-time");
  try destruct (strings.Contains d "contract");
  destruct (strings.Contains d "temporary");
  try destruct (strings.Contains d "intern");
  simpl; intros [= <-]; (eexists; split; [reflexivity|simpl; auto 10]).
Qed.

Lemma JobTypeFromString_extracted_witness :
  exists jobTypes,
    extractJobType "Contract, full-time" = Some jobTypes /\ In JobTypeFullTime jobTypes.
Proof.
  apply (JobTypeFromString_extracted "Contract, full-time" JobTypeFullTime); reflexivity.
Defined.

(** X7: A keyword of [isJobRemote] that occurs, in whatever case, in the
    description or in the location text marks the posting as remote. *)
Theorem isJobRemote_keyword (description location keyword : string) :
  In keyword remoteKeywords ->
  strings.Contains (strings.ToLower description) keyword = true
  \/ strings.Contains (strings.ToLower location) keyword = true ->
  isJobRemote description location = true.
Proof.
  intros Hk Hc. unfold isJobRemote. apply existsb_exists.
  exists keyword. split; [exact Hk|].
  unfold strings.ToLower in *. rewrite !mapBytes_app.
  destruct Hc as [Hc|Hc].
  - by apply Contains_app_l.
  - by apply Contains_app_r, Contains_app_r.
Qed.

Lemma isJobRemote_keyword_witness :
  isJobRemote "Senior engineer" "Remote in Austin, TX" = true.
Proof.
  apply (isJobRemote_keyword "Senior engineer" "Remote in Austin, TX" "remote").
  - simpl. auto.
  - right. reflexivity.
Defined.

(** ** Location texts *)

Lemma splitByte_cur b cur s :
  strings.splitByte b cur s
  = match strings.splitByte b "" s with
    | p0 :: rest => (cur ++ p0)%string :: rest
    | [] => []
    end.
Proof.
  revert cur. induction s as [|c s IH]; intros cur; simpl.
  - by rewrite append_nil_r.
  - destruct (Ascii.eqb c b).
    + by rewrite append_nil_r.
    + rewrite IH. rewrite (IH ("" ++ String c "")%string).
      destruct (strings.splitByte b "" s) as [|p0 rest]; [done|].
      by rewrite append_assoc.
Qed.

Lemma Split_no_sep b s : hasByte b s = false -> strings.Split s b = [s].
Proof.
  unfold strings.Split, hasByte. induction s as [|c s IH]; simpl; [done|].
  intros (Hc & Hs)%orb_false_iff. rewrite Ascii.eqb_sym, Hc.
  rewrite splitByte_cur, (IH Hs). done.
Qed.

Lemma Split_sep b s t :
  hasByte b s = false ->
  strings.Split (s ++ String b t) b = s :: strings.Split t b.
Proof.
  unfold strings.Split, hasByte. induction s as [|c s IH]; simpl.
  - intros _. by rewrite Ascii.eqb_refl.
  - intros (Hc & Hs)%orb_false_iff. rewrite ?append_cons. simpl.
    rewrite Ascii.eqb_sym, Hc.
    rewrite splitByte_cur, (IH Hs). done.
Qed.

Lemma parseLocation_two (city state : string) (country : option Country) :
  hasByte "," city = false -> hasByte "," state = false ->
  parseLocation (city ++ "," ++ state) country
  = Some {| City := Some (strings.TrimSpace city);
            State := Some (regexp.ReplaceAllString postalRegexp.pattern
                             (strings.TrimSpace state) "");
            Country_ := country |}.
Proof.
  intros Hc Hs. unfold parseLocation.
  assert (Hne : String.eqb (city ++ String "," state) "" = false) by (by destruct city).
  change ("," ++ state)%string with (String "," state).
  rewrite Hne, Split_sep by done. by rewrite Split_no_sep by done.
Qed.

Lemma parseLocation_more (city state more : string) (country : option Country) :
  hasByte "," city = false -> hasByte "," state = false ->
  parseLocation (city ++ "," ++ state ++ "," ++ more) country
  = parseLocation (city ++ "," ++ state) country.
Proof.
  intros Hc Hs. rewrite (parseLocation_two city state country Hc Hs). unfold parseLocation.
  assert (Hne : forall t, String.eqb (city ++ String "," t) "" = false).
  { intros t. by destruct city. }
  change ("," ++ state ++ "," ++ more)%string with (String "," (state ++ String "," more)).
  by rewrite Hne, !Split_sep by done.
Qed.

(** X8: [parseLocation] reads the city before the first comma and the
    state between the first comma and the second; what comes after the
    second comma is dropped.  A text without comma is a city, with no
    state.  The country is the one of the query, never one read from
    the text. *)
Theorem parseLocation_fields (city state more : string) (country : option Country) :
  hasByte "," city = false -> hasByte "," state = false ->
  parseLocation (city ++ "," ++ state) country
  = Some {| City := Some (strings.TrimSpace city);
            State := Some (regexp.ReplaceAllString postalRegexp.pattern
                             (strings.TrimSpace state) "");
            Country_ := country |}
  /\ parseLocation (city ++ "," ++ state ++ "," ++ more) country
     = parseLocation (city ++ "," ++ state) country
  /\ (city <> "" ->
      parseLocation city country
      = Some {| City := Some (strings.TrimSpace city); State := None;
                Country_ := country |}).
Proof.
  intros Hc Hs.
  split; [by apply parseLocation_two|]. split; [by apply parseLocation_more|].
  intros Hcity. unfold parseLocation. rewrite Split_no_sep by done.
  by destruct (String.eqb_spec city "").
Qed.

Lemma parseLocation_fields_witness :
  parseLocation "Austin, TX 78701, United States" (Some CountryUSA)
  = Some {| City := Some "Austin"; State := Some "TX"; Country_ := Some CountryUSA |}.
Proof.
  destruct (parseLocation_fields "Austin" " TX 78701" " United States" (Some CountryUSA))
    as (H1 & H2 & _); [reflexivity..|].
  etrans; [exact H2|]. etrans; [exact H1|]. vm_compute. reflexivity.
Defined.

(** ** Proxies, one request after the other *)

Lemma map_nth_seq {A} (l : list A) (d : A) :
  map (fun i : nat => nth (i mod length l) l d) (seq 0 (length l)) = l.
Proof.
  apply nth_ext with (d := d) (d' := d); rewrite length_map, length_seq; [done|].
  intros i Hi.
  rewrite (nth_indep _ d (nth (0 mod length l) l d)) by (by rewrite length_map, length_seq).
  rewrite (map_nth (fun i : nat => nth (i mod length l) l d)).
  rewrite seq_nth by done. simpl. by rewrite Nat.mod_small.
Qed.

(** X9: Calls of [Next] that come one after the other take the proxies in
    the order of the list and start again at its head: the call number
    [i] returns the proxy at [i mod n]; one round returns the list and
    leaves the rotator as it was made.  A rotator without proxies
    returns the empty string, and stays as it is. *)
Theorem Next_round (p : string) (ps : list string) (k : nat) :
  let all := p :: ps in
  nextMany k (NewProxyRotator all)
  = Some (map (fun i : nat => nth (i mod length all) all "") (seq 0 k),
          mkProxyRotator all (Z.of_nat (k mod length all)))
  /\ nextMany (length all) (NewProxyRotator all) = Some (all, NewProxyRotator all)
  /\ nextMany k (NewProxyRotator []) = Some (repeat "" k, NewProxyRotator []).
Proof.
  intros all.
  assert (H : forall k, nextMany k (NewProxyRotator all)
              = Some (map (fun i : nat => nth (i mod length all) all "") (seq 0 k),
                      mkProxyRotator all (Z.of_nat (k mod length all)))).
  { intros k'. by apply NewProxyRotator_round_robin. }
  split; [apply H|]. split.
  - rewrite H, map_nth_seq, Nat.Div0.mod_same. done.
  - induction k as [|k IH]; [done|].
    cbn [nextMany]. change (ProxyRotator_Next (NewProxyRotator []))
      with (Some ("", NewProxyRotator [])).
    cbv beta iota. by rewrite IH.
Qed.

Section Requests.
Context (W : World) (baseURL : string) (params : list (string * string)).

(** The request of a call of [Get] goes through the transport that the
    client holds after the call. *)
Lemma Get_request hc resp hc' :
  HTTPClient_Get W hc baseURL params = Some (resp, hc') ->
  resp = http_Do W (sent hc) (mkRequest baseURL params (transportProxy hc')).
Proof.
  unfold HTTPClient_Get. destruct (proxyRotator hc) as [pr|].
  - destruct (ProxyRotator_Next pr) as [[proxy pr']|]; [|done]. by intros [= <- <-].
  - by intros [= <- <-].
Qed.

Lemma Get_with_rotator hc ps c :
  ps <> [] -> 0 <= c < Z.of_nat (length ps) ->
  proxyRotator hc = Some (mkProxyRotator ps c) ->
  exists resp hc',
    HTTPClient_Get W hc baseURL params = Some (resp, hc')
    /\ proxyRotator hc' = Some (mkProxyRotator ps ((c + 1) mod Z.of_nat (length ps)))
    /\ transportProxy hc'
       = if usableProxy W (nth (Z.to_nat c) ps "")
         then Some (nth (Z.to_nat c) ps "") else transportProxy hc.
Proof.
  intros Hne Hc Hpr. unfold HTTPClient_Get. rewrite Hpr.
  rewrite Next_in_range by done. by eauto.
Qed.

Lemma getMany_usable ps k hc c :
  ps <> [] -> Forall (fun proxy => usableProxy W proxy = true) ps ->
  0 <= c < Z.of_nat (length ps) ->
  proxyRotator hc = Some (mkProxyRotator ps c) ->
  exists hc',
    getMany W k hc baseURL params
    = Some (map (fun i : nat =>
                   Some (nth (Z.to_nat ((c + Z.of_nat i) mod Z.of_nat (length ps))) ps ""))
                (seq 0 k), hc').
Proof.
  intros Hne Hall. revert hc c. induction k as [|k IH]; intros hc c Hc Hpr.
  - by eexists.
  - destruct (Get_with_rotator hc ps c Hne Hc Hpr) as (resp & hc1 & HG & Hpr1 & Ht).
    destruct (IH hc1 ((c + 1) mod Z.of_nat (length ps))) as (hc' & IH');
      [apply Z.mod_pos_bound; lia|done|].
    exists hc'. cbn [getMany]. rewrite HG, IH'. f_equal. f_equal.
    cbn [seq map]. f_equal.
    + rewrite Ht. rewrite Z.add_0_r, Z.mod_small by done.
      assert (Hin : nth (Z.to_nat c) ps "" ∈ ps).
      { apply list_elem_of_In, nth_In. lia. }
      rewrite Forall_forall in Hall. by rewrite (Hall _ Hin).
    + rewrite <- seq_shift, map_map. apply map_ext. intros i.
      do 3 f_equal. rewrite Zplus_mod_idemp_l. f_equal. lia.
Qed.

Lemma getMany_unusable k hc :
  clientOK hc -> transportProxy hc = None ->
  (forall pr, proxyRotator hc = Some pr ->
     Forall (fun proxy => usableProxy W proxy = false) (proxies pr)) ->
  exists hc', getMany W k hc baseURL params = Some (repeat None k, hc').
Proof.
  revert hc. induction k as [|k IH]; intros hc Hok Ht Hall; [by eexists|].
  cbn [getMany repeat].
  assert (H1 : exists resp hc1,
             HTTPClient_Get W hc baseURL params = Some (resp, hc1)
             /\ clientOK hc1 /\ transportProxy hc1 = None
             /\ forall pr, proxyRotator hc1 = Some pr ->
                  Forall (fun proxy => usableProxy W proxy = false) (proxies pr)).
  { unfold HTTPClient_Get, clientOK in *.
    destruct (proxyRotator hc) as [pr|] eqn:Epr.
    - destruct (Next_of_rotatorOK pr Hok) as (proxy & pr' & HN & Hok').
      rewrite HN. eexists _, _. split; [done|]. simpl. split; [done|].
      assert (Hp : usableProxy W proxy = false /\ proxies pr' = proxies pr).
      { specialize (Hall pr eq_refl). unfold ProxyRotator_Next in HN.
        destruct (Nat.eqb (length (proxies pr)) 0).
        { injection HN as <- <-. done. }
        destruct (current pr <? 0); [done|].
        destruct (proxies pr !! Z.to_nat (current pr)) as [q|] eqn:El; [|done].
        injection HN as <- <-. split; [|done].
        rewrite Forall_forall in Hall. apply Hall. by eapply list_elem_of_lookup_2. }
      destruct Hp as (Hp & Heq). unfold usableProxy in Hp. rewrite Hp.
      split; [done|]. intros pr1 [= <-]. rewrite Heq. by apply Hall.
    - eexists _, _. split; [done|]. simpl. by repeat split. }
  destruct H1 as (resp & hc1 & -> & Hok1 & Ht1 & Hall1).
  destruct (IH hc1 Hok1 Ht1 Hall1) as (hc' & ->).
  exists hc'. by rewrite Ht1.
Qed.

End Requests.

(** X10: The requests of a client made by [NewHTTPClient] with proxies that
    are all usable go through the proxies in round-robin order: the
    request number [i] through the proxy at [i mod n].  Each request is
    the one that [http.Client.Do] gets, with the transport that the
    client holds after the call. *)
Theorem Get_round_robin (W : World) (userAgent baseURL : string)
    (params : list (string * string)) (p : string) (ps : list string) (k : nat) :
  let all := p :: ps in
  Forall (fun proxy => usableProxy W proxy = true) all ->
  (exists hc',
     getMany W k (NewHTTPClient all userAgent) baseURL params
     = Some (map (fun i : nat => Some (nth (i mod length all) all "")) (seq 0 k), hc'))
  /\ (forall hc resp hc',
        HTTPClient_Get W hc baseURL params = Some (resp, hc') ->
        resp = http_Do W (sent hc) (mkRequest baseURL params (transportProxy hc'))).
Proof.
  intros all Hall. split; [|apply Get_request].
  destruct (getMany_usable W baseURL params all k (NewHTTPClient all userAgent) 0)
    as (hc' & H); [done|done|simpl; lia|done|].
  exists hc'. rewrite H. do 2 f_equal. apply map_ext. intros i.
  do 2 f_equal. rewrite Z.add_0_l, <- Nat2Z.inj_mod. lia.
Qed.

Lemma Get_round_robin_witness :
  exists hc',
    getMany repeatingSource 3 (NewHTTPClient ["http://p0"; "http://p1"] "") "" []
    = Some ([Some "http://p0"; Some "http://p1"; Some "http://p0"], hc').
Proof.
  destruct (Get_round_robin repeatingSource "" "" [] "http://p0" ["http://p1"] 3)
    as ((hc' & H) & _).
  - repeat constructor.
  - exists hc'. exact H.
Defined.

(** X11: A proxy that is empty or that [url.Parse] refuses is passed over in
    silence: [Get] reports no error for it and leaves the transport as
    it is.  With a list that holds no usable proxy (an empty list
    too), every request of a client made by [NewHTTPClient] is sent
    without proxy. *)
Theorem Get_without_usable_proxy (W : World) (userAgent baseURL : string)
    (params : list (string * string)) (proxies : list string) (k : nat) :
  Forall (fun proxy => usableProxy W proxy = false) proxies ->
  exists hc',
    getMany W k (NewHTTPClient proxies userAgent) baseURL params
    = Some (repeat None k, hc').
Proof.
  intros Hall. apply getMany_unusable.
  - apply NewHTTPClient_ok.
  - done.
  - unfold NewHTTPClient. simpl. intros pr.
    destruct (Nat.ltb 0 (length proxies)); [|done].
    by intros [= <-].
Qed.

Lemma Get_without_usable_proxy_witness :
  exists hc',
    getMany schemeSource 3 (NewHTTPClient ["10.0.0.1:8080"; "proxy.example:3128"] "") "" []
    = Some ([None; None; None], hc').
Proof.
  apply (Get_without_usable_proxy schemeSource "" "" []
           ["10.0.0.1:8080"; "proxy.example:3128"] 3).
  repeat constructor.
Defined.

(** ** What [Scrape] hands on of a card *)

Lemma trimRight_idem s : strings.trimRight (strings.trimRight s) = strings.trimRight s.
Proof.
  induction s as [|c s IH]; [done|].
  cbn [strings.trimRight].
  destruct (strings.trimRight s) as [|c' r'] eqn:E.
  - destruct (strings.isSpace c) eqn:Ec; [done|].
    cbn [strings.trimRight]. by rewrite Ec.
  - cbn [strings.trimRight] in *. by rewrite IH.
Qed.

Lemma trimLeft_head c s : strings.isSpace c = false -> strings.trimLeft (String c s) = String c s.
Proof. intros H. simpl. by rewrite H. Qed.

Lemma trimLeft_cases s :
  strings.trimLeft s = ""
  \/ exists c r, strings.trimLeft s = String c r /\ strings.isSpace c = false.
Proof.
  induction s as [|c s IH]; [by left|].
  simpl. destruct (strings.isSpace c) eqn:Ec; [done|].
  right. by exists c, s.
Qed.

Lemma trimRight_head c s :
  strings.isSpace c = false -> exists r, strings.trimRight (String c s) = String c r.
Proof.
  intros H. cbn [strings.trimRight].
  destruct (strings.trimRight s); rewrite ?H; by eauto.
Qed.

Lemma TrimSpace_idem s : strings.TrimSpace (strings.TrimSpace s) = strings.TrimSpace s.
Proof.
  unfold strings.TrimSpace.
  destruct (trimLeft_cases s) as [->|(c & r & -> & Hc)]; [done|].
  destruct (trimRight_head c r Hc) as (r' & Hr). rewrite Hr.
  rewrite trimLeft_head by done. by rewrite <- Hr, trimRight_idem.
Qed.

Lemma parseLocation_country locationText country l :
  parseLocation locationText country = Some l ->
  is_Some (City l) /\ Country_ l = country.
Proof.
  unfold parseLocation. destruct (String.eqb locationText ""); [done|].
  intros [= <-]. simpl. split; [|done].
  unfold strings.Split. rewrite splitByte_cur.
  destruct (strings.splitByte "," "" locationText) eqn:E; [|by eauto].
  exfalso. clear -E. revert E. generalize "".
  induction locationText as [|c s IH]; intros cur; simpl; [done|].
  destruct (Ascii.eqb c ","); [done|apply IH].
Qed.

Lemma parseSalary_currency salaryText c :
  parseSalary salaryText = Some c -> Currency c = Some "USD".
Proof.
  rewrite parseSalary_matches.
  destruct (regexp.FindAllStringSubmatch _ _); [done|]. by intros [= <-].
Qed.

Lemma parseJobCard_ok W s baseURL input job :
  parseJobCard W s baseURL input = Some job -> postingOK baseURL input job.
Proof.
  unfold parseJobCard, postingOK.
  destruct (data_jk s) as [jobKey|]; [|done].
  destruct (String.eqb_spec (strings.TrimSpace
              match titleSpan s with Some t => t | None => titleLink s end) "")
    as [|Hne]; [done|].
  intros [= <-]. simpl.
  split; [done|]. split; [apply TrimSpace_idem|].
  split; [by exists jobKey|].
  split; [by eauto|]. split; [by eauto|]. split; [by eauto|].
  split.
  - destruct (parseLocation _ _) as [l|] eqn:El; [|done].
    by apply parseLocation_country in El.
  - destruct (salarySnippet s) as [salaryText|]; [|done].
    destruct (parseSalary salaryText) as [c|] eqn:Ec; [|done].
    by apply parseSalary_currency in Ec.
Qed.

Section Postings.
Context (W : World) (input : ScraperInput) (baseURL : string).
Context (P : JobPost -> Prop).
Context (HP : forall s job, parseJobCard W s baseURL input = Some job -> P job).

Lemma scrapePage_Forall sc cursor r :
  scrapePage W sc input cursor baseURL = Some r -> Forall P (jobs r).
Proof.
  intros H%scrapePage_jobs. eapply Forall_impl; [exact H|].
  intros job (s & Hs). by eapply HP.
Qed.

Lemma turn_Forall w :
  Forall P (allJobs w) ->
  match turn W input baseURL w with
  | Again w' | Left w' => Forall P (allJobs w')
  | _ => True
  end.
Proof.
  intros Hw.
  destruct (turn_case W input baseURL w)
    as [Hc|Hc Hr|r e Hc Hr He|r Hc Hr He Hp|r Hc Hr He Hp Hn|r Hc Hr He Hp Hn];
    try done; simpl; apply Forall_app; (split; [done|]);
    by eapply scrapePage_Forall.
Qed.

Lemma walk_Forall fuel w w' :
  Forall P (allJobs w) ->
  walk W fuel input baseURL w = Some (Left w') -> Forall P (allJobs w').
Proof.
  revert w. induction fuel as [|fuel IH]; intros w Hw; simpl; [done|].
  pose proof (turn_Forall w Hw) as Ht.
  destruct (turn W input baseURL w) as [w1|w1|e sc|]; try done.
  - by apply IH.
  - by intros [= <-].
Qed.

End Postings.

Lemma Scrape_Forall W sc input (P : JobPost -> Prop) result sc' :
  (forall s job, parseJobCard W s (baseURLOf input) input = Some job -> P job) ->
  IndeedScraper_Scrape W sc input = Some (Returns (inl result), sc') ->
  Forall P (Jobs result).
Proof.
  intros HP. destruct (Scrape_exit W sc input) as (t & Hw & ->).
  destruct t as [w|w|e sc1|]; try done.
  unfold leaveWalk, window.
  destruct (goSlice _ _ _) as [js|] eqn:Hs; [|done].
  intros [= <- _]. simpl.
  eapply goSlice_Forall; [exact Hs|].
  eapply walk_Forall; [exact HP| |exact Hw]. constructor.
Qed.

Lemma baseURLOf_cases input : In (baseURLOf input) indeedBaseURLs.
Proof.
  unfold baseURLOf, getCountryDomain, indeedBaseURLs.
  destruct (Country_in input) as [c|]; [|simpl; auto].
  repeat match goal with
         | |- context [if ?b then _ else _] => destruct b; [simpl; auto 10|]
         end.
  simpl; auto.
Qed.

(** X12: Every posting that [Scrape] returns was built by [parseJobCard]
    for the site of the country of the query: its title is trimmed and
    not empty, its URL is the view URL of that site for the key that is
    its id, and so on as [postingOK] says; the site is one of the
    five country sites. *)
Theorem Scrape_postings (W : World) (sc : IndeedScraper) (input : ScraperInput) :
  In (baseURLOf input) indeedBaseURLs
  /\ match IndeedScraper_Scrape W sc input with
     | Some (Returns (inl result), _) =>
         Forall (postingOK (baseURLOf input) input) (Jobs result)
     | _ => True
     end.
Proof.
  split; [apply baseURLOf_cases|].
  destruct (IndeedScraper_Scrape W sc input) as [[[[result|e]|] sc']|] eqn:E; try done.
  eapply Scrape_Forall; [|exact E].
  intros s job. apply parseJobCard_ok.
Qed.

(** ** No posting twice *)

Lemma freshPostings_nil m : freshPostings m m [].
Proof. repeat split; [constructor|constructor|done]. Qed.

Lemma freshPostings_app m0 m1 m2 js1 js2 :
  freshPostings m0 m1 js1 -> freshPostings m1 m2 js2 -> freshPostings m0 m2 (js1 ++ js2).
Proof.
  intros (Hn1 & Hf1 & Hm1) (Hn2 & Hf2 & Hm2).
  rewrite Forall_forall in Hf1. rewrite Forall_forall in Hf2.
  split; [|split].
  - rewrite map_app. apply NoDup_app. split; [done|]. split; [|done].
    intros k (j1 & -> & Hj1)%list_elem_of_fmap (j2 & Hk & Hj2)%list_elem_of_fmap.
    destruct (Hf1 _ Hj1) as (_ & H1). destruct (Hf2 _ Hj2) as (H2 & _).
    congruence.
  - apply Forall_app. split; apply Forall_forall.
    + intros j Hj. destruct (Hf1 _ Hj) as (? & ?). split; [done|by apply Hm2].
    + intros j Hj. destruct (Hf2 _ Hj) as (Hno & ?). split; [|done].
      destruct (seen m0 (JobURL j)) eqn:E; [|done].
      apply Hm1 in E. congruence.
  - intros k Hk. by apply Hm2, Hm1.
Qed.

Lemma freshPostings_sublist m0 m1 js js' :
  sublist js' js -> freshPostings m0 m1 js -> freshPostings m0 m1 js'.
Proof.
  intros Hs (Hn & Hf & Hm). split; [|split; [|done]].
  - eapply sublist_NoDup; [exact Hn|]. by apply (fmap_sublist JobURL).
  - rewrite Forall_forall in *. intros j Hj. apply Hf.
    by eapply elem_of_sublist.
Qed.

Section Fresh.
Context (W : World) (input : ScraperInput) (baseURL : string).

Lemma scrapePage_fresh sc cursor r :
  scrapePage W sc input cursor baseURL = Some r ->
  freshPostings (seenURLs sc) (seenURLs (after r)) (jobs r).
Proof.
  intros (hc & req & _ & [(e & _ & -> & _ & -> & _)|(doc & _ & _ & -> & _ & ->)])%scrapePage_cases.
  - apply freshPostings_nil.
  - unfold dedupCards. simpl. split; [apply fold_visit_NoDup|]. split.
    + eapply Forall_impl; [apply fold_visit_emitted|]. by intros j (? & ? & _).
    + intros k Hk. by apply fold_visit_seen_mono.
Qed.

Lemma turn_fresh m0 w :
  freshPostings m0 (seenURLs (scraper w)) (allJobs w) ->
  match turn W input baseURL w with
  | Again w' | Left w' => freshPostings m0 (seenURLs (scraper w')) (allJobs w')
  | _ => True
  end.
Proof.
  intros Hw.
  destruct (turn_case W input baseURL w)
    as [Hc|Hc Hr|r e Hc Hr He|r Hc Hr He Hp|r Hc Hr He Hp Hn|r Hc Hr He Hp Hn];
    try done; simpl; apply scrapePage_fresh in Hr.
  - unfold pageEmpty in Hp. destruct (jobs r) eqn:Ej; [|done].
    rewrite <- (app_nil_r (allJobs w)). by eapply freshPostings_app.
  - by eapply freshPostings_app.
  - by eapply freshPostings_app.
Qed.

Lemma walk_fresh m0 fuel w w' :
  freshPostings m0 (seenURLs (scraper w)) (allJobs w) ->
  walk W fuel input baseURL w = Some (Left w') ->
  freshPostings m0 (seenURLs (scraper w')) (allJobs w').
Proof.
  revert w. induction fuel as [|fuel IH]; intros w Hw; simpl; [done|].
  pose proof (turn_fresh m0 w Hw) as Ht.
  destruct (turn W input baseURL w) as [w1|w1|e sc|]; try done.
  - by apply IH.
  - by intros [= <-].
Qed.

End Fresh.

Lemma goSlice_sublist {A} (l : list A) lo hi js : goSlice l lo hi = Some js -> sublist js l.
Proof.
  unfold goSlice. destruct (_ && _); [|done].
  intros [= <-]. etrans; [apply sublist_take|apply sublist_drop].
Qed.

Lemma Scrape_fresh W sc input result sc' :
  IndeedScraper_Scrape W sc input = Some (Returns (inl result), sc') ->
  freshPostings (seenURLs sc) (seenURLs sc') (Jobs result).
Proof.
  destruct (Scrape_exit W sc input) as (t & Hw & ->).
  destruct t as [w|w|e sc1|]; try done.
  unfold leaveWalk, window.
  destruct (goSlice _ _ _) as [js|] eqn:Hs; [|done].
  intros [= <- <-]. simpl.
  eapply freshPostings_sublist; [by eapply goSlice_sublist|].
  eapply walk_fresh; [|exact Hw]. apply freshPostings_nil.
Qed.

(** With no site named twice, at most one adapter of [ScrapeJobs] is
    started: the Indeed one. *)
Lemma launch_at_most_one W input sites :
  sharedAdapter (scrapersOf W input) sites = false ->
  (launch (scrapersOf W input) sites).1 = []
  \/ (launch (scrapersOf W input) sites).1
     = [mkScraperValue IndeedScraper (IndeedScraper_Scraper W)
          (NewIndeedScraper (ScrapeJobsInput.Proxies input)
                            (getValue "" (ScrapeJobsInput.UserAgent input)))].
Proof.
  rewrite sharedAdapter_scrapersOf, launch_scrapersOf.
  intros H%negb_false_iff%bool_decide_eq_true_1.
  destruct (List.filter _ sites) as [|s1 [|s2 l]] eqn:E; [by left|by right|].
  exfalso.
  assert (H1 : s1 = SiteIndeed).
  { assert (Hin : In s1 (List.filter (fun site => bool_decide (site = SiteIndeed)) sites))
      by (rewrite E; by left).
    apply filter_In in Hin as (_ & Hin). by apply bool_decide_eq_true_1 in Hin. }
  assert (H2 : s2 = SiteIndeed).
  { assert (Hin : In s2 (List.filter (fun site => bool_decide (site = SiteIndeed)) sites))
      by (rewrite E; right; by left).
    apply filter_In in Hin as (_ & Hin). by apply bool_decide_eq_true_1 in Hin. }
  subst. apply NoDup_cons in H as (Hnot & _). apply Hnot. by left.
Qed.

Lemma finishOrder_one {A} (x : A) sched : finishOrder 1 sched [x] = [x].
Proof. cbn [finishOrder length]. by rewrite Nat.mod_1_r. Qed.

(** What [ScrapeJobs] returns is what its one adapter returns. *)
Lemma ScrapeJobs_single W input sched response e :
  outcome (ScrapeJobs W input sched) = Return (Some response) e ->
  Jobs response = []
  \/ exists sites result sc',
       parseSites (ScrapeJobsInput.SiteName input) = inl sites
       /\ IndeedScraper_Scrape W
            (NewIndeedScraper (ScrapeJobsInput.Proxies input)
                              (getValue "" (ScrapeJobsInput.UserAgent input)))
            (scraperInputOf input sites)
          = Some (Returns (inl result), sc')
       /\ Jobs response = Jobs result.
Proof.
  unfold ScrapeJobs, ScrapeJobs_over.
  destruct (parseSites (ScrapeJobsInput.SiteName input)) as [sites|e'] eqn:Hs; [|done].
  destruct (sharedAdapter _ _) eqn:Hn; [done|].
  destruct (launch_at_most_one W input sites Hn) as [->| ->].
  - unfold doneOf, join. simpl. intros [= <- _]. by left.
  - unfold doneOf. cbn [length map]. rewrite finishOrder_one.
    unfold join, panicked, resultsChan. cbn [existsb omap list_omap map concat].
    rewrite goroutine_exit, Indeed_ScraperValue_Scrape.
    destruct (IndeedScraper_Scrape W _ _) as [[[[result|e1]|] sc']|] eqn:E; simpl;
      try done.
    + intros [= <- _]. right. exists sites, result, sc'. simpl.
      by rewrite app_nil_r.
    + intros [= <- _]. by left.
Qed.

(** X13: No posting comes twice: the postings that [Scrape] returns have
    pairwise different URLs; none of these URLs was in the set of the
    adapter before the call, all are in it after.  So it is with what
    [ScrapeJobs] returns, which has the postings of the one adapter
    there is. *)
Theorem no_posting_twice (W : World) :
  (forall sc input,
     match IndeedScraper_Scrape W sc input with
     | Some (Returns (inl result), sc') =>
         freshPostings (seenURLs sc) (seenURLs sc') (Jobs result)
     | _ => True
     end)
  /\ (forall input sched,
        match outcome (ScrapeJobs W input sched) with
        | Return (Some response) _ => NoDup (map JobURL (Jobs response))
        | _ => True
        end).
Proof.
  split.
  - intros sc input.
    destruct (IndeedScraper_Scrape W sc input) as [[[[result|e]|] sc']|] eqn:E; try done.
    by eapply Scrape_fresh.
  - intros input sched.
    destruct (outcome (ScrapeJobs W input sched)) as [| |[response|] e] eqn:E; try done.
    apply ScrapeJobs_single in E as [->|(sites & result & sc' & _ & E & ->)].
    + constructor.
    + by apply Scrape_fresh in E as (? & _).
Qed.

(** ** Site names and the orchestrator *)

Lemma mapSites_inl v acc sites :
  mapSites v acc = inl sites
  <-> exists new, sites = acc ++ new
                  /\ Forall2 (fun s site => MapStringToSite s = inl site) v new.
Proof.
  revert acc. induction v as [|s v IH]; intros acc; simpl.
  - split.
    + intros [= <-]. exists []. by rewrite app_nil_r.
    + intros (new & -> & ->%Forall2_nil_inv_l). by rewrite app_nil_r.
  - destruct (MapStringToSite s) as [site|e] eqn:E.
    + rewrite IH. split.
      * intros (new & -> & H). exists (site :: new).
        rewrite <- app_assoc. split; [done|]. by constructor.
      * intros (new & -> & H). apply Forall2_cons_inv_l in H as (site' & new' & Hs & H & ->).
        exists new'. rewrite <- app_assoc. split; [|done]. simpl. congruence.
    + split; [done|]. intros (new & _ & H).
      apply Forall2_cons_inv_l in H as (site' & new' & Hs & _). congruence.
Qed.

Lemma mapSites_inr good bad rest acc e :
  Forall (fun s => exists site, MapStringToSite s = inl site) good ->
  MapStringToSite bad = inr e ->
  mapSites (good ++ bad :: rest) acc = inr e.
Proof.
  intros Hg Hb. revert acc. induction Hg as [|s good (site & Hs) _ IH]; intros acc; simpl.
  - by rewrite Hb.
  - rewrite Hs. apply IH.
Qed.

Lemma MapStringToSite_inr s e :
  MapStringToSite s = inr e -> e = ("unknown site: " ++ s)%string.
Proof.
  unfold MapStringToSite. set (l := strings.ToLower s).
  repeat match goal with
         | |- context [if ?b then _ else _] => destruct b; [done|]
         end.
  by intros [= <-].
Qed.

(** X14: A list of site names resolves exactly when every name resolves,
    and then to the sites of the names, one for one and in their
    order; a name that occurs twice gives its site twice. *)
Theorem parseSites_names (v : list string) (sites : list Site) :
  parseSites (SiteNameStrings v) = inl sites
  <-> Forall2 (fun s site => MapStringToSite s = inl site) v sites.
Proof.
  simpl. rewrite mapSites_inl. split.
  - by intros (new & -> & H).
  - intros H. by exists sites.
Qed.

(** X15: The first name that does not resolve makes [ScrapeJobs] return at
    once: no response, the error of that name, which quotes it,
    nothing in the log even at the highest verbosity, whatever the
    source and whatever comes after that name. *)
Theorem ScrapeJobs_unknown_site (W : World) (input : ScrapeJobsInput.t)
    (sched : list nat) (good rest : list string) (bad : string) (e : error) :
  ScrapeJobsInput.SiteName input = SiteNameStrings (good ++ bad :: rest) ->
  Forall (fun s => exists site, MapStringToSite s = inl site) good ->
  MapStringToSite bad = inr e ->
  ScrapeJobs W input sched
  = mkRun (Return None (Some ("error parsing sites: unknown site: " ++ bad)%string)) [].
Proof.
  intros Hn Hg Hb. unfold ScrapeJobs, ScrapeJobs_over. rewrite Hn. simpl.
  rewrite (mapSites_inr good bad rest [] e Hg Hb).
  by rewrite (MapStringToSite_inr bad e Hb).
Qed.

Lemma ScrapeJobs_unknown_site_witness :
  ScrapeJobs repeatingSource
    (exampleInput (SiteNameStrings ["indeed"; "monster"; "linkedin"]) None []) []
  = mkRun (Return None (Some "error parsing sites: unknown site: monster")) [].
Proof.
  apply (ScrapeJobs_unknown_site repeatingSource _ [] ["indeed"] ["linkedin"] "monster"
           "unknown site: monster").
  - reflexivity.
  - repeat constructor. by exists SiteIndeed.
  - reflexivity.
Defined.

(** X16: Sites that resolve and have no adapter (every site but Indeed, as
    the map of [ScrapeJobs] stands) are passed over: no goroutine is
    started, nothing is requested; the caller gets an empty list and a
    nil error, and the log has one warning for each such site, in the
    order of the sites, unless the verbosity is 0. *)
Theorem ScrapeJobs_without_adapter (W : World) (input : ScrapeJobsInput.t)
    (sites : list Site) (sched : list nat) :
  parseSites (ScrapeJobsInput.SiteName input) = inl sites ->
  ~ In SiteIndeed sites ->
  ScrapeJobs W input sched
  = mkRun (Return (Some {| Jobs := [] |}) None)
          (if ScrapeJobsInput.Verbose input =? 0 then []
           else map notImplemented sites).
Proof.
  intros Hs Hno.
  assert (Hf : List.filter (fun site => bool_decide (site = SiteIndeed)) sites = []).
  { apply filter_none, Forall_forall. intros site Hin%list_elem_of_In.
    apply bool_decide_eq_false_2. by intros ->. }
  assert (Hshared : sharedAdapter (scrapersOf W input) sites = false).
  { rewrite sharedAdapter_scrapersOf, Hf. apply negb_false_iff, bool_decide_eq_true_2.
    constructor. }
  unfold ScrapeJobs. rewrite (ScrapeJobs_over_sites _ _ _ _ Hs Hshared).
  rewrite (surjective_pairing (launch (scrapersOf W input) sites)) at 1.
  rewrite launch_scrapersOf, Hf, launch_started. cbn [map snd].
  assert (Hall : List.filter (fun site => bool_decide (scrapersOf W input !! site = None)) sites
                 = sites).
  { apply filter_all, Forall_forall. intros site Hin%list_elem_of_In.
    apply bool_decide_eq_true_2. unfold scrapersOf.
    apply lookup_singleton_ne. by intros <-. }
  rewrite Hall. unfold doneOf, join. simpl. rewrite !app_nil_r.
  f_equal. unfold emitted, SetLogLevel.
  destruct (ScrapeJobsInput.Verbose input =? 0).
  - apply filter_none, Forall_forall. by intros r (site & <- & _)%list_elem_of_In%in_map_iff.
  - apply filter_all, Forall_forall. intros r (site & <- & _)%list_elem_of_In%in_map_iff.
    by destruct (ScrapeJobsInput.Verbose input =? 1).
Qed.

Lemma ScrapeJobs_without_adapter_witness :
  ScrapeJobs repeatingSource (exampleInput (SiteNameString "LinkedIn") None []) [] 
  = mkRun (Return (Some {| Jobs := [] |}) None) [].
Proof.
  apply (ScrapeJobs_without_adapter repeatingSource
           (exampleInput (SiteNameString "LinkedIn") None []) [SiteLinkedIn] []).
  - reflexivity.
  - simpl. intros [H|[]]. discriminate H.
Defined.

(** X17: As the map of adapters stands, the order in which the goroutines
    end is of no consequence: at most one is started (or the run is a
    data race), and [ScrapeJobs] comes to the same for every
    schedule. *)
Theorem ScrapeJobs_any_schedule (W : World) (input : ScrapeJobsInput.t)
    (sched sched' : list nat) :
  ScrapeJobs W input sched = ScrapeJobs W input sched'.
Proof.
  unfold ScrapeJobs, ScrapeJobs_over.
  destruct (parseSites (ScrapeJobsInput.SiteName input)) as [sites|e]; [|done].
  destruct (sharedAdapter _ _) eqn:Hn; [done|].
  f_equal. unfold doneOf.
  destruct (launch_at_most_one W input sites Hn) as [->| ->]; [done|].
  cbn [length map]. by rewrite !finishOrder_one.
Qed.

(** ** Edge cases of [Scrape] *)

Lemma walk_one W input baseURL fuel w t :
  turn W input baseURL w = t -> isAgain t = false ->
  walk W (S fuel) input baseURL w = Some t.
Proof. intros <- H. simpl. by destruct (turn W input baseURL w). Qed.

Lemma window_nil input js : window [] input = Some js -> js = [].
Proof.
  unfold window, goSlice. destruct (_ && _); [|done].
  intros [= <-]. by rewrite skipn_nil, firstn_nil.
Qed.

(** X18: With a count and an offset that add up to nothing, [Scrape] sends
    no request and leaves the adapter's client and set of URLs as they
    are: it returns an empty list (so for count 0 and offset 0), or
    panics on the slice expression. *)
Theorem Scrape_nothing_wanted (W : World) (sc : IndeedScraper) (input : ScraperInput) :
  wanted input <= 0 ->
  exists x sc',
    IndeedScraper_Scrape W sc input = Some (x, sc')
    /\ httpClient sc' = httpClient sc /\ seenURLs sc' = seenURLs sc
    /\ (x = Returns (inl {| Jobs := [] |}) \/ x = Panics)
    /\ (Offset input = 0 -> ResultsWanted input = 0 -> x = Returns (inl {| Jobs := [] |})).
Proof.
  intros Hw.
  assert (Ht : turn W input (baseURLOf input) (enterWalk sc input)
               = Left (enterWalk sc input)).
  { apply turn_reached. unfold countReached. simpl. apply Z.leb_le. lia. }
  unfold IndeedScraper_Scrape, Scrape_within, enoughTurns.
  rewrite (walk_one _ _ _ _ _ _ Ht eq_refl).
  unfold leaveWalk. simpl.
  destruct (window [] input) as [js|] eqn:E.
  - apply window_nil in E as ->. eexists _, _. split; [done|]. by auto.
  - eexists _, _. split; [done|]. split; [done|]. split; [done|]. split; [by right|].
    intros Ho Hr. unfold window in E. rewrite Ho, Hr in E. done.
Qed.

Lemma Scrape_nothing_wanted_witness :
  IndeedScraper_Scrape repeatingSource (NewIndeedScraper [] "") (exampleQuery 0 0)
  = Some (Returns (inl {| Jobs := [] |}),
          scraper (enterWalk (NewIndeedScraper [] "") (exampleQuery 0 0))).
Proof.
  destruct (Scrape_nothing_wanted repeatingSource (NewIndeedScraper [] "") (exampleQuery 0 0))
    as (x & sc' & H & _ & _ & _ & Hx).
  - vm_compute. discriminate.
  - rewrite (Hx eq_refl eq_refl) in H.
    assert (Hsc : sc' = scraper (enterWalk (NewIndeedScraper [] "") (exampleQuery 0 0))).
    { vm_compute in H. by injection H as <-. }
    by rewrite <- Hsc.
Defined.

Lemma scrapePage_err W sc input cursor baseURL r e :
  scrapePage W sc input cursor baseURL = Some r -> err r = Some e -> pageErrorCause e.
Proof.
  unfold scrapePage, pageErrorCause.
  destruct (HTTPClient_Get W _ _ _) as [[resp hc]|]; [|done].
  intros [= <-]. destruct resp as [e'|code body].
  { intros [= <-]. left. by eauto. }
  destruct (Z.eqb_spec code 200) as [->|Hne]; simpl.
  2:{ intros [= <-]. right. left. by eauto. }
  destruct body as [e'|doc].
  { intros [= <-]. right. right. by eauto. }
  by destruct (dedupCards W baseURL input (seenURLs sc) (cards doc)).
Qed.

Section Pages.
Context (W : World) (input : ScraperInput) (baseURL : string) (sent0 : nat).

(** The page counter of the loop counts the requests of the call. *)
Lemma turn_pages w :
  (sent0 <= sent (httpClient (scraper w)))%nat ->
  (sent (httpClient (scraper w)) - sent0 <= length (allJobs w))%nat ->
  (countReached input (allJobs w) = false ->
   page w = Z.of_nat (sent (httpClient (scraper w)) - sent0) + 1) ->
  match turn W input baseURL w with
  | Again w' =>
      (sent0 <= sent (httpClient (scraper w')))%nat
      /\ (sent (httpClient (scraper w')) - sent0 <= length (allJobs w'))%nat
      /\ (countReached input (allJobs w') = false ->
          page w' = Z.of_nat (sent (httpClient (scraper w')) - sent0) + 1)
  | Failed e sc' =>
      (sent0 < sent (httpClient sc'))%nat
      /\ exists cause,
           e = ("error scraping page "
                ++ Itoa (Z.of_nat (sent (httpClient sc') - sent0)) ++ ": " ++ cause)%string
           /\ pageErrorCause cause
  | _ => True
  end.
Proof.
  intros H0 Hlen Hpage.
  destruct (turn_case W input baseURL w)
    as [Hc|Hc Hr|r e Hc Hr He|r Hc Hr He Hp|r Hc Hr He Hp Hn|r Hc Hr He Hp Hn];
    try done.
  - pose proof (scrapePage_after _ _ _ _ _ _ Hr) as (_ & Hs).
    split; [lia|]. exists e. split; [|by eapply scrapePage_err].
    rewrite (Hpage Hc), Hs. do 3 f_equal. lia.
  - pose proof (scrapePage_after _ _ _ _ _ _ Hr) as (_ & Hs). simpl.
    unfold pageEmpty in Hp. apply Nat.eqb_neq in Hp.
    rewrite Hs, length_app.
    split; [lia|]. split; [lia|].
    intros Hc'%countReached_false. simpl in Hc'. rewrite length_app in Hc'.
    rewrite (Hpage Hc).
    pose proof (wrap64_range (ResultsWanted input + Offset input)) as Hrange.
    fold (wanted input) in Hrange.
    rewrite wrap64_small by lia. lia.
Qed.

Lemma walk_pages fuel w e sc' :
  (sent0 <= sent (httpClient (scraper w)))%nat ->
  (sent (httpClient (scraper w)) - sent0 <= length (allJobs w))%nat ->
  (countReached input (allJobs w) = false ->
   page w = Z.of_nat (sent (httpClient (scraper w)) - sent0) + 1) ->
  walk W fuel input baseURL w = Some (Failed e sc') ->
  (sent0 < sent (httpClient sc'))%nat
  /\ exists cause,
       e = ("error scraping page "
            ++ Itoa (Z.of_nat (sent (httpClient sc') - sent0)) ++ ": " ++ cause)%string
       /\ pageErrorCause cause.
Proof.
  revert w. induction fuel as [|fuel IH]; intros w H0 Hlen Hpage; simpl; [done|].
  pose proof (turn_pages w H0 Hlen Hpage) as Ht.
  destruct (turn W input baseURL w) as [w1|w1|e1 sc1|]; try done.
  - destruct Ht as (? & ? & ?). by apply IH.
  - by intros [= <- <-].
Qed.

End Pages.

(** X19: When [Scrape] returns an error, it is the error of the last request
    that the call has sent: the message names the number of that
    request within the call as the page, and one of the three causes of
    [scrapePage].  The postings of the pages before are not
    returned. *)
Theorem Scrape_error_page (W : World) (sc : IndeedScraper) (input : ScraperInput)
    (e : error) (sc' : IndeedScraper) :
  IndeedScraper_Scrape W sc input = Some (Returns (inr e), sc') ->
  (sent (httpClient sc) < sent (httpClient sc'))%nat
  /\ exists cause,
       e = ("error scraping page "
            ++ Itoa (Z.of_nat (sent (httpClient sc') - sent (httpClient sc)))
            ++ ": " ++ cause)%string
       /\ pageErrorCause cause.
Proof.
  destruct (Scrape_exit W sc input) as (t & Hw & ->).
  destruct t as [w|w|e1 sc1|]; try done.
  { unfold leaveWalk. by destruct (window _ _). }
  intros [= <- <-].
  eapply walk_pages; [| | |exact Hw]; simpl.
  - lia.
  - lia.
  - intros _. rewrite Nat.sub_diag. done.
Qed.

(** Against the source that answers 503, the call ends with an error
    after its first request. *)
Lemma Scrape_error_page_witness :
  match IndeedScraper_Scrape failingSource (NewIndeedScraper [] "") (exampleQuery 5 0) with
  | Some (Returns (inr e), sc') =>
      (0 < sent (httpClient sc'))%nat /\ exists cause, pageErrorCause cause
  | _ => False
  end.
Proof.
  destruct (IndeedScraper_Scrape failingSource (NewIndeedScraper [] "") (exampleQuery 5 0))
    as [[[[result|e]|] sc']|] eqn:E; try (vm_compute in E; discriminate E).
  apply Scrape_error_page in E as (Hs & cause & _ & Hc).
  split; [exact Hs|]. by exists cause.
Defined.

(** ** An adapter used again *)

Section Again.
Context (W : World) (input : ScraperInput) (baseURL : string) (doc : Doc).
Context (Hserves : servesOnly W doc).

Lemma scrapePage_serves sc cursor :
  clientOK (httpClient sc) ->
  exists r,
    scrapePage W sc input cursor baseURL = Some r
    /\ err r = None
    /\ jobs r = (dedupCards W baseURL input (seenURLs sc) (cards doc)).2
    /\ seenURLs (after r) = (dedupCards W baseURL input (seenURLs sc) (cards doc)).1
    /\ clientOK (httpClient (after r)).
Proof.
  intros Hok.
  destruct (scrapePage_of_clientOK W input baseURL sc cursor Hok) as (r & Hr).
  exists r. split; [done|].
  pose proof (scrapePage_after _ _ _ _ _ _ Hr) as (Hok' & _).
  apply scrapePage_cases in Hr as (hc & req & _ & [(e & _ & _ & _ & _ & Hno)|Hr]).
  { by destruct (Hno doc). }
  destruct Hr as (doc1 & Hd1 & He & Hj & _ & Ha).
  rewrite Hserves in Hd1. injection Hd1 as <-.
  split; [done|]. split; [done|]. split; [by rewrite Ha|done].
Qed.

Lemma turn_serves w :
  clientOK (httpClient (scraper w)) ->
  countReached input (allJobs w) = false
  \/ Forall (fun s => known W baseURL input (seenURLs (scraper w)) s = true) (cards doc) ->
  match turn W input baseURL w with
  | Again w' | Left w' =>
      clientOK (httpClient (scraper w'))
      /\ Forall (fun s => known W baseURL input (seenURLs (scraper w')) s = true) (cards doc)
  | _ => False
  end.
Proof.
  intros Hok HK.
  destruct (countReached input (allJobs w)) eqn:Hc.
  { rewrite turn_reached by done. by destruct HK. }
  destruct (scrapePage_serves (scraper w) (cursor w) Hok) as (r & Hr & He & _ & Hs & Hok').
  assert (HK' : Forall (fun s => known W baseURL input (seenURLs (after r)) s = true)
                       (cards doc)).
  { rewrite Hs. unfold dedupCards. apply fold_visit_known. }
  rewrite (turn_page _ _ _ _ _ Hc Hr), He.
  destruct (pageEmpty r); [done|]. by destruct (noNextCursor r).
Qed.

Lemma walk_serves fuel w t :
  clientOK (httpClient (scraper w)) ->
  countReached input (allJobs w) = false
  \/ Forall (fun s => known W baseURL input (seenURLs (scraper w)) s = true) (cards doc) ->
  walk W fuel input baseURL w = Some t ->
  exists w', t = Left w'
             /\ clientOK (httpClient (scraper w'))
             /\ Forall (fun s => known W baseURL input (seenURLs (scraper w')) s = true)
                       (cards doc).
Proof.
  revert w. induction fuel as [|fuel IH]; intros w Hok HK; simpl; [done|].
  pose proof (turn_serves w Hok HK) as Ht.
  destruct (turn W input baseURL w) as [w1|w1|e sc|]; try done.
  - destruct Ht as (? & ?). apply IH; [done|by right].
  - intros [= <-]. by exists w1.
Qed.

(** A page whose cards are all known yields nothing and ends the
    walk. *)
Lemma turn_known_page w :
  clientOK (httpClient (scraper w)) ->
  countReached input (allJobs w) = false ->
  Forall (fun s => known W baseURL input (seenURLs (scraper w)) s = true) (cards doc) ->
  exists sc', turn W input baseURL w = Left (mkWalk sc' (allJobs w) (page w) (cursor w))
              /\ seenURLs sc' = seenURLs (scraper w).
Proof.
  intros Hok Hc HK.
  destruct (scrapePage_serves (scraper w) (cursor w) Hok) as (r & Hr & He & Hj & Hs & _).
  unfold dedupCards in Hj, Hs.
  rewrite (fold_visit_of_known W baseURL input (cards doc) (seenURLs (scraper w), []) HK)
    in Hj, Hs.
  rewrite (turn_page _ _ _ _ _ Hc Hr), He. unfold pageEmpty. rewrite Hj. simpl.
  by exists (after r).
Qed.

End Again.

(** X20: An adapter is good for one call.  Against a source that serves one
    document, a second call of [Scrape] on the adapter that a first
    call has left returns no posting: the set of seen URLs is never
    reset, the first page yields nothing new, and the walk ends on
    it. *)
Theorem Scrape_again_empty (W : World) (doc : Doc) (proxies : list string)
    (userAgent : string) (input : ScraperInput) (x : Exit) (sc1 : IndeedScraper) :
  servesOnly W doc ->
  0 <= Offset input -> 0 <= ResultsWanted input ->
  0 < Offset input + ResultsWanted input < 2 ^ 63 ->
  IndeedScraper_Scrape W (NewIndeedScraper proxies userAgent) input = Some (x, sc1) ->
  exists sc2,
    IndeedScraper_Scrape W sc1 input = Some (Returns (inl {| Jobs := [] |}), sc2)
    /\ seenURLs sc2 = seenURLs sc1.
Proof.
  intros Hserves Ho Hr Hsum.
  assert (Hwanted : wanted input = Offset input + ResultsWanted input).
  { unfold wanted. rewrite wrap64_small by lia. lia. }
  assert (Hc : forall sc, countReached input (allJobs (enterWalk sc input)) = false).
  { intros sc. apply countReached_false. simpl. lia. }
  set (sc := NewIndeedScraper proxies userAgent).
  destruct (Scrape_exit W sc input) as (t & Hw & ->).
  destruct (walk_serves W input (baseURLOf input) doc Hserves
              (enoughTurns input) (enterWalk sc input) t
              (NewHTTPClient_ok proxies userAgent) (or_introl (Hc sc)) Hw)
    as (w' & -> & Hok & HK).
  unfold leaveWalk. rewrite window_ok by lia. intros [= _ <-].
  destruct (turn_known_page W input (baseURLOf input) doc Hserves
              (enterWalk (scraper w') input) Hok (Hc _) HK) as (sc2 & Ht & Hs).
  exists sc2. split; [|done].
  unfold IndeedScraper_Scrape, Scrape_within, enoughTurns.
  rewrite (walk_one _ _ _ _ _ _ Ht eq_refl).
  unfold leaveWalk. rewrite window_ok by lia. simpl.
  unfold windowOf. by rewrite skipn_nil, firstn_nil.
Qed.

(** Against the source of the example, the first call returns two
    postings and the second none. *)
Lemma Scrape_again_empty_witness :
  match IndeedScraper_Scrape repeatingSource (NewIndeedScraper [] "") (exampleQuery 5 0) with
  | Some (Returns (inl first), sc1) =>
      length (Jobs first) = 2%nat
      /\ exists sc2,
           IndeedScraper_Scrape repeatingSource sc1 (exampleQuery 5 0)
           = Some (Returns (inl {| Jobs := [] |}), sc2)
  | _ => False
  end.
Proof.
  destruct (IndeedScraper_Scrape repeatingSource (NewIndeedScraper [] "") (exampleQuery 5 0))
    as [[[[first|e]|] sc1]|] eqn:E; try (vm_compute in E; discriminate E).
  split.
  - vm_compute in E. injection E as <- _. reflexivity.
  - destruct (Scrape_again_empty repeatingSource examplePage [] "" (exampleQuery 5 0)
                (Returns (inl first)) sc1) as (sc2 & H & _).
    + intros n req. reflexivity.
    + simpl. lia.
    + simpl. lia.
    + simpl. lia.
    + exact E.
    + by exists sc2.
Defined.

(** ** The patterns *)

Lemma length_append (a b : string) :
  String.length (a ++ b) = (String.length a + String.length b)%nat.
Proof. induction a as [|c a IH]; [done|]. rewrite append_cons. simpl. by rewrite IH. Qed.

Lemma take_append (w s : string) : regexp.take (String.length w) (w ++ s) = w.
Proof.
  induction w as [|c w IH].
  - by destruct s.
  - rewrite append_cons. simpl. by rewrite IH.
Qed.

Lemma consumed_append (w s : string) : regexp.consumed (w ++ s) s = w.
Proof.
  unfold regexp.consumed. rewrite length_append.
  replace (String.length w + String.length s - String.length s)%nat
    with (String.length w) by lia.
  apply take_append.
Qed.

(** What the search finds is a match of the pattern: when the search
    for [r] in [s] succeeds, [s] starts with a string that [r] matches,
    and the rest of the search has gone on behind it. *)
Lemma run_sound r :
  forall s g k m,
    regexp.run r s g k = Some m ->
    exists w s' g', s = (w ++ s')%string /\ Matches r w /\ k s' g' = Some m.
Proof.
  induction r as [|p|r1 IH1 r2 IH2|r1 IH1 r2 IH2|r1 IH1|r1 IH1]; intros s g k m; simpl.
  - intros H. exists "", s, g. split; [done|]. split; [constructor|done].
  - destruct s as [|c s']; [done|]. destruct (p c) eqn:Hp; [|done].
    intros H. exists (String c ""), s', g. split; [done|]. split; [by constructor|done].
  - intros (w1 & s1 & g1 & -> & Hm1 & H)%IH1.
    apply IH2 in H as (w2 & s2 & g2 & -> & Hm2 & H).
    exists (w1 ++ w2)%string, s2, g2. rewrite append_assoc.
    split; [done|]. split; [by constructor|done].
  - destruct (regexp.run r1 s g k) as [m1|] eqn:E1.
    + intros [= <-]. apply IH1 in E1 as (w & s' & g' & -> & Hm & H).
      exists w, s', g'. split; [done|]. split; [by apply MatchesAltL|done].
    + intros (w & s' & g' & -> & Hm & H)%IH2.
      exists w, s', g'. split; [done|]. split; [by apply MatchesAltR|done].
  - generalize (String.length s) at 1. intros n. revert s g.
    induction n as [|n IHn]; intros s g.
    + intros H. exists "", s, g. split; [done|]. split; [constructor|done].
    + destruct (regexp.run r1 s g _) as [m1|] eqn:E1.
      * intros [= <-]. apply IH1 in E1 as (w1 & s1 & g1 & -> & Hm1 & H).
        destruct (Nat.ltb _ _); [|done].
        apply IHn in H as (w2 & s2 & g2 & -> & Hm2 & H).
        exists (w1 ++ w2)%string, s2, g2. rewrite append_assoc.
        split; [done|]. split; [by constructor|done].
      * intros H. exists "", s, g. split; [done|]. split; [constructor|done].
  - intros (w & s' & g' & -> & Hm & H)%IH1.
    exists w, s', (Some (regexp.consumed (w ++ s') s')).
    split; [done|]. split; [by constructor|done].
Qed.

Lemma matchAt_sound r s n m :
  regexp.matchAt r s = Some (n, m) ->
  exists w s', s = (w ++ s')%string /\ Matches r w /\ hd "" m = w /\ n = String.length w.
Proof.
  unfold regexp.matchAt.
  destruct (regexp.run r s None _) as [f|] eqn:E; [|done].
  intros [= <- <-].
  apply run_sound in E as (w & s' & g' & -> & Hm & [= <-]). simpl.
  exists w, s'. rewrite consumed_append, length_append.
  split; [done|]. split; [done|]. split; [done|]. lia.
Qed.

(** Every match reported is a match of the pattern and occurs in the
    text. *)
Lemma findFrom_sound r s :
  forall skip,
    Forall (fun m => Matches r (hd "" m) /\ strings.Contains s (hd "" m) = true)
           (regexp.findFrom r skip s).
Proof.
  induction s as [|c s IH]; intros skip; cbn [regexp.findFrom]; [constructor|].
  assert (Hrest : forall k,
            Forall (fun m => Matches r (hd "" m)
                             /\ strings.Contains (String c s) (hd "" m) = true)
                   (regexp.findFrom r k s)).
  { intros k. eapply Forall_impl; [apply IH|]. intros m (Hm & Hc). split; [done|].
    by apply (Contains_app_r (String c "") s). }
  destruct skip as [|k]; [|apply Hrest].
  destruct (regexp.matchAt r (String c s)) as [[n m]|] eqn:E; [|apply Hrest].
  constructor; [|apply Hrest].
  apply matchAt_sound in E as (w & s' & Hs & Hm & -> & _).
  split; [done|]. rewrite Hs. apply Contains_split. by exists "", s'.
Qed.

Lemma allBytes_app p a b : allBytes p (a ++ b) = allBytes p a && allBytes p b.
Proof.
  unfold allBytes. induction a as [|c a IH]; [done|].
  rewrite append_cons. simpl. by rewrite IH, andb_assoc.
Qed.

Lemma Matches_Class p w : Matches (regexp.Class p) w -> exists c, w = String c "" /\ p c = true.
Proof. inversion 1; subst. by eauto. Qed.

Lemma Matches_Star_Class p w : Matches (regexp.Star (regexp.Class p)) w -> allBytes p w = true.
Proof.
  remember (regexp.Star (regexp.Class p)) as r eqn:Hr.
  induction 1 as [| | | | | |r' s1 s2 H1 _ H2 IH2|]; try done.
  injection Hr as ->.
  apply Matches_Class in H1 as (c & -> & Hc).
  rewrite allBytes_app, IH2 by done. unfold allBytes. simpl. by rewrite Hc.
Qed.

Lemma Matches_Seq r1 r2 w :
  Matches (regexp.Seq r1 r2) w ->
  exists w1 w2, w = (w1 ++ w2)%string /\ Matches r1 w1 /\ Matches r2 w2.
Proof. inversion 1; subst. by eauto. Qed.

Lemma Matches_Plus_Class p w :
  Matches (regexp.Plus (regexp.Class p)) w -> w <> "" /\ allBytes p w = true.
Proof.
  intros (w1 & w2 & -> & (c & -> & Hc)%Matches_Class & H2%Matches_Star_Class)%Matches_Seq.
  split; [done|]. rewrite allBytes_app, H2. unfold allBytes. simpl. by rewrite Hc.
Qed.

Lemma Matches_Byte b w : Matches (regexp.Byte b) w -> w = String b "".
Proof.
  intros (c & -> & Hc)%Matches_Class. by apply Ascii.eqb_eq in Hc as ->.
Qed.

Lemma Matches_email w : Matches emailRegexp.pattern w -> emailShape w.
Proof.
  unfold emailRegexp.pattern.
  intros (l & w1 & -> & (Hl & Hla)%Matches_Plus_Class & H)%Matches_Seq.
  apply Matches_Seq in H as (at_ & w2 & -> & ->%Matches_Byte & H).
  apply Matches_Seq in H as (d & w3 & -> & (Hd & Hda)%Matches_Plus_Class & H).
  apply Matches_Seq in H as (dot & w4 & -> & ->%Matches_Byte & H).
  apply Matches_Seq in H as (t1 & w5 & -> & (c1 & -> & Hc1)%Matches_Class & H).
  apply Matches_Seq in H as (t2 & w6 & -> & (c2 & -> & Hc2)%Matches_Class & H).
  apply Matches_Star_Class in H.
  exists l, d, (String c1 (String c2 w6)).
  split; [done|]. repeat (split; [done|]).
  split; [simpl; lia|].
  unfold allBytes in *. simpl. by rewrite Hc1, Hc2.
Qed.

Lemma hasByte_app b s t : hasByte b (s ++ t) = hasByte b s || hasByte b t.
Proof.
  unfold hasByte. induction s as [|c s IH]; [done|].
  rewrite append_cons. simpl. by rewrite IH, orb_assoc.
Qed.

Lemma hasByte_Contains b s sub :
  strings.Contains s sub = true -> hasByte b sub = true -> hasByte b s = true.
Proof.
  rewrite Contains_split. intros (pre & post & ->) H.
  by rewrite !hasByte_app, H, orb_true_r.
Qed.

(** X21: Every address that [ExtractEmailsFromText] returns occurs in the
    text and has the form of the pattern: a local part that is not
    empty, [@], a domain that is not empty, a dot, and two letters or
    more.  The result is nil, never an empty list; so it is for a text
    without [@]. *)
Theorem ExtractEmailsFromText_sound (text : string) :
  match ExtractEmailsFromText text with
  | Some emails =>
      emails <> []
      /\ Forall (fun email => emailShape email /\ strings.Contains text email = true) emails
  | None => True
  end
  /\ (hasByte "@" text = false -> ExtractEmailsFromText text = None).
Proof.
  assert (H : match ExtractEmailsFromText text with
              | Some emails =>
                  emails <> []
                  /\ Forall (fun email => emailShape email
                                          /\ strings.Contains text email = true) emails
              | None => True
              end).
  { rewrite ExtractEmailsFromText_matches. unfold regexp.FindAllStringSubmatch.
    pose proof (findFrom_sound emailRegexp.pattern text 0) as Hf.
    destruct (regexp.findFrom emailRegexp.pattern 0 text) as [|m found]; [done|].
    split; [done|].
    apply Forall_fmap. eapply Forall_impl; [exact Hf|].
    intros m' (Hm & Hc). split; [by apply Matches_email|done]. }
  split; [exact H|].
  intros Hno. destruct (ExtractEmailsFromText text) as [[|email emails]|]; [by destruct H|..].
  - exfalso. destruct H as (_ & Hf). apply Forall_inv in Hf as (Hs & Hc).
    destruct Hs as (l & d & t & -> & _).
    apply (hasByte_Contains "@") in Hc; [congruence|].
    rewrite !hasByte_app. simpl. by rewrite orb_true_r.
  - done.
Qed.

(** ** Salary texts *)

Lemma anyByte_app p s t : anyByte p (s ++ t) = anyByte p s || anyByte p t.
Proof.
  unfold anyByte. induction s as [|c s IH]; [done|].
  rewrite append_cons. simpl. by rewrite IH, orb_assoc.
Qed.

Lemma anyByte_Contains p s sub :
  strings.Contains s sub = true -> anyByte p sub = true -> anyByte p s = true.
Proof.
  rewrite Contains_split. intros (pre & post & ->) H.
  by rewrite !anyByte_app, H, orb_true_r.
Qed.

Lemma allBytes_anyByte p s : s <> "" -> allBytes p s = true -> anyByte p s = true.
Proof.
  destruct s as [|c s]; [done|]. intros _. unfold allBytes, anyByte. simpl.
  by intros (-> & _)%andb_true_iff.
Qed.

Lemma Matches_salary w :
  Matches salaryRegexp.pattern w -> anyByte salaryRegexp.amountByte w = true.
Proof.
  unfold salaryRegexp.pattern.
  intros (w1 & w2 & -> & _ & H)%Matches_Seq.
  inversion H as [| | | | | | |r s Hg]; subst.
  apply Matches_Seq in Hg as (a & b & -> & (Ha & Hall)%Matches_Plus_Class & _).
  rewrite !anyByte_app, (allBytes_anyByte _ _ Ha Hall). by rewrite orb_true_r.
Qed.

Lemma run_Star_total r s g k :
  (forall s' g', is_Some (k s' g')) -> is_Some (regexp.run (regexp.Star r) s g k).
Proof.
  intros Hk. simpl. destruct (String.length s); [apply Hk|].
  destruct (regexp.run r s g _); [by eauto|apply Hk].
Qed.

Lemma run_Opt_total r s g k :
  (forall s' g', is_Some (k s' g')) -> is_Some (regexp.run (regexp.Opt r) s g k).
Proof.
  intros Hk. simpl. destruct (regexp.run r s g k); [by eauto|apply Hk].
Qed.

Lemma amountByte_not_dollar c :
  salaryRegexp.amountByte c = true -> Ascii.eqb c "$" = false.
Proof. destruct c as [[] [] [] [] [] [] [] []]; vm_compute; done. Qed.

(** At a digit or a comma the salary pattern matches. *)
Lemma matchAt_salary c s :
  salaryRegexp.amountByte c = true ->
  is_Some (regexp.matchAt salaryRegexp.pattern (String c s)).
Proof.
  intros Hc. unfold regexp.matchAt.
  assert (H : is_Some (regexp.run salaryRegexp.pattern (String c s) None
                         (fun s' g => Some (regexp.mkFound s' g)))).
  { unfold salaryRegexp.pattern.
    change (regexp.run (regexp.Seq ?r1 ?r2) ?s ?g ?k)
      with (regexp.run r1 s g (fun s' g' => regexp.run r2 s' g' k)).
    unfold regexp.Opt at 1. cbn [regexp.run]. unfold regexp.Byte at 1.
    cbn [regexp.run]. rewrite (amountByte_not_dollar c Hc).
    unfold regexp.Plus. cbn [regexp.run]. rewrite Hc.
    apply (run_Star_total (regexp.Class salaryRegexp.amountByte)).
    intros s1 g1. apply run_Opt_total. intros s2 g2. by eauto. }
  destruct H as (m & ->). by eauto.
Qed.

Lemma findFrom_salary s :
  anyByte salaryRegexp.amountByte s = true ->
  regexp.findFrom salaryRegexp.pattern 0 s <> [].
Proof.
  induction s as [|c s IH]; [done|]. cbn [regexp.findFrom].
  destruct (regexp.matchAt salaryRegexp.pattern (String c s)) as [[n m]|] eqn:E; [done|].
  unfold anyByte. simpl. fold (anyByte salaryRegexp.amountByte s).
  destruct (salaryRegexp.amountByte c) eqn:Hc; [|exact IH].
  destruct (matchAt_salary c s Hc) as (x & Hx). congruence.
Qed.

(** X22: [parseSalary] returns nil exactly for the texts that hold neither a
    digit nor a comma.  A compensation that it returns is in dollars,
    has both amounts or none, and an interval that is yearly, hourly or
    monthly, or nil. *)
Theorem parseSalary_nil (salaryText : string) :
  (parseSalary salaryText = None
   <-> anyByte salaryRegexp.amountByte salaryText = false)
  /\ match parseSalary salaryText with
     | Some c =>
         Currency c = Some "USD"
         /\ (is_Some (MinAmount c) <-> is_Some (MaxAmount c))
         /\ In (Interval c)
               [None; Some IntervalYearly; Some IntervalHourly; Some IntervalMonthly]
     | None => True
     end.
Proof.
  rewrite parseSalary_matches. unfold regexp.FindAllStringSubmatch. split.
  - pose proof (findFrom_sound salaryRegexp.pattern salaryText 0) as Hf.
    pose proof (findFrom_salary salaryText) as Hc.
    destruct (regexp.findFrom salaryRegexp.pattern 0 salaryText) as [|m found].
    + split; [|done]. intros _.
      destruct (anyByte salaryRegexp.amountByte salaryText); [|done]. by destruct Hc.
    + split; [done|]. intros Hno. exfalso.
      apply Forall_inv in Hf as (Hm%Matches_salary & Hin).
      apply (anyByte_Contains salaryRegexp.amountByte) in Hin; congruence.
  - destruct (regexp.findFrom salaryRegexp.pattern 0 salaryText) as [|m found]; [done|].
    simpl. split; [done|]. split.
    + destruct (salaryAmounts salaryText) as [|a [|b amounts]]; simpl;
        split; intros H; try done; by eauto.
    + unfold salaryInterval.
      repeat match goal with
             | |- context [if ?b then _ else _] => destruct b; [simpl; auto 10|]
             end.
      simpl; auto.
Qed.

(** ** Description texts *)

(** The star of the pattern [\s+] takes the whole run of blanks. *)
Lemma star_blanks n s g :
  (String.length s <= n)%nat ->
  exists rest,
    (fix star (n : nat) (s : string) (g : option string) : option regexp.Found :=
       match n with
       | O => Some (regexp.mkFound s g)
       | S n' =>
           match regexp.run (regexp.Class regexp.perlSpace) s g
                   (fun s' g' =>
                      if Nat.ltb (String.length s') (String.length s)
                      then star n' s' g' else None) with
           | Some m => Some m
           | None => Some (regexp.mkFound s g)
           end
       end) n s g = Some (regexp.mkFound rest g)
    /\ String.length s = (leadingBlanks s + String.length rest)%nat.
Proof.
  revert n. induction s as [|c s IH]; intros n Hn.
  - exists "". by destruct n.
  - destruct n as [|n]; [simpl in Hn; lia|].
    cbn [regexp.run leadingBlanks].
    destruct (regexp.perlSpace c) eqn:Hc.
    + destruct (IH n) as (rest & Hr & Hlen); [simpl in Hn; lia|].
      exists rest.
      assert (Hlt : Nat.ltb (String.length s) (String.length (String c s)) = true).
      { apply Nat.ltb_lt. simpl. lia. }
      cbn [regexp.run] in Hr. rewrite Hlt, Hr. split; [done|]. simpl. lia.
    + exists (String c s). split; [done|]. simpl. lia.
Qed.

Lemma matchAt_blanks c s :
  regexp.matchAt blanks (String c s)
  = if regexp.perlSpace c
    then Some (S (leadingBlanks s),
               [regexp.take (S (leadingBlanks s)) (String c s); ""])
    else None.
Proof.
  unfold regexp.matchAt, blanks, regexp.Plus. cbn [regexp.run].
  destruct (regexp.perlSpace c) eqn:Hc; [|done].
  destruct (star_blanks (String.length s) s None) as (rest & Hr & Hlen); [done|].
  cbn [regexp.run] in Hr. rewrite Hr. cbn [regexp.rest regexp.group1 default].
  unfold regexp.consumed.
  replace (String.length (String c s) - String.length rest)%nat with (S (leadingBlanks s))
    by (simpl; lia).
  done.
Qed.

Lemma replace_blanks s :
  regexp.replaceFrom blanks " " 0 s = collapseBlanks false s
  /\ regexp.replaceFrom blanks " " (leadingBlanks s) s = collapseBlanks true s.
Proof.
  induction s as [|c s (IH0 & IH1)]; [done|].
  assert (H0 : regexp.replaceFrom blanks " " 0 (String c s)
               = collapseBlanks false (String c s)).
  { cbn [regexp.replaceFrom collapseBlanks]. rewrite matchAt_blanks.
    destruct (regexp.perlSpace c).
    - cbn [Nat.pred]. by rewrite IH1.
    - by rewrite IH0. }
  split; [exact H0|].
  cbn [leadingBlanks]. destruct (regexp.perlSpace c) eqn:Hc.
  - cbn [regexp.replaceFrom collapseBlanks]. by rewrite Hc.
  - rewrite H0. cbn [collapseBlanks]. by rewrite Hc.
Qed.

Lemma singleBlanks_collapse s b : singleBlanks b (collapseBlanks b s) = true.
Proof.
  revert b. induction s as [|c s IH]; intros b; [done|].
  cbn [collapseBlanks]. destruct (regexp.perlSpace c) eqn:Hc.
  - destruct b; [apply IH|]. simpl. apply IH.
  - cbn [singleBlanks]. rewrite Hc. apply IH.
Qed.

Lemma singleBlanks_weaken s : singleBlanks true s = true -> singleBlanks false s = true.
Proof.
  destruct s as [|c s]; [done|]. simpl.
  destruct (regexp.perlSpace c); [|done]. by rewrite andb_false_r.
Qed.

Lemma singleBlanks_tail b c s :
  singleBlanks b (String c s) = true -> singleBlanks false s = true.
Proof.
  simpl. destruct (regexp.perlSpace c); [|done].
  intros (_ & H)%andb_true_iff. by apply singleBlanks_weaken.
Qed.

Lemma perlSpace_isSpace c : regexp.perlSpace c = true -> strings.isSpace c = true.
Proof. unfold regexp.perlSpace. by intros (-> & _)%andb_true_iff. Qed.

Lemma singleBlanks_trimLeft s :
  singleBlanks false s = true -> singleBlanks false (strings.trimLeft s) = true.
Proof.
  induction s as [|c s IH]; [done|]. intros H. simpl.
  destruct (strings.isSpace c); [|done].
  apply IH. by eapply singleBlanks_tail.
Qed.

Lemma singleBlanks_trimRight s b :
  singleBlanks b s = true -> singleBlanks b (strings.trimRight s) = true.
Proof.
  revert b. induction s as [|c s IH]; intros b; [done|].
  cbn [strings.trimRight singleBlanks].
  destruct (regexp.perlSpace c) eqn:Hc.
  - intros ((Hsp & Hb)%andb_true_iff & Hs%IH)%andb_true_iff.
    destruct (strings.trimRight s) as [|c' r'] eqn:E.
    + by rewrite (perlSpace_isSpace c Hc).
    + cbn [singleBlanks]. by rewrite Hc, Hsp, Hb.
  - intros Hs%IH.
    destruct (strings.trimRight s) as [|c' r'] eqn:E.
    + destruct (strings.isSpace c); [done|]. simpl. by rewrite Hc.
    + cbn [singleBlanks]. by rewrite Hc.
Qed.

(** X23: The two converters of descriptions.  When the library converts the
    text, [MarkdownConverter] returns the conversion trimmed, and
    [PlainConverter] the text of the document with every run of blanks
    turned into one space, then trimmed: no tab or line break is left,
    no two spaces follow each other, and no space stands at either end.
    When the library fails, both return the text as it was given. *)
Theorem converters_normalise (W : World) (html : string) :
  match md_ConvertString W html with
  | inl _ => strings.TrimSpace (MarkdownConverter W html) = MarkdownConverter W html
  | inr _ => MarkdownConverter W html = html
  end
  /\ match goquery_Text W html with
     | inl text =>
         strings.TrimSpace (PlainConverter W html) = PlainConverter W html
         /\ singleBlanks false (PlainConverter W html) = true
         /\ (html <> "" ->
             PlainConverter W html = strings.TrimSpace (collapseBlanks false text))
     | inr _ => PlainConverter W html = html
     end.
Proof.
  unfold MarkdownConverter, PlainConverter. split.
  - destruct (String.eqb_spec html "") as [->|Hne].
    + by destruct (md_ConvertString W "").
    + destruct (md_ConvertString W html); [apply TrimSpace_idem|done].
  - destruct (String.eqb_spec html "") as [->|Hne].
    + by destruct (goquery_Text W "").
    + destruct (goquery_Text W html) as [text|e]; [|done].
      unfold regexp.ReplaceAllString. rewrite (proj1 (replace_blanks text)).
      split; [apply TrimSpace_idem|]. split; [|done].
      unfold strings.TrimSpace.
      apply singleBlanks_trimRight, singleBlanks_trimLeft, singleBlanks_collapse.
Qed.

(** ** A location rendered and read again *)

Lemma Matches_postal w : Matches postalRegexp.pattern w -> anyByte strings.isDigit w = true.
Proof.
  unfold postalRegexp.pattern.
  intros (w1 & w2 & -> & _ & H)%Matches_Seq.
  apply Matches_Seq in H as (d & w3 & -> & (Hd & Hall)%Matches_Plus_Class & _).
  rewrite !anyByte_app, (allBytes_anyByte _ _ Hd Hall). by rewrite orb_true_r.
Qed.

(** Where the pattern cannot match, [ReplaceAllString] changes
    nothing. *)
Lemma replaceFrom_none r p repl s :
  (forall w, Matches r w -> anyByte p w = true) ->
  anyByte p s = false -> regexp.replaceFrom r repl 0 s = s.
Proof.
  intros Hr. induction s as [|c s IH]; [done|]. intros Hs.
  cbn [regexp.replaceFrom].
  destruct (regexp.matchAt r (String c s)) as [[n m]|] eqn:E.
  - apply matchAt_sound in E as (w & s' & Heq & Hm%Hr & _).
    rewrite Heq, anyByte_app, Hm in Hs. done.
  - rewrite IH; [done|].
    unfold anyByte in *. simpl in Hs. by apply orb_false_iff in Hs as (_ & ?).
Qed.

(** X24: A city and a state, rendered by [Location.String] and read again by
    [parseLocation], come back as they were, whatever the country of
    the location (which is rendered last, and not read): so for a city
    and a state in ASCII that are trimmed and hold no comma, the state
    holding no digit.  The country that comes back is the one of the
    query. *)
Theorem Location_round_trip (city state : string) (country queryCountry : option Country) :
  city <> "" ->
  isASCII city = true -> isASCII state = true ->
  hasByte "," city = false -> hasByte "," state = false ->
  strings.TrimSpace city = city -> strings.TrimSpace state = state ->
  anyByte strings.isDigit state = false ->
  parseLocation (Location_String (mkLocation (Some city) (Some state) country)) queryCountry
  = Some (mkLocation (Some city) (Some state) queryCountry).
Proof.
  intros Hne _ _ Hc Hs Htc Hts Hd.
  assert (Hstate : hasByte "," (" " ++ state) = false) by done.
  assert (Hparsed : parseLocation (city ++ "," ++ " " ++ state) queryCountry
                    = Some (mkLocation (Some city) (Some state) queryCountry)).
  { rewrite (parseLocation_two city (" " ++ state)%string queryCountry Hc Hstate).
    do 2 f_equal.
    - by rewrite Htc.
    - f_equal. change (strings.TrimSpace (" " ++ state)) with (strings.TrimSpace state).
      rewrite Hts. unfold regexp.ReplaceAllString.
      apply (replaceFrom_none _ strings.isDigit); [apply Matches_postal|done]. }
  destruct country as [c|].
  - set (rendered := if String.eqb c "usa" || String.eqb c "uk"
                     then strings.ToUpper c else strings.Title c).
    assert (Hl : Location_String (mkLocation (Some city) (Some state) (Some c))
                 = (city ++ "," ++ (" " ++ state) ++ "," ++ " " ++ rendered)%string).
    { unfold Location_String. simpl. fold rendered.
      by rewrite !append_assoc. }
    rewrite Hl.
    by rewrite (parseLocation_more city (" " ++ state)%string (" " ++ rendered)%string
                  queryCountry Hc Hstate).
  - assert (Hl : Location_String (mkLocation (Some city) (Some state) None)
                 = (city ++ "," ++ " " ++ state)%string).
    { reflexivity. }
    by rewrite Hl.
Qed.

Lemma Location_round_trip_witness :
  parseLocation
    (Location_String (mkLocation (Some "San Francisco") (Some "CA") (Some CountryUSA)))
    (Some CountryCanada)
  = Some (mkLocation (Some "San Francisco") (Some "CA") (Some CountryCanada)).
Proof.
  apply (Location_round_trip "San Francisco" "CA" (Some CountryUSA) (Some CountryCanada));
    done.
Defined.

(** ** The command line *)

Lemma Split_not_nil s b : strings.Split s b <> [].
Proof.
  unfold strings.Split. generalize "". induction s as [|c s IH]; intros cur; simpl; [done|].
  destruct (Ascii.eqb c b); [done|apply IH].
Qed.

Lemma mapSites_unknown v acc s e :
  In s v -> MapStringToSite s = inr e -> exists e', mapSites v acc = inr e'.
Proof.
  intros Hin Hs. revert acc. induction v as [|s' v IH]; intros acc; [done|].
  simpl. destruct (MapStringToSite s') as [site|e'] eqn:E; [|by eauto].
  destruct Hin as [->|Hin]; [congruence|]. by apply IH.
Qed.

Lemma splitByte_last_empty b s cur :
  strings.splitByte b cur (s ++ String b "") = strings.splitByte b cur s ++ [""].
Proof.
  revert cur. induction s as [|c s IH]; intros cur.
  - simpl. by rewrite Ascii.eqb_refl.
  - rewrite append_cons. simpl. destruct (Ascii.eqb c b); [|apply IH].
    by rewrite IH.
Qed.

(** X25: The flag [-sites] always gives at least one name, so the front end
    never asks for the four default sites.  A name that is empty (as
    when the flag is empty or ends with a comma) is not a site:
    [ScrapeJobs] returns an error, with nothing scraped and nothing
    logged. *)
Theorem main_sites (f : main.Flags) (W : World) (sched : list nat) :
  main.siteList (main.sites f) <> []
  /\ (In "" (main.siteList (main.sites f)) ->
      exists e, ScrapeJobs W (main.input f) sched
                = mkRun (Return None (Some ("error parsing sites: " ++ e)%string)) [])
  /\ (main.sites f = "" -> In "" (main.siteList (main.sites f)))
  /\ (forall s, main.sites f = (s ++ ",")%string -> In "" (main.siteList (main.sites f))).
Proof.
  split; [|split; [|split]].
  - unfold main.siteList. pose proof (Split_not_nil (main.sites f) ",") as H.
    by destruct (strings.Split (main.sites f) ",").
  - intros Hin.
    destruct (mapSites_unknown (main.siteList (main.sites f)) [] "" "unknown site: " Hin)
      as (e & He); [done|].
    exists e. unfold ScrapeJobs, ScrapeJobs_over. simpl. by rewrite He.
  - intros ->. by left.
  - intros s ->. unfold main.siteList, strings.Split.
    rewrite (splitByte_last_empty "," s ""), map_app.
    apply in_or_app. right. by left.
Qed.

(** X26: The query of the first page, as the flags of the command line
    determine it: the search term and the location are sent when their
    flags are not empty, the radius always (with or without a
    location), the remote marker when asked
    for (these are the parameters set; [url.Values] orders them by key
    in the URL).  The front end has no flag for an offset or for
    proxies: the window of the postings starts at 0, and the list of
    proxies is empty. *)
Theorem main_query (f : main.Flags) (sites : list Site) :
  let scraperInput := scraperInputOf (main.input f) sites in
  searchParams scraperInput ""
  = paramIf (negb (String.eqb (main.searchTerm f) "")) "q" (main.searchTerm f)
    ++ paramIf (negb (String.eqb (main.location f) "")) "l" (main.location f)
    ++ [("radius", Itoa (main.distance f))]
    ++ paramIf (main.isRemote f) "remotejob" "1"
  /\ Offset scraperInput = 0
  /\ ResultsWanted scraperInput = main.resultsWanted f
  /\ ScrapeJobsInput.Proxies (main.input f) = [].
Proof.
  intros scraperInput. split; [|done].
  unfold searchParams, scraperInput, scraperInputOf, paramIf. simpl.
  unfold main.stringPtr.
  destruct (String.eqb (main.searchTerm f) "");
    destruct (String.eqb (main.location f) "");
    destruct (main.isRemote f); reflexivity.
Qed.

(** ** Verbosity *)

Lemma ScrapeJobs_at_verbosity W input sched :
  exists o records,
    forall verbose,
      ScrapeJobs W (withVerbose input verbose) sched
      = mkRun o (emitted (SetLogLevel verbose) records).
Proof.
  unfold ScrapeJobs, ScrapeJobs_over.
  change (ScrapeJobsInput.SiteName (withVerbose input ?v))
    with (ScrapeJobsInput.SiteName input).
  destruct (parseSites (ScrapeJobsInput.SiteName input)) as [sites|e].
  2:{ exists (Return None (Some ("error parsing sites: " ++ e)%string)), []. done. }
  change (scraperInputOf (withVerbose input ?v) sites) with (scraperInputOf input sites).
  change (scrapersOf W (withVerbose input ?v)) with (scrapersOf W input).
  destruct (sharedAdapter (scrapersOf W input) sites).
  { exists DataRace, []. done. }
  unfold join. cbn [ScrapeJobsInput.Verbose withVerbose].
  destruct (panicked _); eexists _, _; intros verbose; reflexivity.
Qed.

Lemma emitted_Info records : emitted LevelInfo records = records.
Proof.
  unfold emitted. apply filter_all, Forall_forall. intros r _.
  by destruct (level r).
Qed.

(** X27: The verbosity changes the log and nothing else.  At 0 the log
    keeps the errors of the full log, at 1 the errors and the
    warnings; every other value, a negative one too, gives the full
    log. *)
Theorem verbosity_filters_log (W : World) (input : ScrapeJobsInput.t)
    (sched : list nat) (verbose : Z) :
  let full := ScrapeJobs W (withVerbose input 2) sched in
  let run := ScrapeJobs W (withVerbose input verbose) sched in
  outcome run = outcome full
  /\ log run
     = if verbose =? 0 then List.filter isError (log full)
       else if verbose =? 1 then List.filter (fun r => negb (isInfo r)) (log full)
       else log full.
Proof.
  intros full run. unfold full, run.
  destruct (ScrapeJobs_at_verbosity W input sched) as (o & records & H).
  rewrite !H. cbn [outcome log]. split; [done|].
  change (SetLogLevel 2) with LevelInfo. rewrite emitted_Info.
  unfold SetLogLevel, emitted.
  destruct (verbose =? 0).
  - apply filter_ext. intros r. unfold isError. by destruct (level r).
  - destruct (verbose =? 1).
    + apply filter_ext. intros r. unfold isInfo. by destruct (level r).
    + apply filter_all, Forall_forall. intros r _. by destruct (level r).
Qed.

(** ** A source of one document *)

Section FirstOccurrences.
Context (W : World) (baseURL : string) (input : ScraperInput).

Local Abbreviation visit := (visitCard W baseURL input).

(** The filter keeps the postings in the order of their cards. *)
Lemma fold_visit_sublist cards m :
  sublist (fold_left visit cards (m, [])).2 (cardPostings W baseURL input cards).
Proof.
  revert m. induction cards as [|s cards IH]; intros m; [constructor|].
  cbn [fold_left]. rewrite visit_cases. unfold cardPostings. cbn [omap list_omap].
  destruct (parseJobCard W s baseURL input) as [job|] eqn:E; [|apply IH].
  destruct (seen m (JobURL job)).
  - apply sublist_cons, IH.
  - rewrite fold_visit_app. simpl. apply sublist_skip, IH.
Qed.

(** A URL that is in the set after the filter was there before, or
    belongs to a posting that came through. *)
Lemma fold_visit_seen_inv cards m k :
  seen (fold_left visit cards (m, [])).1 k = true ->
  seen m k = true \/ k ∈ map JobURL (fold_left visit cards (m, [])).2.
Proof.
  revert m. induction cards as [|s cards IH]; intros m; [by left|].
  cbn [fold_left]. rewrite visit_cases.
  destruct (parseJobCard W s baseURL input) as [job|] eqn:E; [|apply IH].
  destruct (seen m (JobURL job)) eqn:Es; [apply IH|].
  rewrite fold_visit_app. simpl. intros [H|H]%IH.
  - rewrite seen_insert in H. case_decide as Hk; [|by left].
    right. rewrite Hk. by left.
  - right. by right.
Qed.

(** The filter with its map of URLs does what [firstByURL] does with
    its list. *)
Lemma fold_visit_firstByURL cards m earlier :
  (forall k, seen m k = true <-> k ∈ earlier) ->
  (fold_left visit cards (m, [])).2
  = firstByURL earlier (cardPostings W baseURL input cards).
Proof.
  revert m earlier. induction cards as [|s cards IH]; intros m earlier Hm; [done|].
  cbn [fold_left]. rewrite visit_cases. unfold cardPostings. cbn [omap list_omap].
  destruct (parseJobCard W s baseURL input) as [job|] eqn:E; [|by apply IH].
  cbn [firstByURL]. destruct (seen m (JobURL job)) eqn:Es.
  - rewrite bool_decide_eq_true_2 by (by apply Hm). by apply IH.
  - rewrite bool_decide_eq_false_2.
    2:{ intros Hin%Hm. congruence. }
    rewrite fold_visit_app. simpl. f_equal. apply IH.
    intros k. rewrite seen_insert, elem_of_cons. case_decide as Hk.
    + split; [by left|done].
    + rewrite Hm. split; [by right|]. by intros [?|?].
Qed.

(** Through the filter of a fresh adapter comes, for every URL of the
    page, its first posting. *)
Lemma dedupCards_covers cards job :
  job ∈ cardPostings W baseURL input cards ->
  JobURL job ∈ map JobURL (dedupCards W baseURL input ∅ cards).2.
Proof.
  intros (s & Hs & Hjob)%list_elem_of_omap.
  pose proof (fold_visit_known W baseURL input cards (∅, [])) as Hk.
  rewrite Forall_forall in Hk. specialize (Hk s Hs).
  unfold known in Hk. rewrite Hjob in Hk.
  apply fold_visit_seen_inv in Hk as [Hk|Hk]; [|done].
  unfold seen in Hk. by rewrite lookup_empty in Hk.
Qed.

End FirstOccurrences.

Lemma walk_two W input baseURL fuel w w' t :
  turn W input baseURL w = Again w' ->
  turn W input baseURL w' = t -> isAgain t = false ->
  walk W (S (S fuel)) input baseURL w = Some t.
Proof.
  intros H1 H2 Ht. cbn [walk]. rewrite H1.
  by apply walk_one.
Qed.

(** X28: Against a source that serves one document, whatever is asked, a
    fresh adapter ends its walk with the postings of the document's
    cards, each URL once (the posting of the card that comes first), in
    the order of the cards, and [Scrape] returns the window of these:
    the page served again, if a next link has it asked for, adds
    nothing. *)
Theorem Scrape_single_document (W : World) (doc : Doc) (proxies : list string)
    (userAgent : string) (input : ScraperInput) :
  servesOnly W doc ->
  0 <= Offset input -> 0 <= ResultsWanted input ->
  0 < Offset input + ResultsWanted input < 2 ^ 63 ->
  let found := (dedupCards W (baseURLOf input) input ∅ (cards doc)).2 in
  (exists sc',
     IndeedScraper_Scrape W (NewIndeedScraper proxies userAgent) input
     = Some (Returns (inl {| Jobs := windowOf found (Offset input) (ResultsWanted input) |}),
             sc'))
  /\ found = firstByURL [] (cardPostings W (baseURLOf input) input (cards doc))
  /\ sublist found (cardPostings W (baseURLOf input) input (cards doc))
  /\ NoDup (map JobURL found)
  /\ (forall job, job ∈ cardPostings W (baseURLOf input) input (cards doc) ->
        JobURL job ∈ map JobURL found).
Proof.
  intros Hserves Ho Hr Hsum found.
  split; [|split; [|split; [apply fold_visit_sublist|split;
                            [apply fold_visit_NoDup|apply dedupCards_covers]]]].
  2:{ apply fold_visit_firstByURL. intros k. unfold seen. rewrite lookup_empty. simpl.
      split; [done|]. by intros ?%elem_of_nil. }
  assert (Hwanted : wanted input = Offset input + ResultsWanted input).
  { unfold wanted. rewrite wrap64_small by lia. lia. }
  set (sc := NewIndeedScraper proxies userAgent).
  set (w := enterWalk sc input).
  assert (Hc : countReached input (allJobs w) = false).
  { apply countReached_false. simpl. lia. }
  assert (Hok : clientOK (httpClient (scraper w))) by apply NewHTTPClient_ok.
  destruct (scrapePage_serves W input (baseURLOf input) doc Hserves (scraper w) (cursor w) Hok)
    as (r & Hpage & He & Hj & Hs & Hok').
  change (seenURLs (scraper w)) with (∅ : gmap string bool) in Hj, Hs.
  fold found in Hj.
  assert (Hfuel : exists fuel, enoughTurns input = S (S fuel)).
  { unfold enoughTurns. exists (Nat.pred (Z.to_nat (wanted input))). f_equal. lia. }
  destruct Hfuel as (fuel & Hfuel).
  assert (Hend : exists w', walk W (enoughTurns input) input (baseURLOf input) w
                            = Some (Left w') /\ allJobs w' = found).
  { pose proof (turn_page W input (baseURLOf input) w r Hc Hpage) as Ht. rewrite He in Ht.
    destruct (pageEmpty r) eqn:Hp.
    { eexists. split; [rewrite Hfuel; by apply walk_one|]. simpl.
      unfold pageEmpty in Hp. rewrite Hj in Hp. by destruct found. }
    destruct (noNextCursor r) eqn:Hn.
    { eexists. split; [rewrite Hfuel; by apply walk_one|]. simpl. by rewrite Hj. }
    set (w1 := mkWalk (after r) (allJobs w ++ jobs r) (wrap64 (page w + 1)) (nextCursor r))
      in Ht.
    destruct (countReached input (allJobs w1)) eqn:Hc1.
    { exists w1. split; [|simpl; by rewrite Hj].
      rewrite Hfuel. eapply walk_two; [exact Ht|by apply turn_reached|done]. }
    assert (HK : Forall (fun s => known W (baseURLOf input) input (seenURLs (scraper w1)) s
                                  = true) (cards doc)).
    { simpl. rewrite Hs. unfold dedupCards. apply fold_visit_known. }
    destruct (turn_known_page W input (baseURLOf input) doc Hserves w1 Hok' Hc1 HK)
      as (sc2 & Ht2 & _).
    eexists. split; [rewrite Hfuel; eapply walk_two; [exact Ht|exact Ht2|done]|].
    simpl. by rewrite Hj. }
  destruct Hend as (w' & Hw & Hall).
  exists (scraper w').
  unfold IndeedScraper_Scrape, Scrape_within. fold sc w. rewrite Hw.
  unfold leaveWalk. rewrite window_ok by lia. by rewrite Hall.
Qed.

(** The page of the example holds three cards, two of them with the
    same key: two postings are found. *)
Lemma Scrape_single_document_witness :
  exists sc' first second,
    IndeedScraper_Scrape repeatingSource (NewIndeedScraper [] "") (exampleQuery 5 0)
    = Some (Returns (inl {| Jobs := [first; second] |}), sc')
    /\ ID first = Some "a1" /\ ID second = Some "b2".
Proof.
  destruct (Scrape_single_document repeatingSource examplePage [] "" (exampleQuery 5 0))
    as ((sc' & H) & _).
  - intros n req. reflexivity.
  - simpl. lia.
  - simpl. lia.
  - simpl. lia.
  - exists sc'. eexists _, _. split; [exact H|]. split; reflexivity.
Defined.

(** ** What [ScrapeJobs] returns *)

Lemma window_length allJobs input js :
  isInt (Offset input) -> isInt (ResultsWanted input) ->
  window allJobs input = Some js ->
  Z.of_nat (length js) <= Z.max 0 (ResultsWanted input).
Proof.
  unfold isInt, window, goSlice. intros Ho Hr.
  set (len := Z.of_nat (length allJobs)).
  set (end_ := wrap64 (Offset input + ResultsWanted input)).
  assert (Hend : end_ = Offset input + ResultsWanted input
                 \/ end_ = Offset input + ResultsWanted input - 2 ^ 64
                 \/ end_ = Offset input + ResultsWanted input + 2 ^ 64 /\ Offset input < 0).
  { unfold end_, wrap64.
    destruct (Z.lt_ge_cases (Offset input + ResultsWanted input) (2 ^ 63)).
    - destruct (Z.lt_ge_cases (Offset input + ResultsWanted input) (- 2 ^ 63)).
      + right. right. split; [|lia].
        replace (Offset input + ResultsWanted input + 2 ^ 63)
          with ((Offset input + ResultsWanted input + 2 ^ 63 + 2 ^ 64) + (-1) * 2 ^ 64)
          by lia.
        rewrite Z.mod_add by lia. rewrite Z.mod_small by lia. lia.
      + left. rewrite Z.mod_small by lia. lia.
    - right. left.
      replace (Offset input + ResultsWanted input + 2 ^ 63)
        with ((Offset input + ResultsWanted input - 2 ^ 63) + 1 * 2 ^ 64) by lia.
      rewrite Z.mod_add by lia. rewrite Z.mod_small by lia. lia. }
  destruct (Z.gtb_spec (Offset input) len) as [Hgt|Hle];
    destruct (Z.gtb_spec end_ len) as [Hgt'|Hle'];
    match goal with
    | |- context [if ?b then _ else _] => destruct b eqn:Hb; [|done]
    end;
    apply andb_true_iff in Hb as (Hb & H3); apply andb_true_iff in Hb as (H1 & H2);
    apply Z.leb_le in H1, H2, H3;
    intros [= <-]; rewrite length_take, length_drop; fold len in H3 |- *; lia.
Qed.

(** X29: Whenever [ScrapeJobs] returns a response, its error is nil, it
    returns at most as many postings as are wanted (15 when the
    caller says nothing), and every posting is as [parseJobCard]
    builds it for the site of the country asked for. *)
Theorem ScrapeJobs_response (W : World) (input : ScrapeJobsInput.t) (sites : list Site)
    (sched : list nat) (response : JobResponse) (e : option error) :
  isInt (getValue 0 (ScrapeJobsInput.Offset input)) ->
  isInt (getValue 15 (ScrapeJobsInput.ResultsWanted input)) ->
  parseSites (ScrapeJobsInput.SiteName input) = inl sites ->
  outcome (ScrapeJobs W input sched) = Return (Some response) e ->
  e = None
  /\ Z.of_nat (length (Jobs response))
     <= Z.max 0 (getValue 15 (ScrapeJobsInput.ResultsWanted input))
  /\ Forall (postingOK (baseURLOf (scraperInputOf input sites)) (scraperInputOf input sites))
            (Jobs response).
Proof.
  intros Ho Hr Hs Hout.
  assert (He : e = None).
  { unfold ScrapeJobs, ScrapeJobs_over in Hout. rewrite Hs in Hout.
    destruct (sharedAdapter _ _); [done|]. unfold join in Hout.
    destruct (panicked _); [done|]. by injection Hout as _ <-. }
  split; [done|].
  apply ScrapeJobs_single in Hout as [->|(sites' & result & sc' & Hs' & E & ->)].
  { split; [simpl; lia|constructor]. }
  assert (sites' = sites) as -> by congruence.
  split.
  - destruct (Scrape_exit W
                (NewIndeedScraper (ScrapeJobsInput.Proxies input)
                                  (getValue "" (ScrapeJobsInput.UserAgent input)))
                (scraperInputOf input sites)) as (t & _ & Ht).
    rewrite Ht in E. destruct t as [w|w|e1 sc1|]; try done.
    unfold leaveWalk in E.
    destruct (window (allJobs w) (scraperInputOf input sites)) as [js|] eqn:Hw; [|done].
    injection E as <- _. simpl.
    by apply (window_length (allJobs w) (scraperInputOf input sites)).
  - eapply Scrape_Forall; [|exact E]. intros s job. apply parseJobCard_ok.
Qed.

(** Asked for one posting of the example source, [ScrapeJobs] returns
    at most one. *)
Lemma ScrapeJobs_response_witness :
  match outcome (ScrapeJobs repeatingSource
                   (exampleInput (SiteNameString "indeed") (Some 1) []) []) with
  | Return (Some response) e => e = None /\ (length (Jobs response) <= 1)%nat
  | _ => False
  end.
Proof.
  destruct (outcome (ScrapeJobs repeatingSource
                       (exampleInput (SiteNameString "indeed") (Some 1) []) []))
    as [| |[response|] e] eqn:E; try (vm_compute in E; discriminate E).
  destruct (ScrapeJobs_response repeatingSource
              (exampleInput (SiteNameString "indeed") (Some 1) []) [SiteIndeed] []
              response e) as (He & Hlen & _).
  - unfold isInt. simpl. lia.
  - unfold isInt. simpl. lia.
  - reflexivity.
  - exact E.
  - split; [exact He|]. simpl in Hlen. lia.
Defined.
